(** * Cross-entropy benchmarking (XEB) fidelity estimation

    A shallow embedding of [cirq/experiments/fidelity_estimation.py] and the
    properties of its estimators, schedulers and aggregator.

    Conventions of the embedding.
    - A Python exception is a value of [exn]; a function that may raise
      returns [result A = exn + A], with [inl e] for "raised [e]".
    - A finite floating-point number is modelled by the rational it denotes
      ([Qc], canonical rationals with Leibniz equality): rounding is not
      modelled, so every arithmetic identity below is an identity of exact
      arithmetic.  A numpy operation whose result is not finite (a division
      by zero giving nan or inf) returns [None].
    - A Python [int] is a [Z]; [len] and [enumerate] indices are [nat].  A
      numpy integer is a [Z] wrapped to 64 bits after each operation.
    - Where the kind of a number decides what the code does (the division
      of Python raises on a zero divisor, that of numpy does not), a number
      is a [Scalar]: a Python float or a numpy scalar.
    - A pandas table is the list of its rows. *)

From Stdlib Require Import QArith Qcanon ZArith List Lia Permutation.
From stdpp Require Import base numbers list gmap strings sorting.

Local Open Scope Qc_scope.

(** ** Exceptions *)

Inductive exn : Type :=
| ValueError
| AssertionError
| ZeroDivisionError
| KeyError
| IndexError
| CollaboratorError (code : nat).

Abbreviation result := (sum exn).

Definition raise {A} (e : exn) : result A := inl e.

#[global] Instance result_ret : MRet result := λ A x, inr x.
#[global] Instance result_bind : MBind result :=
  λ A B f m, match m with inl e => inl e | inr x => f x end.

#[global] Instance exn_eq_dec : EqDecision exn.
Proof. solve_decision. Defined.

(** ** Numbers *)

(** [x ** 2] *)
Definition square (x : Qc) : Qc := x * x.

(** Python [float / float]: raises [ZeroDivisionError] on a zero divisor. *)
Definition py_div (x y : Qc) : result Qc :=
  if decide (y = 0) then raise ZeroDivisionError else mret (x / y).

(** numpy [float64 / float64]: no exception; [None] stands for nan or inf. *)
Definition np_div (x y : Qc) : option Qc :=
  if decide (y = 0) then None else Some (x / y).

(** [np.sum] of a one-dimensional array. *)
Definition np_sum (a : list Qc) : Qc := foldl Qcplus 0 a.

Definition Qc_of_nat (n : nat) : Qc := Qc_of_Z (Z.of_nat n).

(** [np.mean]: the sum divided by the number of items; nan on an empty
    array. *)
Definition np_mean (a : list Qc) : option Qc :=
  np_div (np_sum a) (Qc_of_nat (length a)).

(** Python's three-way [zip]. *)
Fixpoint zip3 {A B C} (xs : list A) (ys : list B) (zs : list C)
  : list (A * B * C) :=
  match xs, ys, zs with
  | x :: xs', y :: ys', z :: zs' => (x, y, z) :: zip3 xs' ys' zs'
  | _, _, _ => []
  end.

(** The sum [Σ_{U < n} f U] of the specification's formulas. *)
Fixpoint big_sum (n : nat) (f : nat → Qc) : Qc :=
  match n with
  | O => 0
  | S k => big_sum k f + f k
  end.

(** The [U]-th entry of a sequence of numbers. *)
Definition entry (a : list Qc) (U : nat) : Qc := nth U a 0.

(** ** Fidelity estimators *)

Definition linear_xeb_fidelity_from_probabilities
    (hilbert_space_dimension : Z) (probabilities : list Qc) : option Qc :=
  mean ← np_mean probabilities;
  Some (Qc_of_Z hilbert_space_dimension * mean - 1).

(** ** Least-squares fidelity fitter *)

(** The body of the accumulation loop: [numerator += (m - u) * (e - u)] and
    [denominator += (e - u) ** 2]. *)
Definition lsq_step : Qc * Qc → Qc * Qc * Qc → Qc * Qc :=
  λ '(numerator, denominator) '(m, e, u),
    (numerator + (m - u) * (e - u), denominator + square (e - u)).

(** [least_squares_xeb_fidelity_from_expectations] on sequences of Python
    floats: the division is Python's.  The function on sequences that also
    hold numpy scalars is
    [least_squares_xeb_fidelity_from_expectations_scalars] below. *)
Definition least_squares_xeb_fidelity_from_expectations
    (measured_expectations exact_expectations uniform_expectations : list Qc)
  : result (Qc * list Qc) :=
  if negb (bool_decide (length measured_expectations = length exact_expectations)
           && bool_decide (length exact_expectations = length uniform_expectations))
  then raise ValueError
  else
    let '(numerator, denominator) :=
      foldl lsq_step (0, 0)
            (zip3 measured_expectations exact_expectations uniform_expectations) in
    fidelity ← py_div numerator denominator;
    let residuals :=
      map (λ '(m, e, u), fidelity * (e - u) - (m - u))
          (zip3 measured_expectations exact_expectations uniform_expectations) in
    mret (fidelity, residuals).

(** The closed form of the specification:
    [f = Σ (m − u)(e − u) / Σ (e − u)²]. *)
Definition lsq_numerator (m e u : list Qc) : Qc :=
  big_sum (length m) (λ U, (entry m U - entry u U) * (entry e U - entry u U)).

Definition lsq_denominator (m e u : list Qc) : Qc :=
  big_sum (length m) (λ U, square (entry e U - entry u U)).

(** ** Python floats and numpy scalars *)

(** A finite number as the fitter meets it in a sequence: a Python [float]
    or a numpy [float64] scalar. *)
Inductive Scalar : Type :=
| PyFloat (v : Qc)
| NpFloat64 (v : Qc).

Definition scalar_value (a : Scalar) : Qc :=
  match a with
  | PyFloat v => v
  | NpFloat64 v => v
  end.

Definition is_PyFloat (a : Scalar) : bool :=
  match a with
  | PyFloat _ => true
  | NpFloat64 _ => false
  end.

(** [a - b], [a * b] and [a + b]: the result is a numpy scalar as soon as
    one operand is one ([float64] is a subclass of [float] and takes the
    operation over). *)
Definition scalar_op (f : Qc → Qc → Qc) (a b : Scalar) : Scalar :=
  match a, b with
  | PyFloat x, PyFloat y => PyFloat (f x y)
  | _, _ => NpFloat64 (f (scalar_value a) (scalar_value b))
  end.

(** [a ** 2] *)
Definition scalar_square (a : Scalar) : Scalar :=
  match a with
  | PyFloat x => PyFloat (square x)
  | NpFloat64 x => NpFloat64 (square x)
  end.

(** [a / b]: between two Python floats the division of Python, which raises
    on a zero divisor; as soon as one operand is a numpy scalar the division
    of numpy, which raises nothing and gives nan or inf ([None]). *)
Definition scalar_truediv (a b : Scalar) : result (option Qc) :=
  match a, b with
  | PyFloat x, PyFloat y => q ← py_div x y; mret (Some q)
  | _, _ => mret (np_div (scalar_value a) (scalar_value b))
  end.

(** The body of the accumulation loop on such numbers. *)
Definition scalar_lsq_step
  : Scalar * Scalar → Scalar * Scalar * Scalar → Scalar * Scalar :=
  λ '(numerator, denominator) '(m, e, u),
    (scalar_op Qcplus numerator
       (scalar_op Qcmult (scalar_op Qcminus m u) (scalar_op Qcminus e u)),
     scalar_op Qcplus denominator (scalar_square (scalar_op Qcminus e u))).

(** [least_squares_xeb_fidelity_from_expectations] on sequences of finite
    numbers, each a Python float or a numpy scalar.  The accumulators start
    as the Python floats [0.0].  The result holds the values of the
    fidelity and of the residuals, [None] for nan: a fidelity that is not
    finite makes every residual nan. *)
Definition least_squares_xeb_fidelity_from_expectations_scalars
    (measured_expectations exact_expectations uniform_expectations
       : list Scalar)
  : result (option Qc * list (option Qc)) :=
  if negb (bool_decide (length measured_expectations = length exact_expectations)
           && bool_decide (length exact_expectations = length uniform_expectations))
  then raise ValueError
  else
    let '(numerator, denominator) :=
      foldl scalar_lsq_step (PyFloat 0, PyFloat 0)
            (zip3 measured_expectations exact_expectations uniform_expectations) in
    fidelity ← scalar_truediv numerator denominator;
    let residuals :=
      map (λ '(m, e, u),
             fidelity ← fidelity;
             Some (fidelity * (scalar_value e - scalar_value u)
                   - (scalar_value m - scalar_value u)))
          (zip3 measured_expectations exact_expectations uniform_expectations) in
    mret (fidelity, residuals).

(** ** Python control flow and sequences *)

(** A [for] loop whose body may raise: [body] maps the loop state and the
    current item to the next state; the first exception ends the loop. *)
Fixpoint for_each {A S} (body : S → A → result S) (xs : list A) (s : S)
  : result S :=
  match xs with
  | [] => mret s
  | x :: xs' => s' ← body s x; for_each body xs' s'
  end.

(** [enumerate(xs)] *)
Definition enumerate {A} (xs : list A) : list (nat * A) :=
  zip (seq 0 (length xs)) xs.

(** An index of a slice, brought into [0, len]: negative indices count from
    the end. *)
Definition slice_index (len k : Z) : Z :=
  if bool_decide (k < 0)%Z then Z.max 0 (len + k) else Z.min len k.

(** [xs[start:stop]] *)
Definition py_slice {A} (start stop : Z) (xs : list A) : list A :=
  let len := Z.of_nat (length xs) in
  let a := slice_index len start in
  let b := slice_index len stop in
  take (Z.to_nat (b - a)) (drop (Z.to_nat a) xs).

(** [range(start, stop, step)]; a zero step raises [ValueError]. *)
Definition py_range (start stop step : Z) : result (list Z) :=
  if bool_decide (step = 0)%Z then raise ValueError
  else
    let n := if bool_decide (0 < step)%Z
             then ((stop - start + step - 1) `div` step)%Z
             else ((start - stop - step - 1) `div` (- step))%Z in
    mret (map (λ k, (start + Z.of_nat k * step)%Z) (seq 0 (Z.to_nat n))).

(** [max(xs)]; an empty argument raises [ValueError]. *)
Definition py_max (xs : list Z) : result Z :=
  match xs with
  | [] => raise ValueError
  | x :: xs' => mret (foldl Z.max x xs')
  end.

(** [sorted(s)] for a set of integers. *)
Definition sorted (s : gset Z) : list Z := merge_sort Z.le (elements s).

(** [np.bincount(x, minlength=minlength)]: entry [v] counts the occurrences
    of [v] in [x]; the length is [max(minlength, max(x) + 1)]. *)
Definition np_bincount (x : list nat) (minlength : nat) : list nat :=
  let size := foldl Nat.max minlength (map S x) in
  map (λ v, length (filter (λ i, i = v) x)) (seq 0 size).

(** [pd.DataFrame(records).set_index(keys)].  Every record of this module
    carries the key columns, so the call succeeds on a non-empty list; the
    frame built from an empty list has no columns and [set_index] raises
    [KeyError]. *)
Definition DataFrame_set_index {A} (records : list A) : result (list A) :=
  match records with
  | [] => raise KeyError
  | _ => mret records
  end.

(** ** Circuits *)

(** Modelled from the spec: the circuit representation ([cirq.Circuit],
    [cirq.Moment], [cirq.Operation], [cirq.Qid]) is not part of this source
    file.  A circuit is an ordered sequence of layers (moments), each a
    collection of operations on sites; a site is identified by an integer,
    whose order is the order of the qubits. *)
Inductive Gate : Type :=
| MeasurementGate
| OtherGate (id : nat).

Record Operation : Type := {
  gate : Gate;
  qubits : list Z
}.

Abbreviation Moment := (list Operation).
Abbreviation Circuit := (list Moment).

#[global] Instance Gate_eq_dec : EqDecision Gate.
Proof. solve_decision. Defined.

#[global] Instance Operation_eq_dec : EqDecision Operation.
Proof. solve_decision. Defined.

(** Modelled from the spec: [ops.measure(q0, q1)], the terminal two-qubit
    measurement. *)
Definition measure (q0 q1 : Z) : Operation :=
  {| gate := MeasurementGate; qubits := [q0; q1] |}.

(** Modelled from the spec: [circuit.all_qubits()], the sites some operation
    of the circuit acts on. *)
Definition all_qubits (circuit : Circuit) : gset Z :=
  list_to_set (flat_map qubits (concat circuit)).

(** Modelled from the spec: [circuit[:stop]], truncation to a prefix of
    layers, with the index conventions of Python slices. *)
Definition circuit_prefix (circuit : Circuit) (stop : Z) : Circuit :=
  py_slice 0 stop circuit.

(** Modelled from the spec: [circuit + op], the circuit with one more layer
    holding [op]. *)
Definition circuit_add (circuit : Circuit) (op : Operation) : Circuit :=
  circuit ++ [[op]].

(** ** Two-qubit sampling scheduler *)

Record _Sample2qXEBTask : Type := {
  task_cycle_depth : Z;
  task_circuit_i : nat;
  prepared_circuit : Circuit
}.

(** A row [{'circuit_i', 'cycle_depth', 'sampled_probs'}]. *)
Record SampledRecord : Type := {
  sampled_circuit_i : nat;
  sampled_cycle_depth : Z;
  sampled_probs : list (option Qc)
}.

Definition sampled_key (r : SampledRecord) : nat * Z :=
  (sampled_circuit_i r, sampled_cycle_depth r).

Definition _verify_and_get_two_qubits_from_circuits (circuits : list Circuit)
  : result (list Z) :=
  let all_qubits_set : gset Z := ∅ in
  let all_qubits_set := all_qubits_set ∪ ⋃ (map all_qubits circuits) in
  let all_qubits_list := sorted all_qubits_set in
  if negb (bool_decide (length all_qubits_list = 2%nat))
  then raise ValueError
  else mret all_qubits_list.

(** The sites of a library: the union of the sites of its circuits. *)
Definition library_qubits (circuits : list Circuit) : gset Z :=
  ⋃ (map all_qubits circuits).

(** Every circuit of the library acts within one common pair of sites. *)
Definition confined_to_common_pair (circuits : list Circuit) : Prop :=
  ∃ a b : Z, a ≠ b ∧ ∀ circuit, circuit ∈ circuits → all_qubits circuit ⊆ {[a; b]}.

(** The task-building loops of [sample_2q_xeb_circuits]. *)
Definition sample_2q_xeb_tasks (q0 q1 : Z) (circuits : list Circuit)
    (cycle_depths : list Z) : result (list _Sample2qXEBTask) :=
  for_each (λ tasks cycle_depth,
    for_each (λ tasks '(circuit_i, circuit),
      let circuit_depth := (cycle_depth * 2 + 1)%Z in
      if negb (bool_decide (circuit_depth ≤ Z.of_nat (length circuit))%Z)
      then raise AssertionError
      else
        let truncated_circuit := circuit_prefix circuit circuit_depth in
        let prepared_circuit := circuit_add truncated_circuit (measure q0 q1) in
        mret (tasks ++ [{| task_cycle_depth := cycle_depth;
                           task_circuit_i := circuit_i;
                           prepared_circuit := prepared_circuit |}]))
      (enumerate circuits) tasks)
    cycle_depths [].

Definition task_key (task : _Sample2qXEBTask) : nat * Z :=
  (task_circuit_i task, task_cycle_depth task).

(** One task per (cycle depth, circuit index) pair, in the order of the
    loops: the circuit cut down to its first [2 * cycle_depth + 1] layers,
    followed by a layer with the measurement of the two sites. *)
Definition expected_sample_tasks (q0 q1 : Z) (circuits : list Circuit)
    (cycle_depths : list Z) : list _Sample2qXEBTask :=
  flat_map (λ d,
    map (λ '(i, circuit),
           {| task_cycle_depth := d;
              task_circuit_i := i;
              prepared_circuit :=
                take (Z.to_nat (2 * d + 1)) circuit ++ [[measure q0 q1]] |})
        (enumerate circuits))
    cycle_depths.

(** The keys (circuit index, cycle depth), one per entry of the depth list
    and circuit of a library of [n_circuits] circuits. *)
Definition schedule_keys (n_circuits : nat) (cycle_depths : list Z)
  : list (nat * Z) :=
  flat_map (λ d, map (λ i, (i, d)) (seq 0 n_circuits)) cycle_depths.

(** A sampler that returns one result per submitted circuit: a list of the
    length of the batch, each item holding a single result. *)
Definition one_result_per_circuit
    (run_batch : list Circuit → Z → result (list (list (list nat)))) : Prop :=
  ∀ programs repetitions, ∃ results,
    run_batch programs repetitions = inr results
    ∧ length results = length programs
    ∧ Forall (λ nested_result, length nested_result = 1%nat) results.

Section Sampling.
(** [sampler.run_batch(programs, repetitions)]: for each program a list of
    results, one per sweep; a result is the column of measured integers
    [result.data.values[:, 0]]. *)
Variable run_batch : list Circuit → Z → result (list (list (list nat))).

(** [concurrent.futures.as_completed]: the futures in their order of
    completion. *)
Variable as_completed :
  list (result (list SampledRecord)) → list (result (list SampledRecord)).

Definition _SampleInBatches_call (repetitions : Z)
    (tasks : list _Sample2qXEBTask) : result (list SampledRecord) :=
  let prepared_circuits := map prepared_circuit tasks in
  results ← run_batch prepared_circuits repetitions;
  if negb (bool_decide (length results = length tasks))
  then raise AssertionError
  else
    for_each (λ records '(task, nested_result),
      match nested_result with
      | [sampled_inds] =>
          let sampled_probs :=
            map (λ count, np_div (Qc_of_nat count)
                                 (Qc_of_nat (length sampled_inds)))
                (np_bincount sampled_inds (2 ^ 2)) in
          mret (records ++ [{| sampled_circuit_i := task_circuit_i task;
                               sampled_cycle_depth := task_cycle_depth task;
                               sampled_probs := sampled_probs |}])
      | _ => raise ValueError
      end)
      (zip tasks results) [].

(** [sample_2q_xeb_circuits].  A future holds the outcome of the call of
    [_SampleInBatches] on one batch, its records or the exception it raised;
    the records are gathered in the order in which the futures complete.  The
    progress bar only reports progress and is left out. *)
Definition sample_2q_xeb_circuits (circuits : list Circuit)
    (cycle_depths : list Z) (repetitions : Z) (batch_size : Z)
  : result (list SampledRecord) :=
  qs ← _verify_and_get_two_qubits_from_circuits circuits;
  match qs with
  | [q0; q1] =>
      tasks ← sample_2q_xeb_tasks q0 q1 circuits cycle_depths;
      let n_tasks := Z.of_nat (length tasks) in
      starts ← py_range 0 n_tasks batch_size;
      let batched_tasks :=
        map (λ i, py_slice i (i + batch_size) tasks) starts in
      let futures := map (_SampleInBatches_call repetitions) batched_tasks in
      records ← for_each (λ records future,
                            batch_records ← future;
                            mret (records ++ batch_records))
                         (as_completed futures) [];
      DataFrame_set_index records
  | _ => raise ValueError
  end.
End Sampling.

(** ** Two-qubit simulation scheduler *)

(** A complex amplitude, as its real and imaginary parts. *)
Abbreviation Complex := (Qc * Qc)%type.

(** [np.abs(z) ** 2], the squared magnitude. *)
Definition abs2 (z : Complex) : Qc := square z.1 + square z.2.

(** A row [{'circuit_i', 'cycle_depth', 'pure_probs'}]. *)
Record PureRecord : Type := {
  pure_circuit_i : nat;
  pure_cycle_depth : Z;
  pure_probs : list Qc
}.

Definition pure_key (r : PureRecord) : nat * Z :=
  (pure_circuit_i r, pure_cycle_depth r).

(** [(len(circuit) - 1) // 2] *)
Definition circuit_max_cycle_depth (circuit : Circuit) : Z :=
  ((Z.of_nat (length circuit) - 1) `div` 2)%Z.

(** The loop of [_Simulate_2q_XEB_Circuit.__call__] over the enumerated
    step results, from index [moment_i] on. *)
Fixpoint record_steps (circuit_i : nat) (cycle_depths : gset Z)
    (moment_i : Z) (steps : list (list Complex)) (records : list PureRecord)
  : list PureRecord :=
  match steps with
  | [] => records
  | step_result :: steps' =>
      if bool_decide (moment_i `mod` 2 = 1)%Z
      then record_steps circuit_i cycle_depths (moment_i + 1) steps' records
      else
        let cycle_depth := (moment_i `div` 2)%Z in
        if negb (bool_decide (cycle_depth ∈ cycle_depths))
        then record_steps circuit_i cycle_depths (moment_i + 1) steps' records
        else
          let psi := step_result in
          let pure_probs := map abs2 psi in
          record_steps circuit_i cycle_depths (moment_i + 1) steps'
            (records ++ [{| pure_circuit_i := circuit_i;
                            pure_cycle_depth := cycle_depth;
                            pure_probs := pure_probs |}])
  end.

(** The key of the record the loop adds at the step of index [moment_i],
    if it adds one. *)
Definition step_keys (circuit_i : nat) (cycle_depths : gset Z) (moment_i : Z)
  : list (nat * Z) :=
  if bool_decide (moment_i `mod` 2 = 1)%Z then []
  else if bool_decide ((moment_i `div` 2)%Z ∈ cycle_depths)
       then [(circuit_i, (moment_i `div` 2)%Z)] else [].

(** The keys (circuit index, cycle depth), one per circuit of a library of
    [n_circuits] circuits and distinct depth of the depth list. *)
Definition simulation_keys (n_circuits : nat) (cycle_depths : list Z)
  : list (nat * Z) :=
  flat_map (λ i, map (λ d, (i, d)) (elements (list_to_set cycle_depths : gset Z)))
           (seq 0 n_circuits).

Section Simulation.
Variable ParamResolver : Type.

(** [simulator.simulate_moment_steps(circuit, param_resolver)]: the state
    vectors after each layer, or the exception the simulator raises. *)
Variable simulate_moment_steps :
  Circuit → ParamResolver → result (list (list Complex)).

Record _Simulate2qXEBTask : Type := {
  sim_circuit_i : nat;
  sim_cycle_depths : list Z;
  sim_circuit : Circuit;
  sim_param_resolver : ParamResolver
}.

Definition _Simulate_2q_XEB_Circuit_call (task : _Simulate2qXEBTask)
  : result (list PureRecord) :=
  let circuit_i := sim_circuit_i task in
  let cycle_depths : gset Z := list_to_set (sim_cycle_depths task) in
  let circuit := sim_circuit task in
  let param_resolver := sim_param_resolver task in
  let circuit_max_cycle_depth := circuit_max_cycle_depth circuit in
  max_cycle_depth ← py_max (elements cycle_depths);
  if bool_decide (max_cycle_depth > circuit_max_cycle_depth)%Z
  then raise ValueError
  else
    steps ← simulate_moment_steps circuit param_resolver;
    mret (record_steps circuit_i cycle_depths 0 steps []).

(** [simulate_2q_xeb_circuits] called without a pool ([pool=None]): the
    tasks run one after the other, in the order of the library, and the
    first task that raises ends the call.  With a pool the records are the
    same and in the same order when every task returns; which exception
    surfaces when several tasks raise is then up to the pool and is not
    part of this definition. *)
Definition simulate_2q_xeb_circuits (circuits : list Circuit)
    (cycle_depths : list Z) (param_resolver : ParamResolver)
  : result (list PureRecord) :=
  let tasks :=
    map (λ '(circuit_i, circuit),
           {| sim_circuit_i := circuit_i;
              sim_cycle_depths := cycle_depths;
              sim_circuit := circuit;
              sim_param_resolver := param_resolver |})
        (enumerate circuits) in
  nested_records ← mapM _Simulate_2q_XEB_Circuit_call tasks;
  let records := concat nested_records in
  DataFrame_set_index records.
End Simulation.

Arguments sim_circuit_i {_} _.
Arguments sim_cycle_depths {_} _.
Arguments sim_circuit {_} _.
Arguments sim_param_resolver {_} _.

(** ** Single-circuit XEB evaluator *)

Section XEB.
Variable QubitOrder : Type.

(** [circuit.qid_shape()]: the dimension of each site of the circuit. *)
Variable qid_shape : Circuit → list Z.

(** [cirq.final_state_vector(circuit, qubit_order=qubit_order)], or the
    exception it raises. *)
Variable final_state_vector : Circuit → QubitOrder → result (list Complex).

(** The value a signed 64-bit integer holds after an operation whose exact
    result is [z]: numpy does not check integer overflow. *)
Definition wrap_int64 (z : Z) : Z :=
  ((z + 2 ^ 63) `mod` 2 ^ 64 - 2 ^ 63)%Z.

(** [np.product] of a shape, a tuple of Python ints that each fit in 64
    bits: numpy multiplies them in its default integer type, [int64], so
    the product wraps around from [2 ^ 63] on.  The product of the empty
    shape is one. *)
Definition np_product (shape : list Z) : Z :=
  foldl (λ product d, wrap_int64 (product * d)) 1%Z shape.

(** [a[i]] for an in-range index of a one-dimensional array. *)
Definition np_index {A} (a : list A) (i : Z) : result A :=
  if bool_decide (i < 0)%Z then raise IndexError
  else match a !! Z.to_nat i with
       | Some x => mret x
       | None => raise IndexError
       end.

(** [amplitudes[bitstring]] *)
Definition mapping_get (amplitudes : gmap Z Complex) (bitstring : Z)
  : result Complex :=
  match amplitudes !! bitstring with
  | Some a => mret a
  | None => raise KeyError
  end.

(** [xeb_fidelity].  A tuple of bitstrings is first turned into a list; both
    are lists here. *)
Definition xeb_fidelity (circuit : Circuit) (bitstrings : list Z)
    (qubit_order : QubitOrder) (amplitudes : option (gmap Z Complex))
    (estimator : Z → list Qc → option Qc) : result (option Qc) :=
  let dim := np_product (qid_shape circuit) in
  _ ← for_each (λ _ bitstring,
         if negb (bool_decide (0 ≤ bitstring)%Z && bool_decide (bitstring < dim)%Z)
         then raise ValueError
         else mret ())
       bitstrings ();
  bitstring_probabilities ←
    match amplitudes with
    | None =>
        output_state ← final_state_vector circuit qubit_order;
        let output_probabilities := map abs2 output_state in
        mapM (np_index output_probabilities) bitstrings
    | Some amplitudes =>
        amps ← mapM (mapping_get amplitudes) bitstrings;
        mret (map abs2 amps)
    end;
  mret (estimator dim bitstring_probabilities).
End XEB.

(** ** Benchmark aggregator *)

(** A row of the joined table [sampled_df.join(simulated_df)]. *)
Record JoinedRow : Type := {
  circuit_i : nat;
  cycle_depth : Z;
  row_sampled_probs : list Qc;
  row_pure_probs : list Qc
}.

(** The columns [_summary_stats] adds to a row. *)
Record SummaryRow : Type := {
  joined : JoinedRow;
  e_u : Qc;
  u_u : Qc;
  m_u : Qc;
  y : Qc;
  x : Qc;
  numerator : Qc;
  denominator : Qc
}.

(** [_summary_stats] on a row whose two probability vectors have one
    shape, as the schedulers produce them.  On vectors of different lengths
    numpy raises [ValueError], or repeats a vector of a single entry; that
    is not part of this definition, which pairs the entries up to the
    shorter length, and the properties of [m_u] below take rows with
    vectors of one length. *)
Definition _summary_stats (row : JoinedRow) : SummaryRow :=
  let D := Qc_of_Z 4 in
  let e_u := np_sum (map square (row_pure_probs row)) in
  let u_u := np_sum (row_pure_probs row) / D in
  let m_u := np_sum (zip_with Qcmult (row_pure_probs row) (row_sampled_probs row)) in
  let y := m_u - u_u in
  let x := e_u - u_u in
  {| joined := row; e_u := e_u; u_u := u_u; m_u := m_u; y := y; x := x;
     numerator := x * y; denominator := square x |}.

Definition per_cycle_depth (df : list SummaryRow) : option Qc :=
  np_div (np_sum (map numerator df)) (np_sum (map denominator df)).

(** The rows of one group of [groupby('cycle_depth')]. *)
Definition depth_group (df : list SummaryRow) (d : Z) : list SummaryRow :=
  filter (λ row, cycle_depth (joined row) = d) df.

(** [benchmark_2q_xeb_fidelities] from the joined table [df] on: the
    summary statistics of each row, then one fidelity per group of rows of
    equal cycle depth, the groups in increasing order of their depth. *)
Definition benchmark_2q_xeb_fidelities_joined (df : list JoinedRow)
  : list (Z * option Qc) :=
  let df := map _summary_stats df in
  let depths := sorted (list_to_set (map (λ row, cycle_depth (joined row)) df)) in
  map (λ d, (d, per_cycle_depth (depth_group df d))) depths.

(** ** Gate characterization options *)

Record XEBPhasedFSimCharacterizationOptions : Type := {
  characterize_theta : bool;
  characterize_zeta : bool;
  characterize_chi : bool;
  characterize_gamma : bool;
  characterize_phi : bool;
  theta_default : Qc;
  zeta_default : Qc;
  chi_default : Qc;
  gamma_default : Qc;
  phi_default : Qc
}.

(** The names of the symbols [sympy.symbols('theta zeta chi gamma phi')]. *)
Definition THETA_SYMBOL : string := "theta".
Definition ZETA_SYMBOL : string := "zeta".
Definition CHI_SYMBOL : string := "chi".
Definition GAMMA_SYMBOL : string := "gamma".
Definition PHI_SYMBOL : string := "phi".

(** [np.eye(1, M, k)[0]]: the row of length [M] with a one at index [k]. *)
Definition np_eye_row (M k : nat) : list Qc :=
  map (λ j, if bool_decide (j = k) then 1 else 0) (seq 0 M).

(** [x0 + s * basis_vec] on arrays of one shape. *)
Definition array_add (a b : list Qc) : list Qc := zip_with Qcplus a b.
Definition array_scale (s : Qc) (a : list Qc) : list Qc := map (Qcmult s) a.

Definition get_initial_simplex_and_names
    (self : XEBPhasedFSimCharacterizationOptions)
    (initial_simplex_step_size : Qc) : list (list Qc) * list string :=
  let x0 : list Qc := [] in
  let names : list string := [] in
  let '(x0, names) :=
    if characterize_theta self
    then (x0 ++ [theta_default self], names ++ [THETA_SYMBOL]) else (x0, names) in
  let '(x0, names) :=
    if characterize_zeta self
    then (x0 ++ [zeta_default self], names ++ [ZETA_SYMBOL]) else (x0, names) in
  let '(x0, names) :=
    if characterize_chi self
    then (x0 ++ [chi_default self], names ++ [CHI_SYMBOL]) else (x0, names) in
  let '(x0, names) :=
    if characterize_gamma self
    then (x0 ++ [gamma_default self], names ++ [GAMMA_SYMBOL]) else (x0, names) in
  let '(x0, names) :=
    if characterize_phi self
    then (x0 ++ [phi_default self], names ++ [PHI_SYMBOL]) else (x0, names) in
  let n_param := length x0 in
  let initial_simplex :=
    foldl (λ initial_simplex i,
             let basis_vec := np_eye_row n_param i in
             initial_simplex
               ++ [array_add x0 (array_scale initial_simplex_step_size basis_vec)])
          [x0] (seq 0 n_param) in
  (initial_simplex, names).

(** The five angles in their canonical order, each with its flag, its name
    and its default value. *)
Definition canonical_angles (self : XEBPhasedFSimCharacterizationOptions)
  : list (bool * string * Qc) :=
  [ (characterize_theta self, "theta"%string, theta_default self);
    (characterize_zeta self, "zeta"%string, zeta_default self);
    (characterize_chi self, "chi"%string, chi_default self);
    (characterize_gamma self, "gamma"%string, gamma_default self);
    (characterize_phi self, "phi"%string, phi_default self) ].

Definition enabled_angles (self : XEBPhasedFSimCharacterizationOptions)
  : list (bool * string * Qc) :=
  filter (λ a, a.1.1 = true) (canonical_angles self).

(** ** Wrappers of the single-circuit evaluator *)

(** [linear_xeb_fidelity]: [xeb_fidelity] with the linear estimator. *)
Definition linear_xeb_fidelity (QubitOrder : Type)
    (qid_shape : Circuit → list Z)
    (final_state_vector : Circuit → QubitOrder → result (list Complex))
    (circuit : Circuit) (bitstrings : list Z) (qubit_order : QubitOrder)
    (amplitudes : option (gmap Z Complex)) : result (option Qc) :=
  xeb_fidelity QubitOrder qid_shape final_state_vector circuit bitstrings
    qubit_order amplitudes linear_xeb_fidelity_from_probabilities.

(** ** Least-squares fitter on probabilities *)

(** The expectations of one circuit, as
    [least_squares_xeb_fidelity_from_probabilities] computes them:
    [m = np.mean(g(prefactor * observed_probs))],
    [e = np.sum(all_probs * g(prefactor * all_probs))] and
    [u = np.sum(g(prefactor * all_probs)) / hilbert_space_dimension].  The
    mean of no observation and a division by a zero dimension are not
    finite. *)
Definition circuit_expectations (hilbert_space_dimension : Z)
    (observable_from_probability : Qc → Qc) (prefactor : Qc)
    (observed_probs all_probs : list Qc) : option Qc * Qc * option Qc :=
  let observable :=
    map (λ p, observable_from_probability (prefactor * p)) all_probs in
  (np_mean (map (λ p, observable_from_probability (prefactor * p))
                observed_probs),
   np_sum (zip_with Qcmult all_probs observable),
   np_div (np_sum observable) (Qc_of_Z hilbert_space_dimension)).

(** The expectations that are all finite. *)
Definition finite_expectations
    (expectations : list (option Qc * Qc * option Qc))
  : option (list (Qc * Qc * Qc)) :=
  mapM (λ '(m, e, u), m ← m; u ← u; Some (m, e, u)) expectations.

(** [least_squares_xeb_fidelity_from_expectations] as it runs on the numpy
    scalars the function below passes to it.  The three lists have one
    length by construction.  On empty lists the accumulators are still the
    Python floats [0.0] and the division raises [ZeroDivisionError]; after
    the first circuit they are numpy scalars, whose division by zero gives
    nan or inf instead of an exception, and a nan among the expectations
    makes the fidelity nan.  On finite expectations this is
    [least_squares_xeb_fidelity_from_expectations_scalars] on numpy
    scalars. *)
Definition least_squares_on_numpy_scalars
    (expectations : list (option Qc * Qc * option Qc))
  : result (option (Qc * list Qc)) :=
  match expectations with
  | [] => raise ZeroDivisionError
  | _ =>
      match finite_expectations expectations with
      | None => mret None
      | Some triples =>
          match least_squares_xeb_fidelity_from_expectations
                  (map (λ t, t.1.1) triples) (map (λ t, t.1.2) triples)
                  (map (λ t, t.2) triples) with
          | inr fit => mret (Some fit)
          | inl ZeroDivisionError => mret None
          | inl e => raise e
          end
      end
  end.

(** [least_squares_xeb_fidelity_from_probabilities] for an observable that
    numpy applies elementwise: the default identity ([None]) or a numpy
    ufunc with finite values.  A Python callable, which the function wraps
    with [np.frompyfunc], is left out: the arrays it yields hold Python
    objects, whose arithmetic differs. *)
Definition least_squares_xeb_fidelity_from_probabilities
    (hilbert_space_dimension : Z)
    (observed_probabilities all_probabilities : list (list Qc))
    (observable_from_probability : option (Qc → Qc))
    (normalize_probabilities : bool) : result (option (Qc * list Qc)) :=
  let observable_from_probability :=
    match observable_from_probability with
    | None => λ p, p
    | Some ufunc => ufunc
    end in
  let prefactor :=
    if normalize_probabilities then Qc_of_Z hilbert_space_dimension else 1 in
  let expectations :=
    map (λ '(observed_probs, all_probs),
           circuit_expectations hilbert_space_dimension
             observable_from_probability prefactor observed_probs all_probs)
        (zip observed_probabilities all_probabilities) in
  least_squares_on_numpy_scalars expectations.

(** ** Parts of the sampling scheduler *)

(** The empirical distribution [_SampleInBatches] computes from the measured
    integers:
    [np.bincount(sampled_inds, minlength=2 ** 2) / len(sampled_inds)]. *)
Definition sampled_probs_of (sampled_inds : list nat) : list (option Qc) :=
  map (λ count, np_div (Qc_of_nat count) (Qc_of_nat (length sampled_inds)))
      (np_bincount sampled_inds (2 ^ 2)).

(** A vector of finite, non-negative numbers that sum to one. *)
Definition is_distribution (ps : list (option Qc)) : Prop :=
  ∃ probs, ps = map Some probs ∧ Forall (λ p, 0 ≤ p) probs ∧ np_sum probs = 1.

(** The batches of [sample_2q_xeb_circuits]:
    [[tasks[i : i + batch_size] for i in range(0, n_tasks, batch_size)]]. *)
Definition batched_tasks {A} (tasks : list A) (batch_size : Z)
  : result (list (list A)) :=
  let n_tasks := Z.of_nat (length tasks) in
  starts ← py_range 0 n_tasks batch_size;
  mret (map (λ i, py_slice i (i + batch_size) tasks) starts).

(** ** Further notions for the properties of the fitter *)

(** The quantity the fitter minimises, [Σ (f (e_U − u_U) − (m_U − u_U))²],
    as a function of the fidelity [f]. *)
Definition squared_error (f : Qc) (m e u : list Qc) : Qc :=
  big_sum (length m)
    (λ U, square (f * (entry e U - entry u U) - (entry m U - entry u U))).

(** ** Parameterization of the gate and of the loss *)

(** An angle given to [ops.PhasedFSimGate]: a sympy symbol or a number. *)
Inductive Angle : Type :=
| Symbol (name : string)
| Number (value : Qc).

(** The name of the symbol an angle is, if it is one. *)
Definition angle_symbol (angle : Angle) : option string :=
  match angle with
  | Symbol name => Some name
  | Number _ => None
  end.

(** The keyword arguments [theta], [zeta], [chi], [gamma] and [phi], in this
    order, that [parameterize_phased_fsim_circuit] hands to
    [ops.PhasedFSimGate] for the gate it puts in the place of the operations
    [should_parameterize] selects.  What the gate makes of them (it stores
    a number reduced modulo 2π) and the traversal of the circuit are not
    part of this definition. *)
Definition phased_fsim_gate_arguments
    (phased_fsim_options : XEBPhasedFSimCharacterizationOptions)
  : list Angle :=
  let options := phased_fsim_options in
  let theta :=
    if characterize_theta options
    then Symbol THETA_SYMBOL else Number (theta_default options) in
  let zeta :=
    if characterize_zeta options
    then Symbol ZETA_SYMBOL else Number (zeta_default options) in
  let chi :=
    if characterize_chi options
    then Symbol CHI_SYMBOL else Number (chi_default options) in
  let gamma :=
    if characterize_gamma options
    then Symbol GAMMA_SYMBOL else Number (gamma_default options) in
  let phi :=
    if characterize_phi options
    then Symbol PHI_SYMBOL else Number (phi_default options) in
  [theta; zeta; chi; gamma; phi].

(** [dict(pairs)]: a later pair replaces an earlier one with the same key. *)
Definition dict {V : Type} (pairs : list (string * V)) : gmap string V :=
  foldl (λ d kv, <[kv.1 := kv.2]> d) ∅ pairs.

(** The dictionary [params = dict(zip(names, angles))] that the loss
    function [_mean_infidelity] of
    [characterize_phased_fsim_parameters_with_xeb] builds for a trial vector
    [angles], with the [names] of [get_initial_simplex_and_names]. *)
Definition _mean_infidelity_params
    (phased_fsim_options : XEBPhasedFSimCharacterizationOptions)
    (initial_simplex_step_size : Qc) (angles : list Qc) : gmap string Qc :=
  let '(initial_simplex, names) :=
    get_initial_simplex_and_names phased_fsim_options
      initial_simplex_step_size in
  dict (zip names angles).

(** Modelled from the spec: the value of such an argument once the
    parameters are bound.  A number is itself, a symbol takes the value the
    dictionary has for its name; [None] stands for a symbol that stays
    free. *)
Definition angle_value (params : gmap string Qc) (angle : Angle)
  : option Qc :=
  match angle with
  | Symbol name => params !! name
  | Number value => Some value
  end.

(** ** Example data *)

(** Options with the five angles free and the default of theta changed. *)
Definition example_options : XEBPhasedFSimCharacterizationOptions :=
  {| characterize_theta := true; characterize_zeta := true;
     characterize_chi := true; characterize_gamma := true;
     characterize_phi := true;
     theta_default := - Q2Qc (1 # 4); zeta_default := 0;
     chi_default := 0; gamma_default := 0; phi_default := 0 |}.

(** Options that keep zeta and gamma fixed. *)
Definition example_partial_options : XEBPhasedFSimCharacterizationOptions :=
  {| characterize_theta := true; characterize_zeta := false;
     characterize_chi := true; characterize_gamma := false;
     characterize_phi := true;
     theta_default := - Q2Qc (1 # 4); zeta_default := Q2Qc (1 # 3);
     chi_default := 0; gamma_default := Q2Qc (1 # 5); phi_default := 0 |}.

(** A layer of single-qubit rotations on the sites 1 and 3. *)
Definition example_rotations (i : nat) : Moment :=
  [ {| gate := OtherGate i; qubits := [3%Z] |};
    {| gate := OtherGate (S i); qubits := [1%Z] |} ].

(** An entangling layer on the sites 1 and 3. *)
Definition example_entangler : Moment :=
  [ {| gate := OtherGate 9; qubits := [1%Z; 3%Z] |} ].

Definition example_circuit_3 : Circuit :=
  [example_rotations 0; example_entangler; example_rotations 2].

Definition example_circuit_5 : Circuit :=
  [example_rotations 0; example_entangler; example_rotations 2;
   example_entangler; example_rotations 4].

Definition example_library : list Circuit :=
  [example_circuit_3; example_circuit_5].

(** A sampler whose every run measures the outcomes 0, 3, 3, 1. *)
Definition example_sampler (programs : list Circuit) (repetitions : Z)
  : result (list (list (list nat))) :=
  inr (map (λ _, [[0; 3; 3; 1]%nat]) programs).

(** A sampler that raises an exception of its own on every batch. *)
Definition failing_sampler (programs : list Circuit) (repetitions : Z)
  : result (list (list (list nat))) :=
  raise (CollaboratorError 2).

(** A sampler that drops the result of the first circuit of a batch. *)
Definition short_sampler (programs : list Circuit) (repetitions : Z)
  : result (list (list (list nat))) :=
  inr (map (λ _, [[0; 3; 3; 1]%nat]) (tail programs)).

(** A sampler that returns the results of a sweep of two runs per circuit. *)
Definition sweep_sampler (programs : list Circuit) (repetitions : Z)
  : result (list (list (list nat))) :=
  inr (map (λ _, [[0; 3; 3; 1]%nat; [1; 1; 2; 0]%nat]) programs).

(** A simulator whose state after every layer is the first basis state. *)
Definition example_simulator (circuit : Circuit) (param_resolver : unit)
  : result (list (list Complex)) :=
  inr (map (λ _, [(1, 0); (0, 0); (0, 0); (0, 0)]) circuit).

(** A simulator that raises an exception of its own on every circuit. *)
Definition failing_simulator (circuit : Circuit) (param_resolver : unit)
  : result (list (list Complex)) :=
  raise (CollaboratorError 0).

(** The shape of a circuit of qubits: dimension 2 for each of its sites. *)
Definition example_qid_shape (circuit : Circuit) : list Z :=
  map (λ _, 2%Z) (sorted (all_qubits circuit)).


(** A state-vector simulation that raises an exception of its own. *)
Definition failing_final_state_vector (circuit : Circuit) (qubit_order : unit)
  : result (list Complex) :=
  raise (CollaboratorError 1).

(** A state-vector simulation that returns a fixed two-qubit state. *)
Definition example_final_state_vector (circuit : Circuit) (qubit_order : unit)
  : result (list Complex) :=
  inr [(Q2Qc (1 # 2), 0); (Q2Qc (1 # 2), 0); (0, Q2Qc (1 # 2));
       (0, - Q2Qc (1 # 2))].

(** The amplitudes of the outcomes 0 and 3 in that state. *)
Definition example_amplitudes : gmap Z Complex :=
  {[ 0%Z := (Q2Qc (1 # 2), 0); 3%Z := (0, - Q2Qc (1 # 2)) ]}.

(** A joined row with fixed probability vectors. *)
Definition example_row (i : nat) (d : Z) : JoinedRow :=
  {| circuit_i := i; cycle_depth := d;
     row_sampled_probs := [Q2Qc (1 # 2); Q2Qc (1 # 4); Q2Qc (1 # 4); 0];
     row_pure_probs := [Q2Qc (1 # 2); Q2Qc (1 # 2); 0; 0] |}.

(** The ideal distributions of two circuits over four outcomes. *)
Definition example_all_probabilities : list (list Qc) :=
  [ [Q2Qc (1 # 2); Q2Qc (1 # 2); 0; 0];
    [Q2Qc (3 # 4); Q2Qc (1 # 4); 0; 0] ].

(** The ideal probabilities of the bitstrings observed on the two circuits. *)
Definition example_observed_probabilities : list (list Qc) :=
  [ [Q2Qc (1 # 2); Q2Qc (1 # 2); Q2Qc (1 # 2)];
    [Q2Qc (3 # 4); Q2Qc (1 # 4)] ].

(** Joined rows whose sampled distribution is the ideal one. *)
Definition example_perfect_joined : list JoinedRow :=
  [ {| circuit_i := 0; cycle_depth := 1;
       row_sampled_probs := [Q2Qc (1 # 2); Q2Qc (1 # 2); 0; 0];
       row_pure_probs := [Q2Qc (1 # 2); Q2Qc (1 # 2); 0; 0] |};
    {| circuit_i := 1; cycle_depth := 1;
       row_sampled_probs := [Q2Qc (3 # 4); Q2Qc (1 # 4); 0; 0];
       row_pure_probs := [Q2Qc (3 # 4); Q2Qc (1 # 4); 0; 0] |} ].

(** Joined rows whose sampled distribution is the uniform one. *)
Definition example_uniform_joined : list JoinedRow :=
  [ {| circuit_i := 0; cycle_depth := 1;
       row_sampled_probs := replicate 4 (1 / Qc_of_Z 4);
       row_pure_probs := [Q2Qc (1 # 2); Q2Qc (1 # 2); 0; 0] |};
    {| circuit_i := 1; cycle_depth := 1;
       row_sampled_probs := replicate 4 (1 / Qc_of_Z 4);
       row_pure_probs := [Q2Qc (3 # 4); Q2Qc (1 # 4); 0; 0] |} ].

Definition example_joined : list JoinedRow :=
  [example_row 0 1; example_row 1 0; example_row 1 1].

(** A circuit with one operation, on the site 0. *)
Definition example_one_site_circuit : Circuit :=
  [[ {| gate := OtherGate 0; qubits := [0%Z] |} ]].

(** A circuit with one operation, on the site 1. *)
Definition example_other_site_circuit : Circuit :=
  [[ {| gate := OtherGate 0; qubits := [1%Z] |} ]].

(** * Properties *)

(** ** Sums *)

Lemma foldl_Qcplus_shift (a : list Qc) (acc : Qc) :
  foldl Qcplus acc a = acc + foldl Qcplus 0 a.
Proof.
  revert acc. induction a as [|v a IH]; intros acc; simpl.
  - ring.
  - rewrite (IH (acc + v)), (IH (0 + v)). ring.
Qed.

Lemma np_sum_cons (v : Qc) (a : list Qc) : np_sum (v :: a) = v + np_sum a.
Proof. unfold np_sum. simpl. rewrite foldl_Qcplus_shift. ring. Qed.

Lemma big_sum_S_l (n : nat) (f : nat → Qc) :
  big_sum (S n) f = f O + big_sum n (λ i, f (S i)).
Proof.
  induction n as [|n IH].
  - simpl. ring.
  - change (big_sum (S (S n)) f) with (big_sum (S n) f + f (S n)).
    rewrite IH. simpl. ring.
Qed.

Lemma big_sum_zero (n : nat) (f : nat → Qc) :
  (∀ i, (i < n)%nat → f i = 0) → big_sum n f = 0.
Proof.
  induction n as [|n IH]; intros Hf; simpl; [reflexivity|].
  rewrite IH by (intros; apply Hf; lia).
  rewrite Hf by lia. ring.
Qed.

Lemma np_sum_big_sum (a : list Qc) : np_sum a = big_sum (length a) (entry a).
Proof.
  induction a as [|v a IH]; [reflexivity|].
  rewrite np_sum_cons, IH.
  change (length (v :: a)) with (S (length a)).
  rewrite big_sum_S_l. reflexivity.
Qed.

Lemma Qc_of_nat_nonzero (n : nat) : n ≠ O → Qc_of_nat n ≠ 0.
Proof.
  intros Hn H. unfold Qc_of_nat in H.
  rewrite <- Z2Qc_inj_0 in H. apply Z2Qc_inj in H. lia.
Qed.

(** ** The least-squares loop *)

Lemma lsq_numerator_cons (x y z : Qc) (m e u : list Qc) :
  lsq_numerator (x :: m) (y :: e) (z :: u)
  = (x - z) * (y - z) + lsq_numerator m e u.
Proof.
  unfold lsq_numerator.
  change (length (x :: m)) with (S (length m)).
  rewrite big_sum_S_l. reflexivity.
Qed.

Lemma lsq_denominator_cons (x y z : Qc) (m e u : list Qc) :
  lsq_denominator (x :: m) (y :: e) (z :: u)
  = square (y - z) + lsq_denominator m e u.
Proof.
  unfold lsq_denominator.
  change (length (x :: m)) with (S (length m)).
  rewrite big_sum_S_l. reflexivity.
Qed.

Lemma lsq_loop (m e u : list Qc) (num den : Qc) :
  length m = length e → length e = length u →
  foldl lsq_step (num, den) (zip3 m e u)
  = (num + lsq_numerator m e u, den + lsq_denominator m e u).
Proof.
  revert e u num den.
  induction m as [|x m IH]; intros [|y e] [|z u] num den Hme Heu;
    simplify_eq/=.
  - unfold lsq_numerator, lsq_denominator. simpl. f_equal; ring.
  - rewrite IH by assumption.
    rewrite lsq_numerator_cons, lsq_denominator_cons. f_equal; ring.
Qed.

Lemma zip3_length (m e u : list Qc) :
  length m = length e → length e = length u →
  length (zip3 m e u) = length m.
Proof.
  revert e u. induction m as [|x m IH]; intros [|y e] [|z u] Hme Heu;
    simplify_eq/=; [reflexivity|].
  f_equal. apply IH; assumption.
Qed.

Lemma zip3_lookup (m e u : list Qc) (U : nat) :
  length m = length e → length e = length u → (U < length m)%nat →
  zip3 m e u !! U = Some (entry m U, entry e U, entry u U).
Proof.
  revert e u U. induction m as [|x m IH]; intros [|y e] [|z u] U Hme Heu HU;
    simplify_eq/=; [lia|].
  destruct U as [|U]; [reflexivity|].
  unfold entry. simpl. apply IH; [assumption | assumption | lia].
Qed.

Lemma least_squares_unfold (m e u : list Qc) :
  length m = length e → length e = length u →
  least_squares_xeb_fidelity_from_expectations m e u
  = fidelity ← py_div (lsq_numerator m e u) (lsq_denominator m e u);
    mret (fidelity,
          map (λ '(m, e, u), fidelity * (e - u) - (m - u)) (zip3 m e u)).
Proof.
  intros Hme Heu. unfold least_squares_xeb_fidelity_from_expectations.
  rewrite !bool_decide_eq_true_2 by assumption. simpl.
  rewrite lsq_loop by assumption.
  replace (0 + lsq_numerator m e u) with (lsq_numerator m e u) by ring.
  replace (0 + lsq_denominator m e u) with (lsq_denominator m e u) by ring.
  reflexivity.
Qed.

(** C2: [least_squares_xeb_fidelity_from_expectations] raises [ValueError]
    whenever the three sequences do not all have the same length; on
    sequences of one length [n] with [Σ (e_U − u_U)² ≠ 0] it returns the
    fidelity [f = Σ (m_U − u_U)(e_U − u_U) / Σ (e_U − u_U)²] together with
    the list of the [n] residuals [f (e_U − u_U) − (m_U − u_U)]. *)
Theorem least_squares_contract (m e u : list Qc) :
  (¬ (length m = length e ∧ length e = length u) →
   least_squares_xeb_fidelity_from_expectations m e u = raise ValueError)
  ∧ (length m = length e → length e = length u →
     lsq_denominator m e u ≠ 0 →
     ∃ f residuals,
       least_squares_xeb_fidelity_from_expectations m e u = inr (f, residuals)
       ∧ f = lsq_numerator m e u / lsq_denominator m e u
       ∧ length residuals = length m
       ∧ ∀ U, (U < length m)%nat →
           residuals !! U
           = Some (f * (entry e U - entry u U) - (entry m U - entry u U))).
Proof.
  split.
  - intros Hlen. unfold least_squares_xeb_fidelity_from_expectations.
    destruct (decide (length m = length e)) as [Hme|Hme].
    + rewrite (bool_decide_eq_true_2 _ Hme).
      rewrite bool_decide_eq_false_2 by tauto. reflexivity.
    + rewrite (bool_decide_eq_false_2 _ Hme). reflexivity.
  - intros Hme Heu Hden.
    exists (lsq_numerator m e u / lsq_denominator m e u).
    eexists. rewrite least_squares_unfold by assumption.
    unfold py_div. rewrite decide_False by exact Hden. simpl.
    split; [reflexivity|]. split; [reflexivity|]. split.
    + rewrite length_map. apply zip3_length; assumption.
    + intros U HU. rewrite list_lookup_fmap.
      rewrite zip3_lookup by assumption. reflexivity.
Qed.

Lemma least_squares_contract_witness :
  ∃ f residuals,
    least_squares_xeb_fidelity_from_expectations
      [Q2Qc (1 # 2); Q2Qc (1 # 3)] [Q2Qc (3 # 4); Q2Qc (1 # 2)]
      [Q2Qc (1 # 4); Q2Qc (1 # 4)] = inr (f, residuals)
    ∧ f = Q2Qc (7 # 15) ∧ length residuals = 2%nat.
Proof.
  destruct (least_squares_contract
              [Q2Qc (1 # 2); Q2Qc (1 # 3)] [Q2Qc (3 # 4); Q2Qc (1 # 2)]
              [Q2Qc (1 # 4); Q2Qc (1 # 4)]) as [_ H].
  destruct H as (f & residuals & Hrun & Hf & Hlen & _);
    [reflexivity | reflexivity | |].
  - refine (bool_decide_unpack _ _). vm_compute. exact I.
  - exists f, residuals. split; [exact Hrun|]. split; [|exact Hlen].
    rewrite Hf. apply Qc_is_canon. vm_compute. reflexivity.
Defined.

(** ** The fitter on Python floats and numpy scalars *)

Lemma scalar_op_value (f : Qc → Qc → Qc) (a b : Scalar) :
  scalar_value (scalar_op f a b) = f (scalar_value a) (scalar_value b).
Proof. destruct a, b; reflexivity. Qed.

Lemma scalar_op_kind (f : Qc → Qc → Qc) (a b : Scalar) :
  is_PyFloat (scalar_op f a b) = is_PyFloat a && is_PyFloat b.
Proof. destruct a, b; reflexivity. Qed.

Lemma scalar_square_value (a : Scalar) :
  scalar_value (scalar_square a) = square (scalar_value a).
Proof. destruct a; reflexivity. Qed.

Lemma scalar_square_kind (a : Scalar) :
  is_PyFloat (scalar_square a) = is_PyFloat a.
Proof. destruct a; reflexivity. Qed.

Lemma scalar_truediv_cases (a b : Scalar) :
  scalar_truediv a b
  = if is_PyFloat a && is_PyFloat b
    then q ← py_div (scalar_value a) (scalar_value b); mret (Some q)
    else mret (np_div (scalar_value a) (scalar_value b)).
Proof. destruct a, b; reflexivity. Qed.

(** The accumulators of the loop: their values are those of the loop on
    the values, and each is a Python float exactly when it started as one
    and every number added to it was one. *)
Lemma scalar_lsq_loop (m e u : list Scalar) (num den : Scalar) :
  length m = length e → length e = length u →
  let acc := foldl scalar_lsq_step (num, den) (zip3 m e u) in
  scalar_value acc.1
  = scalar_value num
    + lsq_numerator (map scalar_value m) (map scalar_value e)
        (map scalar_value u)
  ∧ scalar_value acc.2
    = scalar_value den
      + lsq_denominator (map scalar_value m) (map scalar_value e)
          (map scalar_value u)
  ∧ is_PyFloat acc.1
    = is_PyFloat num && forallb is_PyFloat (m ++ e ++ u)
  ∧ is_PyFloat acc.2
    = is_PyFloat den && forallb is_PyFloat (e ++ u).
Proof.
  revert e u num den.
  induction m as [|x m IH]; intros [|y e] [|z u] num den Hme Heu;
    try discriminate Hme; try discriminate Heu.
  - simpl. unfold lsq_numerator, lsq_denominator. simpl.
    rewrite !andb_true_r. repeat split; ring.
  - injection Hme as Hme. injection Heu as Heu.
    change (foldl scalar_lsq_step (num, den)
              (zip3 (x :: m) (y :: e) (z :: u)))
      with (foldl scalar_lsq_step
              (scalar_op Qcplus num
                 (scalar_op Qcmult (scalar_op Qcminus x z)
                    (scalar_op Qcminus y z)),
               scalar_op Qcplus den
                 (scalar_square (scalar_op Qcminus y z)))
              (zip3 m e u)).
    cbn [map].
    destruct (IH e u
                (scalar_op Qcplus num
                   (scalar_op Qcmult (scalar_op Qcminus x z)
                      (scalar_op Qcminus y z)))
                (scalar_op Qcplus den
                   (scalar_square (scalar_op Qcminus y z)))
                Hme Heu) as (Hn & Hd & Hkn & Hkd).
    rewrite lsq_numerator_cons, lsq_denominator_cons.
    split; [|split; [|split]].
    + etransitivity; [exact Hn|]. rewrite !scalar_op_value. ring.
    + etransitivity; [exact Hd|].
      rewrite scalar_op_value, scalar_square_value, scalar_op_value. ring.
    + etransitivity; [exact Hkn|]. rewrite !scalar_op_kind.
      rewrite !forallb_app. cbn [forallb].
      destruct (is_PyFloat num), (is_PyFloat x), (is_PyFloat y),
        (is_PyFloat z), (forallb is_PyFloat m), (forallb is_PyFloat e),
        (forallb is_PyFloat u); reflexivity.
    + etransitivity; [exact Hkd|].
      rewrite scalar_op_kind, scalar_square_kind, scalar_op_kind.
      rewrite !forallb_app. cbn [forallb].
      destruct (is_PyFloat den), (is_PyFloat y), (is_PyFloat z),
        (forallb is_PyFloat e), (forallb is_PyFloat u); reflexivity.
Qed.

Lemma least_squares_scalars_unfold (m e u : list Scalar) :
  length m = length e → length e = length u →
  least_squares_xeb_fidelity_from_expectations_scalars m e u
  = fidelity ←
      (if forallb is_PyFloat (m ++ e ++ u)
       then q ← py_div (lsq_numerator (map scalar_value m)
                          (map scalar_value e) (map scalar_value u))
                       (lsq_denominator (map scalar_value m)
                          (map scalar_value e) (map scalar_value u));
            mret (Some q)
       else mret (np_div (lsq_numerator (map scalar_value m)
                            (map scalar_value e) (map scalar_value u))
                         (lsq_denominator (map scalar_value m)
                            (map scalar_value e) (map scalar_value u))));
    mret (fidelity,
          map (λ '(m, e, u),
                 fidelity ← fidelity;
                 Some (fidelity * (scalar_value e - scalar_value u)
                       - (scalar_value m - scalar_value u)))
              (zip3 m e u)).
Proof.
  intros Hme Heu.
  unfold least_squares_xeb_fidelity_from_expectations_scalars.
  rewrite !bool_decide_eq_true_2 by assumption. cbn [andb negb].
  destruct (scalar_lsq_loop m e u (PyFloat 0) (PyFloat 0) Hme Heu)
    as (Hn & Hd & Hkn & Hkd).
  destruct (foldl scalar_lsq_step (PyFloat 0, PyFloat 0) (zip3 m e u))
    as [numerator denominator].
  cbn [fst snd scalar_value is_PyFloat andb] in Hn, Hd, Hkn, Hkd.
  rewrite scalar_truediv_cases, Hkn, Hkd, Hn, Hd.
  replace (0 + lsq_numerator (map scalar_value m) (map scalar_value e)
                 (map scalar_value u))
    with (lsq_numerator (map scalar_value m) (map scalar_value e)
            (map scalar_value u)) by ring.
  replace (0 + lsq_denominator (map scalar_value m) (map scalar_value e)
                 (map scalar_value u))
    with (lsq_denominator (map scalar_value m) (map scalar_value e)
            (map scalar_value u)) by ring.
  rewrite !forallb_app.
  destruct (forallb is_PyFloat m), (forallb is_PyFloat e),
    (forallb is_PyFloat u); reflexivity.
Qed.

Lemma zip3_fmap {A B} (f : A → B) (m e u : list A) :
  zip3 (map f m) (map f e) (map f u)
  = map (λ '(x, y, z), (f x, f y, f z)) (zip3 m e u).
Proof.
  revert e u. induction m as [|x m IH]; intros [|y e] [|z u];
    try reflexivity.
  cbn [map zip3]. rewrite IH. reflexivity.
Qed.

(** On Python floats the fitter on scalars is the fitter on floats. *)
Lemma least_squares_scalars_python (m e u : list Qc) :
  least_squares_xeb_fidelity_from_expectations_scalars
    (map PyFloat m) (map PyFloat e) (map PyFloat u)
  = match least_squares_xeb_fidelity_from_expectations m e u with
    | inl exception => inl exception
    | inr (fidelity, residuals) => inr (Some fidelity, map Some residuals)
    end.
Proof.
  destruct (decide (length m = length e ∧ length e = length u))
    as [[Hme Heu]|Hne].
  - rewrite least_squares_scalars_unfold by (rewrite !length_map; assumption).
    rewrite least_squares_unfold by assumption.
    assert (Hpy : forallb is_PyFloat (map PyFloat m ++ map PyFloat e
                                      ++ map PyFloat u) = true).
    { rewrite !forallb_app, !andb_true_iff.
      repeat split; apply forallb_forall; intros x Hx;
        apply in_map_iff in Hx as (v & <- & _); reflexivity. }
    rewrite Hpy, <- !list_fmap_compose.
    assert (Hid : scalar_value ∘ PyFloat = id) by reflexivity.
    unfold fmap. rewrite Hid. rewrite !list_fmap_id.
    destruct (py_div (lsq_numerator m e u) (lsq_denominator m e u))
      as [exception|fidelity]; [reflexivity|].
    simpl. do 2 f_equal.
    rewrite zip3_fmap, <- !list_fmap_compose.
    apply map_ext. intros [[x y] z]. reflexivity.
  - unfold least_squares_xeb_fidelity_from_expectations_scalars,
      least_squares_xeb_fidelity_from_expectations.
    rewrite !length_map.
    destruct (bool_decide (length m = length e)
              && bool_decide (length e = length u)) eqn:Hlen;
      [|reflexivity].
    exfalso. apply Hne. apply andb_true_iff in Hlen as [H1 H2].
    split; eapply bool_decide_eq_true_1; eassumption.
Qed.

Lemma replicate_residuals (m e u : list Scalar) :
  length m = length e → length e = length u →
  map (λ '(m, e, u),
         fidelity ← (None : option Qc);
         Some (fidelity * (scalar_value e - scalar_value u)
               - (scalar_value m - scalar_value u)))
      (zip3 m e u)
  = replicate (length m) None.
Proof.
  revert e u. induction m as [|x m IH]; intros [|y e] [|z u] Hme Heu;
    try discriminate Hme; try discriminate Heu; [reflexivity|].
  injection Hme as Hme. injection Heu as Heu.
  cbn [zip3 map length replicate]. rewrite IH by assumption. reflexivity.
Qed.

(** C9: on sequences of one length with [Σ (e_U − u_U)² = 0], in particular
    whenever [e_U = u_U] for every circuit, the fidelity division raises
    [ZeroDivisionError] when every number is a Python float, as on three
    empty sequences; as soon as one number is a numpy scalar the division is
    numpy's, and the function returns the fidelity nan and residuals that
    are all nan.  The function raises in no other case, and never the
    [ValueError] of the length check. *)
Theorem least_squares_zero_division (m e u : list Scalar) :
  length m = length e → length e = length u →
  let denominator :=
    lsq_denominator (map scalar_value m) (map scalar_value e)
      (map scalar_value u) in
  (denominator = 0 → forallb is_PyFloat (m ++ e ++ u) = true →
   least_squares_xeb_fidelity_from_expectations_scalars m e u
   = raise ZeroDivisionError)
  ∧ (denominator = 0 → forallb is_PyFloat (m ++ e ++ u) = false →
     least_squares_xeb_fidelity_from_expectations_scalars m e u
     = inr (None, replicate (length m) None))
  ∧ (m = [] →
     least_squares_xeb_fidelity_from_expectations_scalars m e u
     = raise ZeroDivisionError)
  ∧ ((∀ U, (U < length m)%nat →
        scalar_value <$> e !! U = scalar_value <$> u !! U) →
     denominator = 0)
  ∧ (∀ exception,
       least_squares_xeb_fidelity_from_expectations_scalars m e u
       = inl exception →
       exception = ZeroDivisionError ∧ denominator = 0
       ∧ forallb is_PyFloat (m ++ e ++ u) = true).
Proof.
  intros Hme Heu denominator.
  rewrite least_squares_scalars_unfold by assumption. fold denominator.
  assert (Hzero : denominator = 0 →
                  forallb is_PyFloat (m ++ e ++ u) = true →
                  (fidelity ←
                     (if forallb is_PyFloat (m ++ e ++ u)
                      then q ← py_div (lsq_numerator (map scalar_value m)
                                         (map scalar_value e)
                                         (map scalar_value u)) denominator;
                           mret (Some q)
                      else mret (np_div (lsq_numerator (map scalar_value m)
                                           (map scalar_value e)
                                           (map scalar_value u)) denominator));
                   mret (fidelity,
                         map (λ '(m, e, u),
                                fidelity ← fidelity;
                                Some (fidelity
                                      * (scalar_value e - scalar_value u)
                                      - (scalar_value m - scalar_value u)))
                             (zip3 m e u)))
                  = (raise ZeroDivisionError
                     : result (option Qc * list (option Qc)))).
  { intros Hden Hpy. rewrite Hpy. unfold py_div.
    rewrite decide_True by exact Hden. reflexivity. }
  split; [exact Hzero|]. split; [|split; [|split]].
  - intros Hden Hnp. rewrite Hnp. unfold np_div.
    rewrite decide_True by exact Hden. simpl.
    rewrite replicate_residuals by assumption. reflexivity.
  - intros ->. destruct e; [|discriminate Hme]. destruct u; [|discriminate Heu].
    apply Hzero; reflexivity.
  - intros Heq. unfold denominator, lsq_denominator.
    apply big_sum_zero. intros U HU. rewrite length_map in HU.
    specialize (Heq U HU). unfold entry.
    destruct (lookup_lt_is_Some_2 e U ltac:(lia)) as [y Hy].
    destruct (lookup_lt_is_Some_2 u U ltac:(lia)) as [z Hz].
    rewrite Hy, Hz in Heq. injection Heq as Heq.
    assert (Hey : nth U (map scalar_value e) 0 = scalar_value y).
    { apply nth_lookup_Some. rewrite list_lookup_fmap, Hy. reflexivity. }
    assert (Huz : nth U (map scalar_value u) 0 = scalar_value z).
    { apply nth_lookup_Some. rewrite list_lookup_fmap, Hz. reflexivity. }
    rewrite Hey, Huz, Heq. unfold square. ring.
  - intros exception Hrun.
    destruct (forallb is_PyFloat (m ++ e ++ u)); [|discriminate Hrun].
    unfold py_div in Hrun.
    destruct (decide (denominator = 0)) as [Hden|Hden];
      [|discriminate Hrun].
    injection Hrun as <-. repeat split. exact Hden.
Qed.

Lemma least_squares_zero_division_witness :
  least_squares_xeb_fidelity_from_expectations_scalars [] [] []
  = raise ZeroDivisionError
  ∧ least_squares_xeb_fidelity_from_expectations_scalars
      [PyFloat (Q2Qc (1 # 2)); PyFloat (Q2Qc (1 # 3))]
      [PyFloat (Q2Qc (1 # 4)); PyFloat (Q2Qc (1 # 5))]
      [PyFloat (Q2Qc (1 # 4)); PyFloat (Q2Qc (1 # 5))]
    = raise ZeroDivisionError
  ∧ least_squares_xeb_fidelity_from_expectations_scalars
      [PyFloat (Q2Qc (1 # 2)); NpFloat64 (Q2Qc (1 # 3))]
      [PyFloat (Q2Qc (1 # 4)); PyFloat (Q2Qc (1 # 5))]
      [PyFloat (Q2Qc (1 # 4)); PyFloat (Q2Qc (1 # 5))]
    = inr (None, replicate 2 None).
Proof.
  split; [|split].
  - refine (proj1 (proj2 (proj2
              (least_squares_zero_division [] [] [] eq_refl eq_refl))) _).
    reflexivity.
  - refine (proj1 (least_squares_zero_division
                     [PyFloat (Q2Qc (1 # 2)); PyFloat (Q2Qc (1 # 3))]
                     [PyFloat (Q2Qc (1 # 4)); PyFloat (Q2Qc (1 # 5))]
                     [PyFloat (Q2Qc (1 # 4)); PyFloat (Q2Qc (1 # 5))]
                     eq_refl eq_refl) _ _).
    + apply Qc_is_canon. vm_compute. reflexivity.
    + reflexivity.
  - refine (proj1 (proj2 (least_squares_zero_division
                     [PyFloat (Q2Qc (1 # 2)); NpFloat64 (Q2Qc (1 # 3))]
                     [PyFloat (Q2Qc (1 # 4)); PyFloat (Q2Qc (1 # 5))]
                     [PyFloat (Q2Qc (1 # 4)); PyFloat (Q2Qc (1 # 5))]
                     eq_refl eq_refl)) _ _).
    + apply Qc_is_canon. vm_compute. reflexivity.
    + reflexivity.
Defined.

(** On numpy scalars with [e_U = u_U] for every circuit, as the fitter on
    probabilities passes them, the function raises nothing: it returns the
    fidelity nan and two residuals nan. *)
Lemma least_squares_zero_division_counterexample :
  length [NpFloat64 (Q2Qc (1 # 2)); NpFloat64 (Q2Qc (1 # 3))]
  = length [NpFloat64 (Q2Qc (1 # 4)); NpFloat64 (Q2Qc (1 # 5))]
  ∧ lsq_denominator
      (map scalar_value [NpFloat64 (Q2Qc (1 # 2)); NpFloat64 (Q2Qc (1 # 3))])
      (map scalar_value [NpFloat64 (Q2Qc (1 # 4)); NpFloat64 (Q2Qc (1 # 5))])
      (map scalar_value [NpFloat64 (Q2Qc (1 # 4)); NpFloat64 (Q2Qc (1 # 5))])
    = 0
  ∧ least_squares_xeb_fidelity_from_expectations_scalars
      [NpFloat64 (Q2Qc (1 # 2)); NpFloat64 (Q2Qc (1 # 3))]
      [NpFloat64 (Q2Qc (1 # 4)); NpFloat64 (Q2Qc (1 # 5))]
      [NpFloat64 (Q2Qc (1 # 4)); NpFloat64 (Q2Qc (1 # 5))]
    = inr (None, [None; None])
  ∧ least_squares_xeb_fidelity_from_expectations_scalars
      [NpFloat64 (Q2Qc (1 # 2)); NpFloat64 (Q2Qc (1 # 3))]
      [NpFloat64 (Q2Qc (1 # 4)); NpFloat64 (Q2Qc (1 # 5))]
      [NpFloat64 (Q2Qc (1 # 4)); NpFloat64 (Q2Qc (1 # 5))]
    ≠ raise ZeroDivisionError.
Proof.
  split; [reflexivity|].
  split; [apply Qc_is_canon; vm_compute; reflexivity|].
  split; [vm_compute; reflexivity|].
  vm_compute. discriminate.
Qed.

(** C8: for every dimension [D] and every non-empty sequence of
    probabilities [p_1 .. p_M], [linear_xeb_fidelity_from_probabilities]
    returns [D · mean(p) − 1], where [mean(p) = (Σ p_i) / M]. *)
Theorem linear_xeb_fidelity_from_probabilities_spec (D : Z) (p : list Qc) :
  p ≠ [] →
  linear_xeb_fidelity_from_probabilities D p
  = Some (Qc_of_Z D * (big_sum (length p) (entry p) / Qc_of_nat (length p)) - 1).
Proof.
  intros Hp. unfold linear_xeb_fidelity_from_probabilities, np_mean, np_div.
  rewrite decide_False.
  - simpl. rewrite np_sum_big_sum. reflexivity.
  - apply Qc_of_nat_nonzero. destruct p; [congruence | discriminate].
Qed.

Lemma linear_xeb_fidelity_from_probabilities_spec_witness :
  linear_xeb_fidelity_from_probabilities 4 [Q2Qc (1 # 2); Q2Qc (1 # 4)]
  = Some (Qc_of_Z 4 * (big_sum 2 (entry [Q2Qc (1 # 2); Q2Qc (1 # 4)])
                       / Qc_of_nat 2) - 1).
Proof.
  apply (linear_xeb_fidelity_from_probabilities_spec
           4 [Q2Qc (1 # 2); Q2Qc (1 # 4)]).
  discriminate.
Defined.

(** ** The initial simplex *)

(** The vertex reached from [x0] by a step [s] along the [i]-th axis. *)
Lemma simplex_vertex_lookup (x0 : list Qc) (s : Qc) (i j : nat) :
  (j < length x0)%nat →
  array_add x0 (array_scale s (np_eye_row (length x0) i)) !! j
  = Some (entry x0 j + (if bool_decide (j = i) then s else 0)).
Proof.
  intros Hj. unfold array_add, array_scale, np_eye_row.
  rewrite lookup_zip_with, !list_lookup_fmap, lookup_seq_lt by exact Hj.
  destruct (lookup_lt_is_Some_2 x0 j Hj) as [v Hv].
  rewrite Hv. simpl. unfold entry. rewrite (nth_lookup_Some _ _ _ _ Hv).
  f_equal. f_equal. case_bool_decide; ring.
Qed.

Lemma simplex_vertex_length (x0 : list Qc) (s : Qc) (i : nat) :
  length (array_add x0 (array_scale s (np_eye_row (length x0) i)))
  = length x0.
Proof.
  unfold array_add, array_scale, np_eye_row.
  rewrite length_zip_with, !length_map, length_seq. lia.
Qed.

Lemma get_initial_simplex_and_names_unfold
    (self : XEBPhasedFSimCharacterizationOptions) (s : Qc) :
  let x0 := map snd (enabled_angles self) in
  get_initial_simplex_and_names self s
  = ([x0] ++ map (λ i, array_add x0 (array_scale s (np_eye_row (length x0) i)))
                 (seq 0 (length x0)),
     map (λ a, a.1.2) (enabled_angles self)).
Proof.
  destruct self as [[] [] [] [] [] t z c g p]; reflexivity.
Qed.

(** C7: [get_initial_simplex_and_names] returns the names of the enabled
    angles in the canonical order (theta, zeta, chi, gamma, phi) and a
    simplex of [n + 1] vertices of [n] coordinates, [n] the number of enabled
    angles: vertex 0 holds the default values of the enabled angles, and
    vertex [i] ([i = 1 .. n]) is vertex 0 with the step size added to its
    [i]-th coordinate.  With the five flags set the shape is (6, 5) and the
    names are the five names in order. *)
Theorem get_initial_simplex_and_names_spec
    (self : XEBPhasedFSimCharacterizationOptions) (s : Qc) :
  let simplex := (get_initial_simplex_and_names self s).1 in
  let names := (get_initial_simplex_and_names self s).2 in
  let n := length (enabled_angles self) in
  let x0 := map snd (enabled_angles self) in
  names = map (λ a, a.1.2) (enabled_angles self)
  ∧ length simplex = S n
  ∧ Forall (λ vertex, length vertex = n) simplex
  ∧ simplex !! O = Some x0
  ∧ (∀ i j, (i < n)%nat → (j < n)%nat →
       simplex !! S i ≫= (λ vertex, vertex !! j)
       = Some (entry x0 j + (if bool_decide (j = i) then s else 0)))
  ∧ (characterize_theta self = true → characterize_zeta self = true →
     characterize_chi self = true → characterize_gamma self = true →
     characterize_phi self = true →
     length simplex = 6%nat
     ∧ Forall (λ vertex, length vertex = 5%nat) simplex
     ∧ names = ["theta"; "zeta"; "chi"; "gamma"; "phi"]%string).
Proof.
  intros simplex names n x0.
  assert (Hn : length x0 = n) by (unfold x0, n; apply length_map).
  assert (Hs : simplex
               = [x0] ++ map (λ i, array_add x0
                                     (array_scale s (np_eye_row (length x0) i)))
                             (seq 0 (length x0))).
  { unfold simplex. rewrite get_initial_simplex_and_names_unfold. reflexivity. }
  assert (Hnames : names = map (λ a, a.1.2) (enabled_angles self)).
  { unfold names. rewrite get_initial_simplex_and_names_unfold. reflexivity. }
  assert (Hlen : length simplex = S n).
  { rewrite Hs, length_app, length_map, length_seq, Hn. reflexivity. }
  assert (Hrows : Forall (λ vertex, length vertex = n) simplex).
  { rewrite Hs. apply Forall_app. split.
    - constructor; [exact Hn | constructor].
    - apply Forall_forall. intros vertex Hin.
      apply list_elem_of_fmap in Hin as (i & -> & _).
      rewrite simplex_vertex_length. exact Hn. }
  split; [exact Hnames|]. split; [exact Hlen|]. split; [exact Hrows|].
  split; [rewrite Hs; reflexivity|]. split.
  - intros i j Hi Hj. rewrite Hs. simpl.
    rewrite list_lookup_fmap, lookup_seq_lt by lia. simpl.
    apply simplex_vertex_lookup. lia.
  - intros Ht Hz Hc Hg Hp.
    assert (Hn5 : n = 5%nat).
    { unfold n, enabled_angles, canonical_angles.
      rewrite Ht, Hz, Hc, Hg, Hp. reflexivity. }
    rewrite <- Hn5. split; [rewrite Hlen; reflexivity|].
    split; [exact Hrows|].
    rewrite Hnames. unfold enabled_angles, canonical_angles.
    rewrite Ht, Hz, Hc, Hg, Hp. reflexivity.
Qed.

Lemma get_initial_simplex_and_names_spec_witness :
  let self := {| characterize_theta := true; characterize_zeta := true;
                 characterize_chi := true; characterize_gamma := true;
                 characterize_phi := true;
                 theta_default := - Q2Qc (1 # 4); zeta_default := 0;
                 chi_default := 0; gamma_default := 0; phi_default := 0 |} in
  length (get_initial_simplex_and_names self (Q2Qc (1 # 10))).1 = 6%nat
  ∧ Forall (λ vertex, length vertex = 5%nat)
           (get_initial_simplex_and_names self (Q2Qc (1 # 10))).1
  ∧ (get_initial_simplex_and_names self (Q2Qc (1 # 10))).2
    = ["theta"; "zeta"; "chi"; "gamma"; "phi"]%string.
Proof.
  intros self.
  apply (get_initial_simplex_and_names_spec self (Q2Qc (1 # 10)));
    reflexivity.
Defined.

(** ** Sorted sets *)

Lemma sorted_Permutation (s : gset Z) : sorted s ≡ₚ elements s.
Proof. apply merge_sort_Permutation. Qed.

Lemma sorted_length (s : gset Z) : length (sorted s) = size s.
Proof. rewrite sorted_Permutation. reflexivity. Qed.

Lemma sorted_elem_of (s : gset Z) (v : Z) : v ∈ sorted s ↔ v ∈ s.
Proof. rewrite sorted_Permutation. apply elem_of_elements. Qed.

Lemma sorted_NoDup (s : gset Z) : NoDup (sorted s).
Proof. rewrite sorted_Permutation. apply NoDup_elements. Qed.

Lemma sorted_Sorted (s : gset Z) : Sorted Z.le (sorted s).
Proof. apply (Sorted_merge_sort Z.le). Qed.

(** A set of two integers, sorted. *)
Lemma sorted_pair (s : gset Z) (q0 q1 : Z) :
  sorted s = [q0; q1] ↔ (q0 < q1)%Z ∧ s = {[q0; q1]}.
Proof.
  split.
  - intros Hs.
    pose proof (sorted_NoDup s) as Hnd.
    pose proof (sorted_Sorted s) as Hso.
    rewrite Hs in Hnd, Hso. split.
    + apply Sorted_inv in Hso as [_ Hhd]. apply HdRel_inv in Hhd.
      apply NoDup_cons in Hnd as [Hnotin _].
      rewrite list_elem_of_singleton in Hnotin. lia.
    + apply set_eq. intros v. rewrite <- sorted_elem_of, Hs.
      rewrite elem_of_union, !elem_of_singleton.
      rewrite elem_of_cons, list_elem_of_singleton. reflexivity.
  - intros [Hlt ->].
    pose proof (sorted_NoDup {[q0; q1]}) as Hnd.
    pose proof (sorted_Sorted {[q0; q1]}) as Hso.
    pose proof (sorted_length {[q0; q1]}) as Hlen.
    rewrite size_union, !size_singleton in Hlen
      by (apply disjoint_singleton_l; rewrite elem_of_singleton; lia).
    destruct (sorted {[q0; q1]}) as [|a [|b [|c l]]] eqn:Hs; simplify_eq/=.
    assert (Ha : a ∈ ({[q0; q1]} : gset Z))
      by (apply sorted_elem_of; rewrite Hs; do 1 constructor).
    assert (Hb : b ∈ ({[q0; q1]} : gset Z))
      by (apply sorted_elem_of; rewrite Hs; do 2 constructor).
    apply elem_of_union in Ha. apply elem_of_union in Hb.
    rewrite !elem_of_singleton in Ha, Hb.
    apply Sorted_inv in Hso as [_ Hhd]. apply HdRel_inv in Hhd.
    apply NoDup_cons in Hnd as [Hnotin _].
    rewrite list_elem_of_singleton in Hnotin.
    f_equal; [|f_equal]; lia.
Qed.

(** ** The two-site verification *)

Lemma verify_unfold (circuits : list Circuit) :
  _verify_and_get_two_qubits_from_circuits circuits
  = if bool_decide (size (library_qubits circuits) = 2%nat)
    then mret (sorted (library_qubits circuits))
    else raise ValueError.
Proof.
  unfold _verify_and_get_two_qubits_from_circuits. fold (library_qubits circuits).
  rewrite (left_id_L ∅ (∪)), sorted_length.
  case_bool_decide; reflexivity.
Qed.

Lemma all_qubits_library (circuits : list Circuit) (circuit : Circuit) :
  circuit ∈ circuits → all_qubits circuit ⊆ library_qubits circuits.
Proof.
  intros Hin v Hv. unfold library_qubits. apply elem_of_union_list.
  exists (all_qubits circuit). split; [|exact Hv].
  apply list_elem_of_fmap. exists circuit. split; [reflexivity | exact Hin].
Qed.

Lemma size_two_sorted (s : gset Z) :
  size s = 2%nat → ∃ q0 q1, sorted s = [q0; q1].
Proof.
  intros Hsize. rewrite <- sorted_length in Hsize.
  destruct (sorted s) as [|q0 [|q1 [|q2 l]]]; simplify_eq/=. eauto.
Qed.

(** C6 (amended): the scheduler proceeds if and only if the union of the
    sites of all circuits of the library has exactly two elements.  It then
    works with these two sites in increasing order, and every circuit is
    confined to this pair; otherwise the verification, and with it
    [sample_2q_xeb_circuits], fails with [ValueError] whatever the sampler,
    the cycle depths and the batch size are. *)
Theorem verify_two_qubits_spec (circuits : list Circuit) :
  (size (library_qubits circuits) = 2%nat →
   ∃ q0 q1, (q0 < q1)%Z
     ∧ library_qubits circuits = {[q0; q1]}
     ∧ _verify_and_get_two_qubits_from_circuits circuits = inr [q0; q1]
     ∧ ∀ circuit, circuit ∈ circuits → all_qubits circuit ⊆ {[q0; q1]})
  ∧ (size (library_qubits circuits) ≠ 2%nat →
     _verify_and_get_two_qubits_from_circuits circuits = raise ValueError
     ∧ ∀ run_batch as_completed cycle_depths repetitions batch_size,
         sample_2q_xeb_circuits run_batch as_completed circuits cycle_depths
           repetitions batch_size = raise ValueError).
Proof.
  split.
  - intros Hsize. destruct (size_two_sorted _ Hsize) as (q0 & q1 & Hs).
    exists q0, q1. apply sorted_pair in Hs as Hpair. destruct Hpair as [Hlt Heq].
    split; [exact Hlt|]. split; [exact Heq|]. split.
    + rewrite verify_unfold, bool_decide_eq_true_2 by exact Hsize.
      rewrite Hs. reflexivity.
    + intros circuit Hin. rewrite <- Heq. apply all_qubits_library, Hin.
  - intros Hsize.
    assert (Hv : _verify_and_get_two_qubits_from_circuits circuits
                 = raise ValueError).
    { rewrite verify_unfold, bool_decide_eq_false_2 by exact Hsize. reflexivity. }
    split; [exact Hv|]. intros. unfold sample_2q_xeb_circuits.
    rewrite Hv. reflexivity.
Qed.

Lemma verify_two_qubits_spec_witness :
  (∃ q0 q1, (q0 < q1)%Z
     ∧ library_qubits example_library = {[q0; q1]}
     ∧ _verify_and_get_two_qubits_from_circuits example_library = inr [q0; q1]
     ∧ ∀ circuit, circuit ∈ example_library → all_qubits circuit ⊆ {[q0; q1]})
  ∧ _verify_and_get_two_qubits_from_circuits [] = raise ValueError.
Proof.
  split.
  - apply (verify_two_qubits_spec example_library). vm_compute. reflexivity.
  - apply (verify_two_qubits_spec []). vm_compute. discriminate.
Defined.

(** C6, as stated, fails.  (1) A library whose only circuit acts on a single
    site is confined to a common pair of sites, yet the verification raises
    [ValueError]: proceeding is not equivalent to confinement.  (2) A library
    of two circuits that act on one site each, the sites being different,
    passes the verification although no circuit of it acts on two sites. *)
Lemma verify_two_qubits_counterexample :
  ¬ (∀ circuits : list Circuit,
       (∃ qs, _verify_and_get_two_qubits_from_circuits circuits = inr qs)
       ↔ confined_to_common_pair circuits)
  ∧ (_verify_and_get_two_qubits_from_circuits
       [example_one_site_circuit; example_other_site_circuit] = inr [0%Z; 1%Z]
     ∧ size (all_qubits example_one_site_circuit) = 1%nat
     ∧ size (all_qubits example_other_site_circuit) = 1%nat).
Proof.
  split.
  - intros Hiff.
    destruct (proj2 (Hiff [example_one_site_circuit])) as [qs Hqs].
    + exists 0%Z, 1%Z. split; [lia|].
      intros circuit Hin. apply list_elem_of_singleton in Hin as ->.
      refine (bool_decide_unpack _ _). vm_compute. exact I.
    + vm_compute in Hqs. discriminate Hqs.
  - split; [|split]; vm_compute; reflexivity.
Qed.

(** ** Loops *)

Lemma for_each_cases {A B} (body : list B → A → result (list B))
    (ok : A → bool) (G : A → list B) (e : exn) (xs : list A) (s : list B) :
  (∀ s x, body s x = if ok x then inr (s ++ G x) else inl e) →
  for_each body xs s
  = if forallb ok xs then inr (s ++ flat_map G xs) else inl e.
Proof.
  intros Hbody. revert s. induction xs as [|v xs IH]; intros s; simpl.
  - rewrite app_nil_r. reflexivity.
  - rewrite Hbody. destruct (ok v); simpl; [|reflexivity].
    rewrite IH. destruct (forallb ok xs); [|reflexivity].
    rewrite <- app_assoc. reflexivity.
Qed.

Lemma flat_map_singleton {A B} (g : A → B) (xs : list A) :
  flat_map (λ v, [g v]) xs = map g xs.
Proof. induction xs as [|v xs IH]; simpl; [|rewrite IH]; reflexivity. Qed.

Lemma flat_map_ext_in {A B} (f g : A → list B) (xs : list A) :
  (∀ v, v ∈ xs → f v = g v) → flat_map f xs = flat_map g xs.
Proof.
  induction xs as [|v xs IH]; intros Hfg; simpl; [reflexivity|].
  rewrite Hfg by constructor.
  rewrite IH by (intros; apply Hfg; constructor; assumption). reflexivity.
Qed.

Lemma map_ext_elem_of {A B} (f g : A → B) (xs : list A) :
  (∀ v, v ∈ xs → f v = g v) → map f xs = map g xs.
Proof.
  induction xs as [|v xs IH]; intros Hfg; simpl; [reflexivity|].
  rewrite Hfg by constructor.
  rewrite IH by (intros; apply Hfg; constructor; assumption). reflexivity.
Qed.

Lemma enumerate_elem_of {A} (xs : list A) (i : nat) (v : A) :
  (i, v) ∈ enumerate xs → v ∈ xs.
Proof.
  unfold enumerate. intros Hin.
  apply list_elem_of_lookup in Hin as [k Hk].
  apply lookup_zip_with_Some in Hk as (a & b & Heq & _ & Hb).
  simplify_eq. eapply list_elem_of_lookup_2, Hb.
Qed.

Lemma enumerate_fst {A} (xs : list A) :
  map fst (enumerate xs) = seq 0 (length xs).
Proof. unfold enumerate. apply fst_zip. rewrite length_seq. lia. Qed.

(** ** Slices and ranges *)

Lemma py_slice_window {A} (i w : Z) (xs : list A) :
  (0 ≤ i)%Z → (0 ≤ w)%Z →
  py_slice i (i + w) xs = take (Z.to_nat w) (drop (Z.to_nat i) xs).
Proof.
  intros Hi Hw. unfold py_slice, slice_index.
  rewrite !bool_decide_eq_false_2 by lia.
  destruct (decide (i ≤ Z.of_nat (length xs))%Z) as [Hle|Hgt].
  - rewrite (Z.min_r _ i) by lia.
    destruct (decide (i + w ≤ Z.of_nat (length xs))%Z).
    + rewrite Z.min_r by lia. f_equal. f_equal. lia.
    + rewrite Z.min_l by lia.
      rewrite !take_ge; [reflexivity | |]; rewrite length_drop; lia.
  - rewrite !Z.min_l by lia. rewrite Z.sub_diag. simpl.
    rewrite (drop_ge xs (Z.to_nat i)) by lia. rewrite take_nil. reflexivity.
Qed.

Lemma circuit_prefix_take (circuit : Circuit) (k : Z) :
  (0 ≤ k)%Z → circuit_prefix circuit k = take (Z.to_nat k) circuit.
Proof.
  intros Hk. unfold circuit_prefix.
  replace k with (0 + k)%Z at 1 by lia.
  rewrite py_slice_window by lia. reflexivity.
Qed.

Lemma py_range_batches (n step : Z) :
  (0 ≤ n)%Z → (0 < step)%Z →
  ∃ count : nat,
    py_range 0 n step
    = inr (map (λ k, (Z.of_nat k * step)%Z) (seq 0 count))
    ∧ (n ≤ Z.of_nat count * step)%Z.
Proof.
  intros Hn Hstep. unfold py_range.
  rewrite bool_decide_eq_false_2 by lia.
  rewrite bool_decide_eq_true_2 by lia.
  exists (Z.to_nat ((n - 0 + step - 1) `div` step)). split.
  - reflexivity.
  - rewrite Z2Nat.id by (apply Z.div_pos; lia).
    pose proof (Z.mul_succ_div_gt (n - 0 + step - 1) step Hstep). lia.
Qed.

Lemma chunks_concat {A} (b count : nat) (xs : list A) :
  (length xs ≤ count * b)%nat →
  concat (map (λ k, take b (drop (k * b) xs)) (seq 0 count)) = xs.
Proof.
  revert xs. induction count as [|count IH]; intros xs Hlen.
  - destruct xs; [reflexivity | simpl in Hlen; lia].
  - simpl. rewrite <- fmap_S_seq, <- list_fmap_compose.
    rewrite drop_0.
    rewrite (map_ext_elem_of _ (λ k, take b (drop (k * b) (drop b xs)))).
    + rewrite IH by (rewrite length_drop; lia). apply take_drop.
    + intros k _. simpl. rewrite drop_drop. reflexivity.
Qed.

Lemma concat_Permutation {A} (xss yss : list (list A)) :
  xss ≡ₚ yss → concat xss ≡ₚ concat yss.
Proof.
  induction 1 as [|xs xss yss _ IH|xs ys xss|xss yss zss _ IH1 _ IH2]; simpl.
  - reflexivity.
  - rewrite IH. reflexivity.
  - rewrite !app_assoc. apply Permutation_app_tail, Permutation_app_comm.
  - etransitivity; eassumption.
Qed.

(** ** The sampling scheduler *)

Lemma enumerate_elem_of_2 {A} (xs : list A) (v : A) :
  v ∈ xs → ∃ i, (i, v) ∈ enumerate xs.
Proof.
  intros Hin. apply list_elem_of_lookup in Hin as [i Hi].
  exists i. unfold enumerate. apply list_elem_of_lookup. exists i.
  apply lookup_zip_with_Some. exists i, v.
  split; [reflexivity|]. split; [|exact Hi].
  apply lookup_seq. split; [reflexivity|]. eapply lookup_lt_Some, Hi.
Qed.

Lemma sample_2q_xeb_tasks_cases (q0 q1 : Z) (circuits : list Circuit)
    (cycle_depths : list Z) :
  sample_2q_xeb_tasks q0 q1 circuits cycle_depths
  = if forallb (λ d, forallb (λ ic : nat * Circuit,
                       bool_decide (d * 2 + 1 ≤ Z.of_nat (length ic.2))%Z)
                     (enumerate circuits)) cycle_depths
    then inr (flat_map (λ d, flat_map (λ ic : nat * Circuit,
                [{| task_cycle_depth := d;
                    task_circuit_i := ic.1;
                    prepared_circuit :=
                      circuit_add (circuit_prefix ic.2 (d * 2 + 1))
                                  (measure q0 q1) |}])
                (enumerate circuits)) cycle_depths)
    else inl AssertionError.
Proof.
  unfold sample_2q_xeb_tasks.
  rewrite (for_each_cases _
             (λ d, forallb (λ ic : nat * Circuit,
                      bool_decide (d * 2 + 1 ≤ Z.of_nat (length ic.2))%Z)
                    (enumerate circuits))
             (λ d, flat_map (λ ic : nat * Circuit,
                [{| task_cycle_depth := d;
                    task_circuit_i := ic.1;
                    prepared_circuit :=
                      circuit_add (circuit_prefix ic.2 (d * 2 + 1))
                                  (measure q0 q1) |}])
                (enumerate circuits))
             AssertionError).
  - reflexivity.
  - intros tasks d. apply for_each_cases.
    intros tasks' [i circuit]. simpl.
    case_bool_decide; reflexivity.
Qed.

Lemma sample_2q_xeb_tasks_assert (q0 q1 : Z) (circuits : list Circuit)
    (cycle_depths : list Z) :
  (∃ d circuit, d ∈ cycle_depths ∧ circuit ∈ circuits
                ∧ (2 * d + 1 > Z.of_nat (length circuit))%Z) →
  sample_2q_xeb_tasks q0 q1 circuits cycle_depths = raise AssertionError.
Proof.
  intros (d & circuit & Hd & Hc & Hlong).
  rewrite sample_2q_xeb_tasks_cases.
  destruct (forallb _ cycle_depths) eqn:Hall; [|reflexivity].
  exfalso. rewrite forallb_forall in Hall.
  specialize (Hall d (proj1 (list_elem_of_In _ _) Hd)).
  rewrite forallb_forall in Hall.
  destruct (enumerate_elem_of_2 circuits circuit Hc) as [i Hi].
  specialize (Hall (i, circuit) (proj1 (list_elem_of_In _ _) Hi)).
  apply bool_decide_eq_true_1 in Hall. simpl in Hall. lia.
Qed.

Lemma sample_2q_xeb_tasks_fit (q0 q1 : Z) (circuits : list Circuit)
    (cycle_depths : list Z) :
  (∀ d circuit, d ∈ cycle_depths → circuit ∈ circuits →
     (0 ≤ d)%Z ∧ (2 * d + 1 ≤ Z.of_nat (length circuit))%Z) →
  sample_2q_xeb_tasks q0 q1 circuits cycle_depths
  = inr (expected_sample_tasks q0 q1 circuits cycle_depths).
Proof.
  intros Hfit. rewrite sample_2q_xeb_tasks_cases.
  destruct (forallb _ cycle_depths) eqn:Hall.
  - f_equal. unfold expected_sample_tasks.
    apply flat_map_ext_in. intros d Hd.
    rewrite flat_map_singleton.
    apply map_ext_elem_of. intros [i circuit] Hic. simpl.
    destruct (Hfit d circuit Hd (enumerate_elem_of _ _ _ Hic)) as [Hd0 _].
    unfold circuit_add. rewrite circuit_prefix_take by lia.
    do 3 f_equal. lia.
  - exfalso. apply not_true_iff_false in Hall. apply Hall.
    apply forallb_forall. intros d Hd. apply list_elem_of_In in Hd.
    apply forallb_forall. intros [i circuit] Hic. apply list_elem_of_In in Hic.
    apply bool_decide_eq_true_2. simpl.
    destruct (Hfit d circuit Hd (enumerate_elem_of _ _ _ Hic)). lia.
Qed.

Lemma expected_sample_tasks_keys (q0 q1 : Z) (circuits : list Circuit)
    (cycle_depths : list Z) :
  map task_key (expected_sample_tasks q0 q1 circuits cycle_depths)
  = schedule_keys (length circuits) cycle_depths.
Proof.
  unfold expected_sample_tasks, schedule_keys.
  induction cycle_depths as [|d ds IH]; [reflexivity|].
  simpl. rewrite map_app, IH. f_equal.
  rewrite <- enumerate_fst, <- !list_fmap_compose.
  apply map_ext_elem_of. intros [i circuit] _. reflexivity.
Qed.

Lemma schedule_keys_length (n : nat) (cycle_depths : list Z) :
  length (schedule_keys n cycle_depths) = (n * length cycle_depths)%nat.
Proof.
  unfold schedule_keys. induction cycle_depths as [|d ds IH]; simpl; [lia|].
  rewrite length_app, length_map, length_seq, IH. lia.
Qed.

Lemma batches_concat {A} (tasks : list A) (batch_size : Z) :
  (0 < batch_size)%Z →
  ∃ starts,
    py_range 0 (Z.of_nat (length tasks)) batch_size = inr starts
    ∧ concat (map (λ i, py_slice i (i + batch_size) tasks) starts) = tasks.
Proof.
  intros Hb.
  destruct (py_range_batches (Z.of_nat (length tasks)) batch_size)
    as (count & Hrange & Hcount); [lia | lia |].
  eexists. split; [exact Hrange|].
  rewrite <- list_fmap_compose.
  rewrite (map_ext_elem_of _
             (λ k, take (Z.to_nat batch_size)
                        (drop (k * Z.to_nat batch_size) tasks))).
  - apply chunks_concat. nia.
  - intros k _. simpl. rewrite py_slice_window by lia.
    do 2 f_equal. lia.
Qed.

Section SamplingProofs.
Variable run_batch : list Circuit → Z → result (list (list (list nat))).
Hypothesis run_batch_ok : one_result_per_circuit run_batch.

Lemma sample_records_loop (tasks : list _Sample2qXEBTask)
    (results : list (list (list nat))) (records : list SampledRecord) :
  length results = length tasks →
  Forall (λ nested_result, length nested_result = 1%nat) results →
  ∃ new_records,
    for_each (λ records '(task, nested_result),
      match nested_result with
      | [sampled_inds] =>
          let sampled_probs :=
            map (λ count, np_div (Qc_of_nat count)
                                 (Qc_of_nat (length sampled_inds)))
                (np_bincount sampled_inds (2 ^ 2)) in
          mret (records ++ [{| sampled_circuit_i := task_circuit_i task;
                               sampled_cycle_depth := task_cycle_depth task;
                               sampled_probs := sampled_probs |}])
      | _ => raise ValueError
      end) (zip tasks results) records
    = inr (records ++ new_records)
    ∧ map sampled_key new_records = map task_key tasks.
Proof.
  revert results records.
  induction tasks as [|task tasks IH]; intros [|nested results] records Hlen Hone;
    try discriminate Hlen.
  - exists []. rewrite app_nil_r. split; reflexivity.
  - apply Forall_cons in Hone as [Hnested Hone].
    destruct nested as [|sampled_inds [|? ?]]; try discriminate Hnested.
    injection Hlen as Hlen.
    cbn -[Nat.pow np_bincount np_div].
    match goal with
    | |- context [for_each _ _ (records ++ [?r])] =>
        destruct (IH results (records ++ [r]) Hlen Hone)
          as (new_records & Hloop & Hkeys);
        exists (r :: new_records)
    end.
    split.
    + etransitivity; [exact Hloop|]. rewrite <- app_assoc. reflexivity.
    + simpl. rewrite Hkeys. reflexivity.
Qed.

Lemma _SampleInBatches_call_ok (repetitions : Z)
    (tasks : list _Sample2qXEBTask) :
  ∃ records,
    _SampleInBatches_call run_batch repetitions tasks = inr records
    ∧ map sampled_key records = map task_key tasks.
Proof.
  destruct (run_batch_ok (map prepared_circuit tasks) repetitions)
    as (results & Hrun & Hlen & Hone).
  rewrite length_map in Hlen.
  unfold _SampleInBatches_call. rewrite Hrun. simpl.
  rewrite bool_decide_eq_true_2 by exact Hlen. simpl.
  destruct (sample_records_loop tasks results [] Hlen Hone)
    as (records & Hloop & Hkeys).
  exists records. split; [exact Hloop | exact Hkeys].
Qed.

Lemma futures_ok (repetitions : Z) (batches : list (list _Sample2qXEBTask)) :
  ∃ batch_records : list (list SampledRecord),
    map (_SampleInBatches_call run_batch repetitions) batches
    = map inr batch_records
    ∧ map sampled_key (concat batch_records) = map task_key (concat batches).
Proof.
  induction batches as [|batch batches (rs & Hrs & Hkeys)].
  - exists []. split; reflexivity.
  - destruct (_SampleInBatches_call_ok repetitions batch) as (r & Hr & Hk).
    exists (r :: rs). simpl. rewrite Hr, Hrs. split; [reflexivity|].
    rewrite !map_app, Hk, Hkeys. reflexivity.
Qed.
End SamplingProofs.

Lemma collect_futures (batch_records : list (list SampledRecord))
    (records : list SampledRecord) :
  for_each (λ records future,
              batch_records ← future; mret (records ++ batch_records))
           (map inr batch_records) records
  = inr (records ++ concat batch_records).
Proof.
  revert records.
  induction batch_records as [|r rs IH]; intros records; simpl.
  - rewrite app_nil_r. reflexivity.
  - rewrite IH, <- app_assoc. reflexivity.
Qed.

Lemma example_sampler_ok : one_result_per_circuit example_sampler.
Proof.
  intros programs repetitions. eexists. split; [reflexivity|].
  split; [apply length_map|].
  apply Forall_fmap, Forall_true. intros program. reflexivity.
Qed.

Lemma sample_2q_xeb_circuits_records
    (run_batch : list Circuit → Z → result (list (list (list nat))))
    (as_completed :
       list (result (list SampledRecord)) → list (result (list SampledRecord)))
    (circuits : list Circuit) (cycle_depths : list Z)
    (repetitions batch_size : Z) (q0 q1 : Z) :
  _verify_and_get_two_qubits_from_circuits circuits = inr [q0; q1] →
  (∀ d circuit, d ∈ cycle_depths → circuit ∈ circuits →
     (0 ≤ d)%Z ∧ (2 * d + 1 ≤ Z.of_nat (length circuit))%Z) →
  cycle_depths ≠ [] → (0 < batch_size)%Z →
  (∀ futures, as_completed futures ≡ₚ futures) →
  one_result_per_circuit run_batch →
  ∃ records,
    sample_2q_xeb_circuits run_batch as_completed circuits cycle_depths
      repetitions batch_size = inr records
    ∧ map sampled_key records ≡ₚ schedule_keys (length circuits) cycle_depths
    ∧ length records = (length circuits * length cycle_depths)%nat.
Proof.
  intros Hverify Hfit Hdepths Hbatch Hcompleted Hsampler.
  pose proof (sample_2q_xeb_tasks_fit q0 q1 circuits cycle_depths Hfit)
    as Htasks.
  pose proof (expected_sample_tasks_keys q0 q1 circuits cycle_depths)
    as Hkeys.
  unfold sample_2q_xeb_circuits. rewrite Hverify. simpl.
  rewrite Htasks. simpl.
  destruct (batches_concat (expected_sample_tasks q0 q1 circuits cycle_depths)
              batch_size Hbatch) as (starts & Hrange & Hconcat).
  rewrite Hrange. simpl.
  destruct (futures_ok run_batch Hsampler repetitions
              (map (λ i, py_slice i (i + batch_size)
                           (expected_sample_tasks q0 q1 circuits cycle_depths))
                   starts)) as (rs & Hfutures & Hrs).
  rewrite Hfutures. rewrite Hconcat, Hkeys in Hrs.
  destruct (Permutation_map_inv _ _ (Hcompleted (map inr rs)))
    as (rs' & Hrs' & Hperm).
  rewrite Hrs', collect_futures. simpl.
  assert (Hrecords : map sampled_key (concat rs')
                     ≡ₚ schedule_keys (length circuits) cycle_depths).
  { rewrite <- Hrs. apply Permutation_map, concat_Permutation.
    symmetry. exact Hperm. }
  assert (Hlen : length (concat rs')
                 = (length circuits * length cycle_depths)%nat).
  { rewrite <- (length_map sampled_key), Hrecords.
    apply schedule_keys_length. }
  assert (Hcircuits : circuits ≠ []).
  { intros ->. discriminate Hverify. }
  destruct (concat rs') as [|record records] eqn:Hrecs.
  - exfalso. simpl in Hlen.
    destruct circuits; [congruence|]. destruct cycle_depths; [congruence|].
    simpl in Hlen. lia.
  - exists (record :: records). split; [reflexivity|].
    split; [exact Hrecords | exact Hlen].
Qed.

(** C3 (amended): for a library that passes the two-site verification,
    [sample_2q_xeb_circuits] fails with [AssertionError] when some requested
    cycle depth [d] and circuit satisfy [2 d + 1 > ] the layer count of the
    circuit.  When every requested depth is non-negative and fits every
    circuit, it creates exactly one task per (cycle depth, circuit index)
    pair: the circuit cut down to its first [2 d + 1] layers with the
    measurement of the two sites appended; and for a non-empty depth list, a
    positive batch size and a sampler that returns one result per submitted
    circuit it produces exactly [len(circuits) * len(cycle_depths)] records,
    keyed by the pairs (circuit index, cycle depth), whatever the order in
    which the batches complete. *)
Theorem sample_2q_xeb_circuits_spec
    (run_batch : list Circuit → Z → result (list (list (list nat))))
    (as_completed :
       list (result (list SampledRecord)) → list (result (list SampledRecord)))
    (circuits : list Circuit) (cycle_depths : list Z)
    (repetitions batch_size : Z) (q0 q1 : Z) :
  _verify_and_get_two_qubits_from_circuits circuits = inr [q0; q1] →
  ((∃ d circuit, d ∈ cycle_depths ∧ circuit ∈ circuits
                 ∧ (2 * d + 1 > Z.of_nat (length circuit))%Z) →
   sample_2q_xeb_circuits run_batch as_completed circuits cycle_depths
     repetitions batch_size = raise AssertionError)
  ∧ ((∀ d circuit, d ∈ cycle_depths → circuit ∈ circuits →
        (0 ≤ d)%Z ∧ (2 * d + 1 ≤ Z.of_nat (length circuit))%Z) →
     sample_2q_xeb_tasks q0 q1 circuits cycle_depths
     = inr (expected_sample_tasks q0 q1 circuits cycle_depths)
     ∧ map task_key (expected_sample_tasks q0 q1 circuits cycle_depths)
       = schedule_keys (length circuits) cycle_depths
     ∧ (cycle_depths ≠ [] → (0 < batch_size)%Z →
        (∀ futures, as_completed futures ≡ₚ futures) →
        one_result_per_circuit run_batch →
        ∃ records,
          sample_2q_xeb_circuits run_batch as_completed circuits cycle_depths
            repetitions batch_size = inr records
          ∧ map sampled_key records
            ≡ₚ schedule_keys (length circuits) cycle_depths
          ∧ length records = (length circuits * length cycle_depths)%nat)).
Proof.
  intros Hverify. split.
  - intros Hlong. unfold sample_2q_xeb_circuits. rewrite Hverify. simpl.
    rewrite sample_2q_xeb_tasks_assert by exact Hlong. reflexivity.
  - intros Hfit.
    split; [apply sample_2q_xeb_tasks_fit, Hfit|].
    split; [apply expected_sample_tasks_keys|].
    intros Hdepths Hbatch Hcompleted Hsampler.
    apply (sample_2q_xeb_circuits_records _ _ _ _ _ _ q0 q1); assumption.
Qed.

Lemma sample_2q_xeb_circuits_spec_witness :
  sample_2q_xeb_circuits example_sampler (λ futures, rev futures)
    example_library [0%Z; 2%Z] 10 3 = raise AssertionError
  ∧ ∃ records,
      sample_2q_xeb_circuits example_sampler (λ futures, rev futures)
        example_library [0%Z; 1%Z] 10 3 = inr records
      ∧ map sampled_key records ≡ₚ schedule_keys 2 [0%Z; 1%Z]
      ∧ length records = 4%nat.
Proof.
  split.
  - apply (sample_2q_xeb_circuits_spec example_sampler (λ futures, rev futures)
             example_library [0%Z; 2%Z] 10 3 1 3); [reflexivity|].
    exists 2%Z, example_circuit_3.
    split; [do 2 constructor|]. split; [constructor|]. simpl. lia.
  - apply (sample_2q_xeb_circuits_spec example_sampler (λ futures, rev futures)
             example_library [0%Z; 1%Z] 10 3 1 3); [reflexivity | | | | |].
    + intros d circuit Hd Hc.
      rewrite !elem_of_cons, elem_of_nil in Hd.
      unfold example_library in Hc. rewrite !elem_of_cons, elem_of_nil in Hc.
      destruct Hd as [->|[->|[]]]; destruct Hc as [->|[->|[]]]; simpl; lia.
    + discriminate.
    + lia.
    + intros futures. symmetry. apply Permutation_rev.
    + exact example_sampler_ok.
Defined.

(** C3, as stated, fails.  (1) A library that does not pass the two-site
    verification raises [ValueError], not [AssertionError], even when a
    requested depth does not fit.  (2) With an empty depth list every depth
    fits, yet no table of zero records is produced: building the table raises
    [KeyError].  (3) With a batch size of zero the scheduler raises
    [ValueError] although every depth fits and the sampler returns one result
    per circuit. *)
Lemma sample_2q_xeb_circuits_counterexample :
  ((∃ d circuit, d ∈ [1%Z] ∧ circuit ∈ [example_one_site_circuit]
                 ∧ (2 * d + 1 > Z.of_nat (length circuit))%Z)
   ∧ sample_2q_xeb_circuits example_sampler (λ futures, futures)
       [example_one_site_circuit] [1%Z] 10 9 = raise ValueError)
  ∧ ((∀ d circuit, d ∈ @nil Z → circuit ∈ example_library →
        (2 * d + 1 ≤ Z.of_nat (length circuit))%Z)
     ∧ sample_2q_xeb_circuits example_sampler (λ futures, futures)
         example_library [] 10 9 = raise KeyError)
  ∧ ((∀ d circuit, d ∈ [0%Z] → circuit ∈ example_library →
        (2 * d + 1 ≤ Z.of_nat (length circuit))%Z)
     ∧ sample_2q_xeb_circuits example_sampler (λ futures, futures)
         example_library [0%Z] 10 0 = raise ValueError).
Proof.
  split; [|split].
  - split; [|reflexivity].
    exists 1%Z, example_one_site_circuit.
    split; [constructor|]. split; [constructor|]. simpl. lia.
  - split; [|reflexivity].
    intros d circuit Hd. apply elem_of_nil in Hd. destruct Hd.
  - split; [|reflexivity].
    intros d circuit Hd Hc. apply list_elem_of_singleton in Hd as ->.
    unfold example_library in Hc. rewrite !elem_of_cons, elem_of_nil in Hc.
    destruct Hc as [->|[->|[]]]; simpl; lia.
Qed.

(** ** The simulation scheduler: the depth check *)

Lemma foldl_max_spec (xs : list Z) (a : Z) :
  (foldl Z.max a xs = a ∨ foldl Z.max a xs ∈ xs)
  ∧ (a ≤ foldl Z.max a xs)%Z
  ∧ ∀ v, v ∈ xs → (v ≤ foldl Z.max a xs)%Z.
Proof.
  revert a. induction xs as [|w xs IH]; intros a; simpl.
  - split; [left; reflexivity|]. split; [lia|].
    intros v Hv. apply elem_of_nil in Hv. destruct Hv.
  - destruct (IH (Z.max a w)) as (Hin & Hge & Hall). split; [|split].
    + destruct Hin as [Heq|Hin].
      * rewrite Heq. destruct (Z.max_spec a w) as [[_ ->]|[_ ->]].
        -- right. constructor.
        -- left. reflexivity.
      * right. constructor. exact Hin.
    + lia.
    + intros v Hv. apply elem_of_cons in Hv as [->|Hv]; [lia|].
      apply Hall, Hv.
Qed.

Lemma py_max_spec (xs : list Z) :
  xs ≠ [] →
  ∃ v, py_max xs = inr v ∧ v ∈ xs ∧ ∀ w, w ∈ xs → (w ≤ v)%Z.
Proof.
  destruct xs as [|a xs]; [congruence|]. intros _.
  destruct (foldl_max_spec xs a) as (Hin & Hge & Hall).
  exists (foldl Z.max a xs). split; [reflexivity|]. split.
  - destruct Hin as [->|Hin]; [constructor | constructor; exact Hin].
  - intros w Hw. apply elem_of_cons in Hw as [->|Hw]; [exact Hge|].
    apply Hall, Hw.
Qed.

Lemma circuit_max_cycle_depth_fits (circuit : Circuit) (d : Z) :
  (d ≤ circuit_max_cycle_depth circuit)%Z
  ↔ (2 * d + 1 ≤ Z.of_nat (length circuit))%Z.
Proof.
  unfold circuit_max_cycle_depth.
  pose proof (Z.div_mod (Z.of_nat (length circuit) - 1) 2 ltac:(lia)) as Hdiv.
  pose proof (Z.mod_pos_bound (Z.of_nat (length circuit) - 1) 2 ltac:(lia)).
  lia.
Qed.

Section SimulationProofs.
Variable ParamResolver : Type.
Variable simulate_moment_steps :
  Circuit → ParamResolver → result (list (list Complex)).

Lemma elements_depths_nonempty (cycle_depths : list Z) :
  cycle_depths ≠ [] →
  elements (list_to_set cycle_depths : gset Z) ≠ [].
Proof.
  destruct cycle_depths as [|d ds]; [congruence|]. intros _ Hnil.
  apply elements_empty_inv in Hnil.
  assert (Hd : d ∈ (list_to_set (d :: ds) : gset Z))
    by (apply elem_of_list_to_set; constructor).
  rewrite Hnil in Hd. apply not_elem_of_empty in Hd. exact Hd.
Qed.

Lemma _Simulate_2q_XEB_Circuit_call_too_deep
    (task : _Simulate2qXEBTask ParamResolver) :
  (∃ d, d ∈ sim_cycle_depths task
        ∧ (d > circuit_max_cycle_depth (sim_circuit task))%Z) →
  _Simulate_2q_XEB_Circuit_call ParamResolver simulate_moment_steps task
  = raise ValueError.
Proof.
  intros (d & Hd & Hdeep). unfold _Simulate_2q_XEB_Circuit_call.
  destruct (py_max_spec (elements (list_to_set (sim_cycle_depths task) : gset Z)))
    as (v & Hmax & _ & Hall).
  { apply elements_depths_nonempty. intros Hnil. rewrite Hnil in Hd.
    apply elem_of_nil in Hd. exact Hd. }
  rewrite Hmax. simpl.
  rewrite bool_decide_eq_true_2; [reflexivity|].
  specialize (Hall d). rewrite elem_of_elements, elem_of_list_to_set in Hall.
  specialize (Hall Hd). lia.
Qed.

Lemma _Simulate_2q_XEB_Circuit_call_fits
    (task : _Simulate2qXEBTask ParamResolver) :
  sim_cycle_depths task ≠ [] →
  (∀ d, d ∈ sim_cycle_depths task →
        (d ≤ circuit_max_cycle_depth (sim_circuit task))%Z) →
  _Simulate_2q_XEB_Circuit_call ParamResolver simulate_moment_steps task
  = steps ← simulate_moment_steps (sim_circuit task) (sim_param_resolver task);
    mret (record_steps (sim_circuit_i task)
            (list_to_set (sim_cycle_depths task)) 0 steps []).
Proof.
  intros Hne Hfit. unfold _Simulate_2q_XEB_Circuit_call.
  destruct (py_max_spec (elements (list_to_set (sim_cycle_depths task) : gset Z)))
    as (v & Hmax & Hv & _).
  { apply elements_depths_nonempty, Hne. }
  rewrite Hmax. simpl.
  rewrite bool_decide_eq_false_2; [reflexivity|].
  rewrite elem_of_elements, elem_of_list_to_set in Hv.
  specialize (Hfit v Hv). lia.
Qed.

(** An empty depth list fails as well: [max] of an empty set raises
    [ValueError]. *)
Lemma _Simulate_2q_XEB_Circuit_call_empty
    (task : _Simulate2qXEBTask ParamResolver) :
  sim_cycle_depths task = [] →
  _Simulate_2q_XEB_Circuit_call ParamResolver simulate_moment_steps task
  = raise ValueError.
Proof.
  intros Hnil. unfold _Simulate_2q_XEB_Circuit_call. rewrite Hnil.
  reflexivity.
Qed.

Lemma mapM_result_raise {A B} (f : A → result B) (e : exn) (xs : list A) :
  (∀ v, v ∈ xs → f v = inl e ∨ ∃ w, f v = inr w) →
  (∃ v, v ∈ xs ∧ f v = inl e) →
  mapM f xs = inl e.
Proof.
  induction xs as [|v xs IH]; intros Hall (u & Hu & Hfu).
  - apply elem_of_nil in Hu. destruct Hu.
  - simpl. destruct (Hall v ltac:(constructor)) as [Hv|[w Hv]]; rewrite Hv.
    + reflexivity.
    + simpl. apply elem_of_cons in Hu as [->|Hu]; [congruence|].
      rewrite IH; [reflexivity | |].
      * intros v' Hv'. apply Hall. constructor. exact Hv'.
      * exists u. split; assumption.
Qed.

(** C4: the maximum feasible cycle depth of a circuit is
    [(layer_count − 1) / 2] (integer division), the largest depth [d] with
    [2 d + 1 ≤ layer_count]; the simulation task of a circuit fails with
    [ValueError] if some requested cycle depth exceeds it.  The failure does
    not depend on the simulator: the check precedes the simulation, so no
    state vector of the circuit is recorded.  When the simulator itself
    raises no exception, the scheduler as a whole fails with [ValueError]
    too. *)
Theorem simulate_depth_check (task : _Simulate2qXEBTask ParamResolver) :
  circuit_max_cycle_depth (sim_circuit task)
  = ((Z.of_nat (length (sim_circuit task)) - 1) `div` 2)%Z
  ∧ (∀ d, (d ≤ circuit_max_cycle_depth (sim_circuit task))%Z
          ↔ (2 * d + 1 ≤ Z.of_nat (length (sim_circuit task)))%Z)
  ∧ ((∃ d, d ∈ sim_cycle_depths task
           ∧ (d > circuit_max_cycle_depth (sim_circuit task))%Z) →
     _Simulate_2q_XEB_Circuit_call ParamResolver simulate_moment_steps task
     = raise ValueError)
  ∧ ∀ circuits cycle_depths param_resolver,
      (∀ circuit, circuit ∈ circuits →
         ∃ steps, simulate_moment_steps circuit param_resolver = inr steps) →
      (∃ d circuit, d ∈ cycle_depths ∧ circuit ∈ circuits
                    ∧ (d > circuit_max_cycle_depth circuit)%Z) →
      simulate_2q_xeb_circuits ParamResolver simulate_moment_steps
        circuits cycle_depths param_resolver = raise ValueError.
Proof.
  split; [reflexivity|].
  split; [apply circuit_max_cycle_depth_fits|].
  split; [apply _Simulate_2q_XEB_Circuit_call_too_deep|].
  intros circuits cycle_depths param_resolver Hsim (d & circuit & Hd & Hc & Hdeep).
  unfold simulate_2q_xeb_circuits.
  rewrite (mapM_result_raise _ ValueError); [reflexivity | |].
  - intros t Ht. apply list_elem_of_fmap in Ht as ([i c] & -> & Hic).
    apply enumerate_elem_of in Hic.
    destruct (decide (Forall (λ d', (d' ≤ circuit_max_cycle_depth c)%Z)
                             cycle_depths)) as [Hfit|Hdeep'].
    + right. rewrite _Simulate_2q_XEB_Circuit_call_fits.
      * simpl. destruct (Hsim c Hic) as [steps ->]. eexists. reflexivity.
      * simpl. intros Hnil. rewrite Hnil in Hd. apply elem_of_nil in Hd. exact Hd.
      * simpl. intros d' Hd'. rewrite Forall_forall in Hfit. apply Hfit, Hd'.
    + left. apply _Simulate_2q_XEB_Circuit_call_too_deep. simpl.
      apply not_Forall_Exists in Hdeep'; [|intros ?; apply _].
      apply Exists_exists in Hdeep' as (d' & Hd' & Hgt).
      exists d'. split; [exact Hd'|]. simpl in Hgt. lia.
  - destruct (enumerate_elem_of_2 circuits circuit Hc) as [i Hi].
    eexists. split.
    + apply list_elem_of_fmap. exists (i, circuit). split; [reflexivity | exact Hi].
    + apply _Simulate_2q_XEB_Circuit_call_too_deep. exists d. simpl.
      split; assumption.
Qed.
End SimulationProofs.

Lemma simulate_depth_check_witness :
  _Simulate_2q_XEB_Circuit_call unit failing_simulator
    {| sim_circuit_i := 0; sim_cycle_depths := [0%Z; 2%Z];
       sim_circuit := example_circuit_3; sim_param_resolver := () |}
  = raise ValueError
  ∧ simulate_2q_xeb_circuits unit example_simulator example_library
      [0%Z; 2%Z] () = raise ValueError.
Proof.
  pose proof (simulate_depth_check unit failing_simulator
                {| sim_circuit_i := 0; sim_cycle_depths := [0%Z; 2%Z];
                   sim_circuit := example_circuit_3;
                   sim_param_resolver := () |}) as (_ & _ & Htask & _).
  pose proof (simulate_depth_check unit example_simulator
                {| sim_circuit_i := 0; sim_cycle_depths := [];
                   sim_circuit := []; sim_param_resolver := () |})
    as (_ & _ & _ & Hall).
  split.
  - apply Htask. exists 2%Z. split; [do 2 constructor | reflexivity].
  - apply Hall.
    + intros circuit _. eexists. reflexivity.
    + exists 2%Z, example_circuit_3.
      split; [do 2 constructor|]. split; [constructor | reflexivity].
Defined.

(** ** The simulation scheduler: one record per distinct depth *)

Lemma record_steps_keys (circuit_i : nat) (cycle_depths : gset Z)
    (steps : list (list Complex)) (moment_i : Z) (records : list PureRecord) :
  map pure_key (record_steps circuit_i cycle_depths moment_i steps records)
  = map pure_key records
    ++ (map (λ k, (moment_i + Z.of_nat k)%Z) (seq 0 (length steps))
        ≫= step_keys circuit_i cycle_depths).
Proof.
  revert moment_i records.
  induction steps as [|psi steps IH]; intros moment_i records.
  - simpl. rewrite app_nil_r. reflexivity.
  - cbn [record_steps length seq map mbind list_bind].
    rewrite <- fmap_S_seq, <- list_fmap_compose.
    rewrite (map_ext_elem_of _ (λ k, (moment_i + 1 + Z.of_nat k)%Z))
      by (intros k _; simpl; lia).
    replace (moment_i + Z.of_nat 0)%Z with moment_i by lia.
    unfold step_keys at 1.
    case_bool_decide; [apply IH|].
    case_bool_decide; simpl; rewrite IH; [|reflexivity].
    rewrite map_app, <- app_assoc. reflexivity.
Qed.

Lemma step_keys_elem_of (circuit_i : nat) (cycle_depths : gset Z)
    (moment_i : Z) (i : nat) (d : Z) :
  (0 ≤ moment_i)%Z →
  (i, d) ∈ step_keys circuit_i cycle_depths moment_i
  ↔ i = circuit_i ∧ moment_i = (2 * d)%Z ∧ d ∈ cycle_depths.
Proof.
  intros Hm. unfold step_keys.
  pose proof (Z.div_mod moment_i 2 ltac:(lia)) as Hdiv.
  pose proof (Z.mod_pos_bound moment_i 2 ltac:(lia)) as Hmod.
  repeat case_bool_decide.
  - rewrite elem_of_nil. split; [tauto|]. intros (_ & -> & _).
    rewrite Z.mul_comm, Z.mod_mul in * by lia. lia.
  - rewrite list_elem_of_singleton. split.
    + intros [= -> ->]. split; [reflexivity|]. split; [lia | assumption].
    + intros (-> & -> & _). f_equal.
      rewrite Z.mul_comm, Z.div_mul by lia. reflexivity.
  - rewrite elem_of_nil. split; [tauto|]. intros (_ & -> & Hd).
    rewrite Z.mul_comm, Z.div_mul in * by lia. tauto.
Qed.

Lemma step_keys_NoDup (circuit_i : nat) (cycle_depths : gset Z) (moment_i : Z) :
  NoDup (step_keys circuit_i cycle_depths moment_i).
Proof.
  unfold step_keys. repeat case_bool_decide;
    [apply NoDup_nil_2 | apply NoDup_singleton | apply NoDup_nil_2].
Qed.

(** The keys recorded for one circuit of [n] layers. *)
Lemma circuit_keys_Permutation (circuit_i : nat) (cycle_depths : gset Z)
    (n : nat) :
  (∀ d, d ∈ cycle_depths → (0 ≤ d)%Z ∧ (2 * d + 1 ≤ Z.of_nat n)%Z) →
  map (λ k, (0 + Z.of_nat k)%Z) (seq 0 n) ≫= step_keys circuit_i cycle_depths
  ≡ₚ map (λ d, (circuit_i, d)) (elements cycle_depths).
Proof.
  intros Hfit. apply NoDup_Permutation.
  - apply NoDup_bind.
    + intros j1 j2 [i d] Hj1 Hj2 H1 H2.
      apply list_elem_of_fmap in Hj1 as (k1 & -> & _).
      apply list_elem_of_fmap in Hj2 as (k2 & -> & _).
      apply step_keys_elem_of in H1 as (_ & H1 & _); [|lia].
      apply step_keys_elem_of in H2 as (_ & H2 & _); [|lia].
      lia.
    + intros j _. apply step_keys_NoDup.
    + apply NoDup_fmap_2; [|apply NoDup_seq]. intros k1 k2 Hk. lia.
  - apply NoDup_fmap_2; [|apply NoDup_elements]. intros d1 d2 [= ->]. reflexivity.
  - intros [i d]. rewrite list_elem_of_bind, list_elem_of_fmap. split.
    + intros (j & Hkey & Hj).
      apply list_elem_of_fmap in Hj as (k & -> & _).
      apply step_keys_elem_of in Hkey as (-> & _ & Hd); [|lia].
      exists d. split; [reflexivity|]. apply elem_of_elements, Hd.
    + intros (d' & [= -> ->] & Hd). apply elem_of_elements in Hd.
      destruct (Hfit d' Hd) as [Hd0 Hdn].
      exists (2 * d')%Z. split.
      * apply step_keys_elem_of; [lia|]. auto.
      * apply list_elem_of_fmap. exists (Z.to_nat (2 * d')).
        split; [lia|]. apply elem_of_seq. lia.
Qed.

Lemma simulation_keys_length (n : nat) (cycle_depths : list Z) :
  length (simulation_keys n cycle_depths)
  = (n * size (list_to_set cycle_depths : gset Z))%nat.
Proof.
  unfold simulation_keys. generalize 0%nat.
  induction n as [|n IH]; intros start; simpl; [reflexivity|].
  rewrite length_app, length_map, IH. reflexivity.
Qed.

Lemma simulation_keys_NoDup (n : nat) (cycle_depths : list Z) :
  NoDup (simulation_keys n cycle_depths).
Proof.
  unfold simulation_keys.
  change (NoDup (seq 0 n ≫= λ i, map (λ d, (i, d))
                   (elements (list_to_set cycle_depths : gset Z)))).
  apply NoDup_bind.
  - intros i1 i2 [i d] _ _ H1 H2.
    apply list_elem_of_fmap in H1 as (d1 & [= -> ->] & _).
    apply list_elem_of_fmap in H2 as (d2 & [= -> _] & _). reflexivity.
  - intros i _. apply NoDup_fmap_2; [|apply NoDup_elements].
    intros d1 d2 [= ->]. reflexivity.
  - apply NoDup_seq.
Qed.

Lemma size_list_to_set_le (l : list Z) :
  (size (list_to_set l : gset Z) ≤ length l)%nat.
Proof.
  induction l as [|v l IH].
  { rewrite list_to_set_nil, size_empty. simpl. lia. }
  rewrite list_to_set_cons, size_union_alt, size_singleton. simpl.
  pose proof (subseteq_size (list_to_set l ∖ {[v]}) (list_to_set l : gset Z)
                ltac:(apply subseteq_difference_l; reflexivity)).
  lia.
Qed.

Lemma size_list_to_set_lt (l : list Z) :
  ¬ NoDup l → (size (list_to_set l : gset Z) < length l)%nat.
Proof.
  induction l as [|v l IH]; intros Hdup.
  - exfalso. apply Hdup. constructor.
  - rewrite list_to_set_cons. simpl.
    destruct (decide (v ∈ l)) as [Hin|Hnotin].
    + replace ({[v]} ∪ list_to_set l : gset Z) with (list_to_set l : gset Z).
      * pose proof (size_list_to_set_le l). lia.
      * apply set_eq. intros w.
        rewrite elem_of_union, elem_of_singleton, elem_of_list_to_set.
        split; [tauto|]. intros [->|Hw]; assumption.
    + rewrite size_union, size_singleton.
      * assert (¬ NoDup l)
          by (intros Hnd; apply Hdup; constructor; assumption).
        specialize (IH ltac:(assumption)). lia.
      * apply disjoint_singleton_l. rewrite elem_of_list_to_set. exact Hnotin.
Qed.

Lemma flat_map_fmap {A B C} (f : A → B) (g : B → list C) (xs : list A) :
  flat_map (λ v, g (f v)) xs = flat_map g (map f xs).
Proof. induction xs as [|v xs IH]; simpl; [|rewrite IH]; reflexivity. Qed.

Section DeduplicationProofs.
Variable ParamResolver : Type.
Variable simulate_moment_steps :
  Circuit → ParamResolver → result (list (list Complex)).

Lemma simulate_tasks_ok (indexed_circuits : list (nat * Circuit))
    (cycle_depths : list Z) (param_resolver : ParamResolver) :
  cycle_depths ≠ [] →
  (∀ i circuit, (i, circuit) ∈ indexed_circuits →
     (∀ d, d ∈ cycle_depths →
           (0 ≤ d)%Z ∧ (2 * d + 1 ≤ Z.of_nat (length circuit))%Z)
     ∧ ∃ steps, simulate_moment_steps circuit param_resolver = inr steps
                ∧ length steps = length circuit) →
  ∃ nested_records,
    mapM (_Simulate_2q_XEB_Circuit_call ParamResolver simulate_moment_steps)
         (map (λ '(circuit_i, circuit),
                 {| sim_circuit_i := circuit_i;
                    sim_cycle_depths := cycle_depths;
                    sim_circuit := circuit;
                    sim_param_resolver := param_resolver |})
              indexed_circuits)
    = inr nested_records
    ∧ map pure_key (concat nested_records)
      ≡ₚ flat_map (λ ic : nat * Circuit,
                     map (λ d, (ic.1, d))
                         (elements (list_to_set cycle_depths : gset Z)))
                  indexed_circuits.
Proof.
  intros Hne.
  induction indexed_circuits as [|[i circuit] ics IH]; intros Hall.
  - exists []. split; reflexivity.
  - destruct (Hall i circuit ltac:(constructor))
      as (Hfit & steps & Hsteps & Hlen).
    destruct IH as (nested & Hnested & Hkeys).
    { intros i' c' Hin. apply (Hall i' c'). constructor. exact Hin. }
    exists (record_steps i (list_to_set cycle_depths) 0 steps [] :: nested).
    split.
    + cbn [map mapM]. rewrite _Simulate_2q_XEB_Circuit_call_fits.
      * cbn [sim_circuit sim_param_resolver sim_circuit_i sim_cycle_depths].
        rewrite Hsteps. simpl. rewrite Hnested. reflexivity.
      * exact Hne.
      * simpl. intros d Hd. apply circuit_max_cycle_depth_fits.
        apply Hfit, Hd.
    + simpl. rewrite map_app, record_steps_keys, Hkeys. simpl.
      apply Permutation_app_tail. rewrite Hlen.
      apply circuit_keys_Permutation.
      intros d Hd. apply Hfit. apply elem_of_list_to_set in Hd. exact Hd.
Qed.

Lemma simulate_2q_xeb_circuits_records (circuits : list Circuit)
    (cycle_depths : list Z) (param_resolver : ParamResolver) :
  circuits ≠ [] → cycle_depths ≠ [] →
  (∀ d circuit, d ∈ cycle_depths → circuit ∈ circuits →
     (0 ≤ d)%Z ∧ (2 * d + 1 ≤ Z.of_nat (length circuit))%Z) →
  (∀ circuit, circuit ∈ circuits →
     ∃ steps, simulate_moment_steps circuit param_resolver = inr steps
              ∧ length steps = length circuit) →
  ∃ records,
    simulate_2q_xeb_circuits ParamResolver simulate_moment_steps
      circuits cycle_depths param_resolver = inr records
    ∧ map pure_key records ≡ₚ simulation_keys (length circuits) cycle_depths.
Proof.
  intros Hcircuits Hdepths Hfit Hsim.
  destruct (simulate_tasks_ok (enumerate circuits) cycle_depths param_resolver
              Hdepths) as (nested & Hnested & Hkeys).
  { intros i circuit Hin. apply enumerate_elem_of in Hin. split.
    - intros d Hd. apply Hfit; assumption.
    - apply Hsim, Hin. }
  rewrite (flat_map_fmap fst
             (λ i, map (λ d, (i, d))
                       (elements (list_to_set cycle_depths : gset Z))))
    in Hkeys.
  rewrite enumerate_fst in Hkeys. fold (simulation_keys (length circuits) cycle_depths) in Hkeys.
  unfold simulate_2q_xeb_circuits. rewrite Hnested. simpl.
  destruct (concat nested) as [|record records] eqn:Hrecords.
  - exfalso. apply Permutation_length in Hkeys.
    rewrite simulation_keys_length in Hkeys. simpl in Hkeys.
    assert (size (list_to_set cycle_depths : gset Z) ≠ 0%nat) as Hsize.
    { intros Hsize. apply size_empty_inv in Hsize.
      apply (elements_depths_nonempty cycle_depths Hdepths).
      apply leibniz_equiv in Hsize. rewrite Hsize. apply elements_empty. }
    destruct circuits; [congruence|]. simpl in Hkeys. lia.
  - exists (record :: records). split; [reflexivity | exact Hkeys].
Qed.

(** C10: the simulation scheduler deduplicates the requested cycle depths.
    For a non-empty library and a non-empty list of non-negative cycle
    depths that all fit every circuit, and a simulator that yields one state
    per layer, [simulate_2q_xeb_circuits] emits exactly one record per
    (circuit index, distinct cycle depth) pair, however often a depth occurs
    in the list.  [sample_2q_xeb_circuits] creates one task, hence one row,
    per entry of the list, so a duplicated depth makes the row counts of the
    two schedulers differ. *)
Theorem simulate_deduplicates_depths (circuits : list Circuit)
    (cycle_depths : list Z) (param_resolver : ParamResolver) :
  circuits ≠ [] → cycle_depths ≠ [] →
  (∀ d circuit, d ∈ cycle_depths → circuit ∈ circuits →
     (0 ≤ d)%Z ∧ (2 * d + 1 ≤ Z.of_nat (length circuit))%Z) →
  (∀ circuit, circuit ∈ circuits →
     ∃ steps, simulate_moment_steps circuit param_resolver = inr steps
              ∧ length steps = length circuit) →
  ∃ records,
    simulate_2q_xeb_circuits ParamResolver simulate_moment_steps
      circuits cycle_depths param_resolver = inr records
    ∧ map pure_key records ≡ₚ simulation_keys (length circuits) cycle_depths
    ∧ NoDup (map pure_key records)
    ∧ (∀ i d, (i, d) ∈ map pure_key records
              ↔ (i < length circuits)%nat ∧ d ∈ cycle_depths)
    ∧ length records
      = (length circuits * size (list_to_set cycle_depths : gset Z))%nat
    ∧ (∀ q0 q1, ∃ tasks,
         sample_2q_xeb_tasks q0 q1 circuits cycle_depths = inr tasks
         ∧ length tasks = (length circuits * length cycle_depths)%nat
         ∧ (¬ NoDup cycle_depths → (length records < length tasks)%nat))
    ∧ (∀ run_batch as_completed repetitions batch_size q0 q1,
         _verify_and_get_two_qubits_from_circuits circuits = inr [q0; q1] →
         (0 < batch_size)%Z →
         (∀ futures, as_completed futures ≡ₚ futures) →
         one_result_per_circuit run_batch →
         ∃ rows,
           sample_2q_xeb_circuits run_batch as_completed circuits cycle_depths
             repetitions batch_size = inr rows
           ∧ length rows = (length circuits * length cycle_depths)%nat
           ∧ (¬ NoDup cycle_depths → (length records < length rows)%nat)).
Proof.
  intros Hcircuits Hdepths Hfit Hsim.
  destruct (simulate_2q_xeb_circuits_records circuits cycle_depths
              param_resolver Hcircuits Hdepths Hfit Hsim)
    as (records & Hrun & Hkeys).
  assert (Hlen : length records
                 = (length circuits * size (list_to_set cycle_depths : gset Z))%nat).
  { rewrite <- (length_map pure_key), Hkeys. apply simulation_keys_length. }
  assert (Hless : ¬ NoDup cycle_depths →
                  (length records < length circuits * length cycle_depths)%nat).
  { intros Hdup. rewrite Hlen.
    pose proof (size_list_to_set_lt cycle_depths Hdup).
    destruct circuits; [congruence|]. simpl. nia. }
  exists records. split; [exact Hrun|]. split; [exact Hkeys|].
  split; [rewrite Hkeys; apply simulation_keys_NoDup|].
  split; [|split; [exact Hlen|split]].
  - intros i d. rewrite Hkeys. unfold simulation_keys.
    rewrite list_elem_of_In, in_flat_map. split.
    + intros (i' & Hi' & Hin). apply list_elem_of_In in Hi', Hin.
      apply list_elem_of_fmap in Hin as (d' & [= -> ->] & Hd').
      apply elem_of_seq in Hi'.
      rewrite elem_of_elements, elem_of_list_to_set in Hd'. split; [lia | exact Hd'].
    + intros [Hi Hd]. exists i. split; apply list_elem_of_In.
      * apply elem_of_seq. lia.
      * apply list_elem_of_fmap. exists d. split; [reflexivity|].
        rewrite elem_of_elements, elem_of_list_to_set. exact Hd.
  - intros q0 q1. exists (expected_sample_tasks q0 q1 circuits cycle_depths).
    split; [apply sample_2q_xeb_tasks_fit, Hfit|].
    assert (Htasks : length (expected_sample_tasks q0 q1 circuits cycle_depths)
                     = (length circuits * length cycle_depths)%nat).
    { rewrite <- (length_map task_key), expected_sample_tasks_keys.
      apply schedule_keys_length. }
    split; [exact Htasks|]. rewrite Htasks. exact Hless.
  - intros run_batch as_completed repetitions batch_size q0 q1
           Hverify Hbatch Hcompleted Hsampler.
    destruct (sample_2q_xeb_circuits_records run_batch as_completed circuits
                cycle_depths repetitions batch_size q0 q1
                Hverify Hfit Hdepths Hbatch Hcompleted Hsampler)
      as (rows & Hrows & _ & Hrowlen).
    exists rows. split; [exact Hrows|]. split; [exact Hrowlen|].
    rewrite Hrowlen. exact Hless.
Qed.
End DeduplicationProofs.

Lemma example_simulator_ok (circuit : Circuit) :
  ∃ steps, example_simulator circuit () = inr steps
           ∧ length steps = length circuit.
Proof. eexists. split; [reflexivity | apply length_map]. Qed.

Lemma simulate_deduplicates_depths_witness :
  ∃ records,
    simulate_2q_xeb_circuits unit example_simulator example_library
      [1%Z; 0%Z; 1%Z] () = inr records
    ∧ length records = 4%nat
    ∧ ∃ tasks,
        sample_2q_xeb_tasks 1 3 example_library [1%Z; 0%Z; 1%Z] = inr tasks
        ∧ length tasks = 6%nat.
Proof.
  destruct (simulate_deduplicates_depths unit example_simulator
              example_library [1%Z; 0%Z; 1%Z] ())
    as (records & Hrun & _ & _ & _ & Hlen & Htasks & _).
  - discriminate.
  - discriminate.
  - intros d circuit Hd Hc.
    rewrite !elem_of_cons, elem_of_nil in Hd.
    unfold example_library in Hc. rewrite !elem_of_cons, elem_of_nil in Hc.
    destruct Hd as [->|[->|[->|[]]]]; destruct Hc as [->|[->|[]]]; simpl; lia.
  - intros circuit _. apply example_simulator_ok.
  - exists records. split; [exact Hrun|]. split; [exact Hlen|].
    destruct (Htasks 1%Z 3%Z) as (tasks & Ht & Htl & _).
    exists tasks. split; [exact Ht | exact Htl].
Defined.

(** ** The single-circuit evaluator: the range check *)

Lemma range_check_loop (dim : Z) (bitstrings : list Z) :
  for_each (λ (_ : ()) bitstring,
              if negb (bool_decide (0 ≤ bitstring)%Z
                       && bool_decide (bitstring < dim)%Z)
              then raise ValueError else mret ())
           bitstrings ()
  = if forallb (λ bitstring, bool_decide (0 ≤ bitstring)%Z
                             && bool_decide (bitstring < dim)%Z) bitstrings
    then inr () else inl ValueError.
Proof.
  induction bitstrings as [|b bs IH]; [reflexivity|].
  simpl. destruct (bool_decide (0 ≤ b)%Z && bool_decide (b < dim)%Z);
    simpl; [exact IH | reflexivity].
Qed.











(** ** The benchmark aggregator *)

(** On rows computed by [_summary_stats], the sums of the columns
    [numerator] and [denominator] are the sums of the least-squares closed
    form over the rows' triples [(m_u, e_u, u_u)]. *)
Lemma summary_sums (rows : list SummaryRow) :
  Forall (λ row, ∃ joined_row, row = _summary_stats joined_row) rows →
  np_sum (map numerator rows)
  = lsq_numerator (map m_u rows) (map e_u rows) (map u_u rows)
  ∧ np_sum (map denominator rows)
    = lsq_denominator (map m_u rows) (map e_u rows) (map u_u rows).
Proof.
  induction 1 as [|row rows [joined_row ->] _ [IHn IHd]].
  - split; reflexivity.
  - cbn [map]. rewrite !np_sum_cons, lsq_numerator_cons, lsq_denominator_cons.
    rewrite IHn, IHd. split; [|reflexivity].
    f_equal. simpl. ring.
Qed.

Lemma depth_group_summary (df : list JoinedRow) (d : Z) :
  Forall (λ row, ∃ joined_row, row = _summary_stats joined_row)
         (depth_group (map _summary_stats df) d).
Proof.
  apply Forall_forall. intros row Hrow. unfold depth_group in Hrow.
  apply list_elem_of_filter in Hrow as [_ Hrow].
  apply list_elem_of_fmap in Hrow as (joined_row & -> & _).
  exists joined_row. reflexivity.
Qed.

Lemma benchmark_elem_of (df : list JoinedRow) (d : Z) (fidelity : option Qc) :
  (d, fidelity) ∈ benchmark_2q_xeb_fidelities_joined df
  ↔ d ∈ map cycle_depth df
    ∧ fidelity = per_cycle_depth (depth_group (map _summary_stats df) d).
Proof.
  unfold benchmark_2q_xeb_fidelities_joined.
  rewrite list_elem_of_fmap.
  assert (Hdepth : ∀ k, k ∈ sorted (list_to_set
                          (map (λ row, cycle_depth (joined row))
                               (map _summary_stats df)))
                        ↔ k ∈ map cycle_depth df).
  { intros k. rewrite sorted_elem_of, elem_of_list_to_set.
    rewrite <- list_fmap_compose. reflexivity. }
  split.
  - intros (k & [= -> ->] & Hk). split; [apply Hdepth, Hk | reflexivity].
  - intros [Hd ->]. exists d. split; [reflexivity | apply Hdepth, Hd].
Qed.

Lemma np_sum_squares (a : list Qc) :
  np_sum (map square a) = big_sum (length a) (λ k, square (entry a k)).
Proof.
  induction a as [|v a IH]; [reflexivity|].
  cbn [map]. rewrite np_sum_cons, IH.
  change (length (v :: a)) with (S (length a)).
  rewrite big_sum_S_l. reflexivity.
Qed.

Lemma np_sum_products (a b : list Qc) :
  length b = length a →
  np_sum (zip_with Qcmult a b)
  = big_sum (length a) (λ k, entry a k * entry b k).
Proof.
  revert b. induction a as [|v a IH]; intros [|w b] Hlen;
    try discriminate Hlen; [reflexivity|].
  injection Hlen as Hlen.
  cbn [zip_with]. rewrite np_sum_cons, IH by exact Hlen.
  change (length (v :: a)) with (S (length a)).
  rewrite big_sum_S_l. reflexivity.
Qed.

Lemma depth_group_fmap (df : list JoinedRow) (d : Z) :
  depth_group (map _summary_stats df) d
  = map _summary_stats (filter (λ row, cycle_depth row = d) df).
Proof.
  unfold depth_group. induction df as [|row df IH]; [reflexivity|].
  cbn [map]. rewrite !filter_cons. simpl.
  destruct (decide (cycle_depth row = d)); cbn [map]; rewrite IH;
    reflexivity.
Qed.

(** C1: for every joined table whose rows hold two probability vectors of
    one length, and every cycle depth [d] of the table, take the rows of
    depth [d] and for each of them [e_U = Σ pure_probs²],
    [u_U = Σ pure_probs / 4] and [m_U = Σ pure_probs · sampled_probs].  The
    table of [benchmark_2q_xeb_fidelities] has one row for [d]; its fidelity
    is [Σ (m_U − u_U)(e_U − u_U) / Σ (e_U − u_U)²] over these rows, and it is
    the fidelity [least_squares_xeb_fidelity_from_expectations] returns on
    the sequences of [m_U], [e_U] and [u_U]: on numpy scalars, as the
    columns of the table hold them, always, nan included; on Python floats
    whenever the fitter returns a fidelity, which it does when the
    denominators do not sum to zero. *)
Theorem benchmark_matches_least_squares (df : list JoinedRow) (d : Z) :
  Forall (λ row, length (row_sampled_probs row)
                 = length (row_pure_probs row)) df →
  d ∈ map cycle_depth df →
  let e_U := λ row,
    big_sum (length (row_pure_probs row))
            (λ k, square (entry (row_pure_probs row) k)) in
  let u_U := λ row,
    big_sum (length (row_pure_probs row)) (entry (row_pure_probs row))
    / Qc_of_Z 4 in
  let m_U := λ row,
    big_sum (length (row_pure_probs row))
            (λ k, entry (row_pure_probs row) k
                  * entry (row_sampled_probs row) k) in
  let group := filter (λ row, cycle_depth row = d) df in
  let m := map m_U group in
  let e := map e_U group in
  let u := map u_U group in
  ∃ fidelity,
    (d, fidelity) ∈ benchmark_2q_xeb_fidelities_joined df
    ∧ (∀ fidelity', (d, fidelity') ∈ benchmark_2q_xeb_fidelities_joined df →
                    fidelity' = fidelity)
    ∧ fidelity = np_div (lsq_numerator m e u) (lsq_denominator m e u)
    ∧ (∃ residuals,
         least_squares_xeb_fidelity_from_expectations_scalars
           (map NpFloat64 m) (map NpFloat64 e) (map NpFloat64 u)
         = inr (fidelity, residuals))
    ∧ (∀ f residuals,
         least_squares_xeb_fidelity_from_expectations m e u
         = inr (f, residuals) →
         fidelity = Some f)
    ∧ (lsq_denominator m e u ≠ 0 →
       ∃ f residuals,
         least_squares_xeb_fidelity_from_expectations m e u
         = inr (f, residuals)).
Proof.
  intros Hshape Hd e_U u_U m_U group m e u.
  assert (Hgroup : ∀ row, row ∈ group →
            length (row_sampled_probs row) = length (row_pure_probs row)).
  { intros row Hrow. apply list_elem_of_filter in Hrow as [_ Hrow].
    exact (proj1 (Forall_forall _ _) Hshape row Hrow). }
  assert (Hm : map m_u (map _summary_stats group) = m).
  { rewrite <- list_fmap_compose. apply map_ext_elem_of. intros row Hrow.
    simpl. apply np_sum_products, Hgroup, Hrow. }
  assert (He : map e_u (map _summary_stats group) = e).
  { rewrite <- list_fmap_compose. apply map_ext_elem_of. intros row _.
    simpl. apply np_sum_squares. }
  assert (Hu : map u_u (map _summary_stats group) = u).
  { rewrite <- list_fmap_compose. apply map_ext_elem_of. intros row _.
    simpl. rewrite np_sum_big_sum. reflexivity. }
  assert (Hfid : per_cycle_depth (depth_group (map _summary_stats df) d)
                 = np_div (lsq_numerator m e u) (lsq_denominator m e u)).
  { destruct (summary_sums _ (depth_group_summary df d)) as [Hn Hden].
    unfold per_cycle_depth. rewrite Hn, Hden, depth_group_fmap.
    fold group. rewrite Hm, He, Hu. reflexivity. }
  assert (Hne : group ≠ []).
  { apply list_elem_of_fmap in Hd as (row & -> & Hrow).
    intros Hnil.
    assert (Hin : row ∈ group)
      by (apply list_elem_of_filter; split; [reflexivity | exact Hrow]).
    rewrite Hnil in Hin. apply elem_of_nil in Hin. exact Hin. }
  exists (np_div (lsq_numerator m e u) (lsq_denominator m e u)).
  split; [apply benchmark_elem_of; split; [exact Hd | symmetry; exact Hfid]|].
  split; [intros fidelity' Hin; apply benchmark_elem_of in Hin as [_ ->];
          exact Hfid|].
  split; [reflexivity|]. split.
  - rewrite least_squares_scalars_unfold
      by (unfold m, e, u; rewrite !length_map; reflexivity).
    assert (Hnp : forallb is_PyFloat
                    (map NpFloat64 m ++ map NpFloat64 e ++ map NpFloat64 u)
                  = false).
    { unfold m. destruct group as [|row rows]; [congruence | reflexivity]. }
    assert (Hvalues : ∀ l, map scalar_value (map NpFloat64 l) = l).
    { intros l. rewrite <- list_fmap_compose. apply list_fmap_id. }
    rewrite Hnp, !Hvalues. simpl. eexists. reflexivity.
  - rewrite least_squares_unfold
      by (unfold m, e, u; rewrite !length_map; reflexivity).
    unfold np_div, py_div.
    destruct (decide (lsq_denominator m e u = 0)) as [Hden|Hden]; simpl.
    + split; [intros f residuals Hrun; discriminate Hrun|].
      intros Hne'. contradiction.
    + split; [intros f residuals [= <- _]; reflexivity|].
      intros _. eexists _, _. reflexivity.
Qed.

Lemma benchmark_matches_least_squares_witness :
  ∃ fidelity,
    (1%Z, fidelity) ∈ benchmark_2q_xeb_fidelities_joined example_joined
    ∧ (∀ fidelity',
         (1%Z, fidelity') ∈ benchmark_2q_xeb_fidelities_joined example_joined →
         fidelity' = fidelity).
Proof.
  destruct (benchmark_matches_least_squares example_joined 1)
    as (fidelity & Hin & Hunique & _).
  - repeat constructor.
  - constructor.
  - exists fidelity. split; [exact Hin | exact Hunique].
Defined.

(** * Further properties *)

(** ** The least-squares fitter *)

Lemma big_sum_ext (n : nat) (f g : nat → Qc) :
  (∀ i, (i < n)%nat → f i = g i) → big_sum n f = big_sum n g.
Proof.
  induction n as [|n IH]; intros Hfg; simpl; [reflexivity|].
  rewrite IH by (intros; apply Hfg; lia).
  rewrite Hfg by lia. reflexivity.
Qed.

Lemma big_sum_plus (n : nat) (f g : nat → Qc) :
  big_sum n (λ i, f i + g i) = big_sum n f + big_sum n g.
Proof. induction n as [|n IH]; simpl; [ring | rewrite IH; ring]. Qed.

Lemma big_sum_scale (n : nat) (c : Qc) (f : nat → Qc) :
  big_sum n (λ i, c * f i) = c * big_sum n f.
Proof. induction n as [|n IH]; simpl; [ring | rewrite IH; ring]. Qed.

Lemma square_nonneg (v : Qc) : 0 ≤ square v.
Proof.
  unfold square. destruct (Qclt_le_dec v 0) as [Hneg|Hpos].
  - replace (v * v) with ((- v) * (- v)) by ring.
    assert (0 ≤ - v).
    { apply Qclt_le_weak in Hneg. apply Qcopp_le_compat in Hneg.
      replace (- 0) with 0 in Hneg by ring. exact Hneg. }
    apply Qcmult_nonneg_nonneg; assumption.
  - apply Qcmult_nonneg_nonneg; assumption.
Qed.

Lemma big_sum_nonneg (n : nat) (f : nat → Qc) :
  (∀ i, 0 ≤ f i) → 0 ≤ big_sum n f.
Proof.
  intros Hf. induction n as [|n IH]; simpl; [apply Qcle_refl|].
  apply Qcplus_nonneg_nonneg; [exact IH | apply Hf].
Qed.

Lemma quadratic_expand (n : nat) (a b : nat → Qc) (g : Qc) :
  big_sum n (λ U, square (g * a U - b U))
  = g * g * big_sum n (λ U, square (a U))
    - (1 + 1) * g * big_sum n (λ U, b U * a U)
    + big_sum n (λ U, square (0 * a U - b U)).
Proof.
  induction n as [|n IH]; simpl; [ring|].
  rewrite IH. unfold square. ring.
Qed.

Lemma squared_error_expand (g : Qc) (m e u : list Qc) :
  squared_error g m e u
  = g * g * lsq_denominator m e u - (1 + 1) * g * lsq_numerator m e u
    + squared_error 0 m e u.
Proof.
  unfold squared_error, lsq_denominator, lsq_numerator.
  apply (quadratic_expand (length m) (λ U, entry e U - entry u U)
           (λ U, entry m U - entry u U) g).
Qed.

Lemma least_squares_inv (m e u : list Qc) (f : Qc) (residuals : list Qc) :
  least_squares_xeb_fidelity_from_expectations m e u = inr (f, residuals) →
  length m = length e ∧ length e = length u
  ∧ lsq_denominator m e u ≠ 0
  ∧ f = lsq_numerator m e u / lsq_denominator m e u
  ∧ residuals = map (λ '(m, e, u), f * (e - u) - (m - u)) (zip3 m e u).
Proof.
  intros Hrun.
  destruct (decide (length m = length e ∧ length e = length u)) as [[Hme Heu]|Hlen].
  - rewrite least_squares_unfold in Hrun by assumption.
    unfold py_div in Hrun.
    destruct (decide (lsq_denominator m e u = 0)) as [Hden|Hden];
      simpl in Hrun; [discriminate Hrun|].
    injection Hrun as <- <-. auto.
  - exfalso. unfold least_squares_xeb_fidelity_from_expectations in Hrun.
    destruct (decide (length m = length e)) as [Hme|Hme].
    + rewrite (bool_decide_eq_true_2 _ Hme) in Hrun.
      rewrite bool_decide_eq_false_2 in Hrun by tauto. discriminate Hrun.
    + rewrite (bool_decide_eq_false_2 _ Hme) in Hrun. discriminate Hrun.
Qed.

(** X1: the fidelity the fitter returns solves the least-squares problem of its
    documentation: no other value of [f] gives a smaller sum of squared
    residuals [Σ (f (e_U − u_U) − (m_U − u_U))²]. *)
Theorem least_squares_minimizes (m e u : list Qc) (f : Qc)
    (residuals : list Qc) :
  least_squares_xeb_fidelity_from_expectations m e u = inr (f, residuals) →
  ∀ g, squared_error f m e u ≤ squared_error g m e u.
Proof.
  intros Hrun g.
  apply least_squares_inv in Hrun as (_ & _ & Hden & Hf & _).
  apply Qcle_minus_iff.
  rewrite (squared_error_expand g), (squared_error_expand f).
  assert (Hnum : lsq_numerator m e u = f * lsq_denominator m e u).
  { rewrite Hf. field. exact Hden. }
  rewrite Hnum.
  replace (g * g * lsq_denominator m e u
           - (1 + 1) * g * (f * lsq_denominator m e u)
           + squared_error 0 m e u
           + - (f * f * lsq_denominator m e u
                - (1 + 1) * f * (f * lsq_denominator m e u)
                + squared_error 0 m e u))
    with (lsq_denominator m e u * square (g - f)) by (unfold square; ring).
  apply Qcmult_nonneg_nonneg; [|apply square_nonneg].
  apply big_sum_nonneg. intros U. apply square_nonneg.
Qed.

Lemma least_squares_minimizes_witness :
  ∃ f residuals,
    least_squares_xeb_fidelity_from_expectations
      [Q2Qc (1 # 2); Q2Qc (1 # 3)] [Q2Qc (3 # 4); Q2Qc (1 # 2)]
      [Q2Qc (1 # 4); Q2Qc (1 # 4)] = inr (f, residuals)
    ∧ squared_error f [Q2Qc (1 # 2); Q2Qc (1 # 3)] [Q2Qc (3 # 4); Q2Qc (1 # 2)]
        [Q2Qc (1 # 4); Q2Qc (1 # 4)]
      ≤ squared_error 1 [Q2Qc (1 # 2); Q2Qc (1 # 3)] [Q2Qc (3 # 4); Q2Qc (1 # 2)]
          [Q2Qc (1 # 4); Q2Qc (1 # 4)].
Proof.
  destruct (least_squares_xeb_fidelity_from_expectations
              [Q2Qc (1 # 2); Q2Qc (1 # 3)] [Q2Qc (3 # 4); Q2Qc (1 # 2)]
              [Q2Qc (1 # 4); Q2Qc (1 # 4)]) as [err|[f residuals]] eqn:Hrun.
  - vm_compute in Hrun. discriminate Hrun.
  - exists f, residuals. split; [reflexivity|].
    apply (least_squares_minimizes _ _ _ f residuals Hrun).
Defined.

(** X2: the residuals the fitter returns satisfy the normal equation of the
    least-squares problem: they are orthogonal to the regressor,
    [Σ residual_U (e_U − u_U) = 0]. *)
Theorem least_squares_normal_equation (m e u : list Qc) (f : Qc)
    (residuals : list Qc) :
  least_squares_xeb_fidelity_from_expectations m e u = inr (f, residuals) →
  big_sum (length m) (λ U, entry residuals U * (entry e U - entry u U)) = 0.
Proof.
  intros Hrun.
  apply least_squares_inv in Hrun as (Hme & Heu & Hden & Hf & Hres).
  rewrite (big_sum_ext _ _
             (λ U, f * square (entry e U - entry u U)
                   + - (1) * ((entry m U - entry u U) * (entry e U - entry u U)))).
  - rewrite big_sum_plus, !big_sum_scale.
    fold (lsq_denominator m e u). fold (lsq_numerator m e u).
    rewrite Hf. field. exact Hden.
  - intros U HU. unfold entry at 1.
    assert (Hlook : residuals !! U
                    = Some (f * (entry e U - entry u U) - (entry m U - entry u U))).
    { rewrite Hres, list_lookup_fmap, zip3_lookup by assumption. reflexivity. }
    rewrite (nth_lookup_Some _ _ _ _ Hlook). unfold square. ring.
Qed.

Lemma least_squares_normal_equation_witness :
  ∃ f residuals,
    least_squares_xeb_fidelity_from_expectations
      [Q2Qc (1 # 2); Q2Qc (1 # 3)] [Q2Qc (3 # 4); Q2Qc (1 # 2)]
      [Q2Qc (1 # 4); Q2Qc (1 # 4)] = inr (f, residuals)
    ∧ big_sum 2 (λ U, entry residuals U
                      * (entry [Q2Qc (3 # 4); Q2Qc (1 # 2)] U
                         - entry [Q2Qc (1 # 4); Q2Qc (1 # 4)] U)) = 0.
Proof.
  destruct (least_squares_xeb_fidelity_from_expectations
              [Q2Qc (1 # 2); Q2Qc (1 # 3)] [Q2Qc (3 # 4); Q2Qc (1 # 2)]
              [Q2Qc (1 # 4); Q2Qc (1 # 4)]) as [err|[f residuals]] eqn:Hrun.
  - vm_compute in Hrun. discriminate Hrun.
  - exists f, residuals. split; [reflexivity|].
    apply (least_squares_normal_equation _ _ _ f residuals Hrun).
Defined.

(** X3: data that follow the depolarizing model exactly are fitted exactly.
    If [m_U − u_U = c (e_U − u_U)] for every circuit and some [e_U ≠ u_U],
    the fitter returns the fidelity [c] and residuals that are all zero; in
    particular [m = e] gives fidelity 1 and [m = u] gives fidelity 0. *)
Theorem least_squares_exact_recovery (m e u : list Qc) (c : Qc) :
  length m = length e → length e = length u →
  lsq_denominator m e u ≠ 0 →
  (∀ U, (U < length m)%nat →
        entry m U - entry u U = c * (entry e U - entry u U)) →
  least_squares_xeb_fidelity_from_expectations m e u
  = inr (c, replicate (length m) 0).
Proof.
  intros Hme Heu Hden Hmodel.
  rewrite least_squares_unfold by assumption.
  assert (Hnum : lsq_numerator m e u = c * lsq_denominator m e u).
  { unfold lsq_numerator, lsq_denominator. rewrite <- big_sum_scale.
    apply big_sum_ext. intros U HU. rewrite (Hmodel U HU).
    unfold square. ring. }
  unfold py_div. rewrite decide_False by exact Hden. simpl.
  assert (Hc : lsq_numerator m e u / lsq_denominator m e u = c).
  { rewrite Hnum. field. exact Hden. }
  rewrite Hc. do 2 f_equal.
  apply list_eq. intros U.
  destruct (decide (U < length m)%nat) as [HU|HU].
  - rewrite list_lookup_fmap, zip3_lookup by assumption. simpl.
    rewrite lookup_replicate_2 by exact HU. f_equal.
    rewrite (Hmodel U HU). ring.
  - rewrite !lookup_ge_None_2; [reflexivity | |].
    + rewrite length_replicate. lia.
    + rewrite length_map, zip3_length by assumption. lia.
Qed.

Lemma least_squares_exact_recovery_witness :
  least_squares_xeb_fidelity_from_expectations
    [Q2Qc (3 # 4); Q2Qc (1 # 2)] [Q2Qc (3 # 4); Q2Qc (1 # 2)]
    [Q2Qc (1 # 4); Q2Qc (1 # 4)] = inr (1, [0; 0])
  ∧ least_squares_xeb_fidelity_from_expectations
      [Q2Qc (1 # 4); Q2Qc (1 # 4)] [Q2Qc (3 # 4); Q2Qc (1 # 2)]
      [Q2Qc (1 # 4); Q2Qc (1 # 4)] = inr (0, [0; 0]).
Proof.
  split.
  - apply (least_squares_exact_recovery
             [Q2Qc (3 # 4); Q2Qc (1 # 2)] [Q2Qc (3 # 4); Q2Qc (1 # 2)]
             [Q2Qc (1 # 4); Q2Qc (1 # 4)] 1); [reflexivity | reflexivity | |].
    + refine (bool_decide_unpack _ _). vm_compute. exact I.
    + intros U HU. ring.
  - apply (least_squares_exact_recovery
             [Q2Qc (1 # 4); Q2Qc (1 # 4)] [Q2Qc (3 # 4); Q2Qc (1 # 2)]
             [Q2Qc (1 # 4); Q2Qc (1 # 4)] 0); [reflexivity | reflexivity | |].
    + refine (bool_decide_unpack _ _). vm_compute. exact I.
    + intros U HU. destruct U as [|[|U]]; [| |simpl in HU; lia];
        apply Qc_is_canon; reflexivity.
Defined.

(** ** The linear estimator *)

Lemma np_sum_replicate (n : nat) (p : Qc) :
  np_sum (replicate n p) = Qc_of_nat n * p.
Proof.
  induction n as [|n IH].
  - unfold Qc_of_nat. change (Z.of_nat 0) with 0%Z. rewrite Z2Qc_inj_0.
    unfold np_sum. simpl. ring.
  - cbn [replicate]. rewrite np_sum_cons, IH. unfold Qc_of_nat.
    rewrite Nat2Z.inj_succ, <- Z.add_1_r, Z2Qc_inj_add, Z2Qc_inj_1. ring.
Qed.

(** X4: on [M > 0] observations that all have the same ideal probability
    [p], the linear estimator returns [D p − 1]: 0 for the probability [1/D]
    of a uniformly random bitstring, 1 for twice that probability. *)
Theorem linear_xeb_fidelity_constant (D : Z) (M : nat) (p : Qc) :
  M ≠ O →
  linear_xeb_fidelity_from_probabilities D (replicate M p)
  = Some (Qc_of_Z D * p - 1)
  ∧ (D ≠ 0%Z → p = 1 / Qc_of_Z D →
     linear_xeb_fidelity_from_probabilities D (replicate M p) = Some 0)
  ∧ (D ≠ 0%Z → p = (1 + 1) / Qc_of_Z D →
     linear_xeb_fidelity_from_probabilities D (replicate M p) = Some 1).
Proof.
  intros HM.
  assert (Hconst : linear_xeb_fidelity_from_probabilities D (replicate M p)
                   = Some (Qc_of_Z D * p - 1)).
  { unfold linear_xeb_fidelity_from_probabilities, np_mean, np_div.
    rewrite length_replicate, np_sum_replicate.
    rewrite decide_False by (apply Qc_of_nat_nonzero, HM). simpl.
    do 2 f_equal. field. apply Qc_of_nat_nonzero, HM. }
  assert (HD : D ≠ 0%Z → Qc_of_Z D ≠ 0).
  { intros HD0 H. rewrite <- Z2Qc_inj_0 in H. apply Z2Qc_inj in H. lia. }
  split; [exact Hconst|]. split; intros HD0 ->; rewrite Hconst; f_equal;
    field; apply HD, HD0.
Qed.

Lemma linear_xeb_fidelity_constant_witness :
  linear_xeb_fidelity_from_probabilities 4 (replicate 3 (1 / Qc_of_Z 4))
  = Some 0.
Proof.
  apply (linear_xeb_fidelity_constant 4 3 (1 / Qc_of_Z 4));
    [discriminate | discriminate | reflexivity].
Defined.

(** ** The single-circuit evaluator: its two sources of probabilities *)

Lemma mapM_result_ok {A B} (f : A → result B) (xs : list A) (ys : list B) :
  Forall2 (λ v w, f v = inr w) xs ys → mapM f xs = inr ys.
Proof.
  induction 1 as [|v w xs ys Hv _ IH]; [reflexivity|].
  simpl. rewrite Hv. simpl. rewrite IH. reflexivity.
Qed.

Lemma mapM_result_map {A B} (f : A → result B) (g : A → B) (xs : list A) :
  (∀ v, v ∈ xs → f v = inr (g v)) → mapM f xs = inr (map g xs).
Proof.
  intros Hfg. apply mapM_result_ok.
  induction xs as [|v xs IH]; simpl; constructor.
  - apply Hfg. constructor.
  - apply IH. intros w Hw. apply Hfg. constructor. exact Hw.
Qed.

Lemma xeb_fidelity_in_range (QubitOrder : Type)
    (qid_shape : Circuit → list Z)
    (final_state_vector : Circuit → QubitOrder → result (list Complex))
    (circuit : Circuit) (bitstrings : list Z) (qubit_order : QubitOrder)
    (amplitudes : option (gmap Z Complex))
    (estimator : Z → list Qc → option Qc) :
  (∀ b, b ∈ bitstrings → (0 ≤ b < np_product (qid_shape circuit))%Z) →
  xeb_fidelity QubitOrder qid_shape final_state_vector circuit bitstrings
    qubit_order amplitudes estimator
  = bitstring_probabilities ←
      match amplitudes with
      | None =>
          output_state ← final_state_vector circuit qubit_order;
          mapM (np_index (map abs2 output_state)) bitstrings
      | Some amplitudes =>
          amps ← mapM (mapping_get amplitudes) bitstrings;
          mret (map abs2 amps)
      end;
    mret (estimator (np_product (qid_shape circuit)) bitstring_probabilities).
Proof.
  intros Hin. unfold xeb_fidelity. rewrite range_check_loop.
  destruct (forallb _ bitstrings) eqn:Hall; [reflexivity|].
  exfalso. apply not_true_iff_false in Hall. apply Hall.
  apply forallb_forall. intros b Hb. apply list_elem_of_In in Hb.
  destruct (Hin b Hb).
  apply andb_true_iff. split; apply bool_decide_eq_true_2; lia.
Qed.

(** X5: with an amplitude mapping the simulator is never consulted.  Let
    [D] be the dimension the function computes, the product of the site
    dimensions in 64-bit arithmetic.  For bitstrings in [0, D) the result is
    the estimator's on the squared magnitudes of the mapped amplitudes when
    every bitstring has an entry, and [KeyError] when some bitstring has
    none; both hold for every simulator, also one that raises. *)
Theorem xeb_fidelity_with_amplitudes (QubitOrder : Type)
    (qid_shape : Circuit → list Z)
    (final_state_vector : Circuit → QubitOrder → result (list Complex))
    (circuit : Circuit) (bitstrings : list Z) (qubit_order : QubitOrder)
    (amplitudes : gmap Z Complex) (estimator : Z → list Qc → option Qc) :
  Forall (λ d, (0 < d < 2 ^ 63)%Z) (qid_shape circuit) →
  (∀ b, b ∈ bitstrings → (0 ≤ b < np_product (qid_shape circuit))%Z) →
  ((∀ b, b ∈ bitstrings → is_Some (amplitudes !! b)) →
   xeb_fidelity QubitOrder qid_shape final_state_vector circuit bitstrings
     qubit_order (Some amplitudes) estimator
   = inr (estimator (np_product (qid_shape circuit))
            (map (λ b, abs2 (default (0, 0) (amplitudes !! b))) bitstrings)))
  ∧ ((∃ b, b ∈ bitstrings ∧ amplitudes !! b = None) →
     xeb_fidelity QubitOrder qid_shape final_state_vector circuit bitstrings
       qubit_order (Some amplitudes) estimator = raise KeyError).
Proof.
  intros _ Hin. rewrite xeb_fidelity_in_range by exact Hin. split.
  - intros Hall.
    rewrite (mapM_result_map _ (λ b, default (0, 0) (amplitudes !! b))).
    + simpl. rewrite <- list_fmap_compose. reflexivity.
    + intros b Hb. unfold mapping_get.
      destruct (Hall b Hb) as [a ->]. reflexivity.
  - intros Hmissing.
    rewrite (mapM_result_raise _ KeyError); [reflexivity | |].
    + intros b _. unfold mapping_get.
      destruct (amplitudes !! b); [right; eexists; reflexivity | left; reflexivity].
    + destruct Hmissing as (b & Hb & Hnone). exists b. split; [exact Hb|].
      unfold mapping_get. rewrite Hnone. reflexivity.
Qed.

Lemma xeb_fidelity_with_amplitudes_witness :
  xeb_fidelity unit example_qid_shape failing_final_state_vector
    example_circuit_3 [0%Z; 3%Z] () (Some example_amplitudes)
    linear_xeb_fidelity_from_probabilities
  = inr (linear_xeb_fidelity_from_probabilities
           (np_product (example_qid_shape example_circuit_3))
           (map (λ b, abs2 (default (0, 0) (example_amplitudes !! b)))
                [0%Z; 3%Z]))
  ∧ xeb_fidelity unit example_qid_shape failing_final_state_vector
      example_circuit_3 [0%Z; 1%Z] () (Some example_amplitudes)
      linear_xeb_fidelity_from_probabilities = raise KeyError.
Proof.
  assert (Hshape : Forall (λ d, (0 < d < 2 ^ 63)%Z)
                          (example_qid_shape example_circuit_3)).
  { refine (bool_decide_unpack _ _). vm_compute. exact I. }
  split.
  - refine (proj1 (xeb_fidelity_with_amplitudes unit example_qid_shape
                     failing_final_state_vector example_circuit_3 [0%Z; 3%Z] ()
                     example_amplitudes linear_xeb_fidelity_from_probabilities
                     Hshape _) _).
    + intros b Hb. rewrite !elem_of_cons, elem_of_nil in Hb.
      destruct Hb as [->|[->|[]]]; vm_compute; split; congruence.
    + intros b Hb. rewrite !elem_of_cons, elem_of_nil in Hb.
      destruct Hb as [->|[->|[]]]; vm_compute; eexists; reflexivity.
  - refine (proj2 (xeb_fidelity_with_amplitudes unit example_qid_shape
                     failing_final_state_vector example_circuit_3 [0%Z; 1%Z] ()
                     example_amplitudes linear_xeb_fidelity_from_probabilities
                     Hshape _) _).
    + intros b Hb. rewrite !elem_of_cons, elem_of_nil in Hb.
      destruct Hb as [->|[->|[]]]; vm_compute; split; congruence.
    + exists 1%Z. split; [do 2 constructor | vm_compute; reflexivity].
Defined.

Lemma np_index_in_range {A} (a : list A) (d : A) (i : Z) :
  (0 ≤ i < Z.of_nat (length a))%Z →
  np_index a i = inr (nth (Z.to_nat i) a d).
Proof.
  intros Hi. unfold np_index. rewrite bool_decide_eq_false_2 by lia.
  destruct (lookup_lt_is_Some_2 a (Z.to_nat i) ltac:(lia)) as [v Hv].
  rewrite Hv. rewrite (nth_lookup_Some _ _ _ _ Hv). reflexivity.
Qed.

(** X6: without an amplitude mapping the probabilities come from the
    simulator.  Let [D] be the dimension the function computes, the product
    of the site dimensions in 64-bit arithmetic.  For bitstrings in [0, D),
    an exception of the simulator is the result of [xeb_fidelity]; a state
    vector with at least [D] entries gives the estimator's value on the
    squared magnitudes of the entries the bitstrings index, and no
    [IndexError]. *)
Theorem xeb_fidelity_simulated (QubitOrder : Type)
    (qid_shape : Circuit → list Z)
    (final_state_vector : Circuit → QubitOrder → result (list Complex))
    (circuit : Circuit) (bitstrings : list Z) (qubit_order : QubitOrder)
    (estimator : Z → list Qc → option Qc) :
  Forall (λ d, (0 < d < 2 ^ 63)%Z) (qid_shape circuit) →
  (∀ b, b ∈ bitstrings → (0 ≤ b < np_product (qid_shape circuit))%Z) →
  (∀ e, final_state_vector circuit qubit_order = inl e →
        xeb_fidelity QubitOrder qid_shape final_state_vector circuit
          bitstrings qubit_order None estimator = inl e)
  ∧ (∀ output_state,
       final_state_vector circuit qubit_order = inr output_state →
       (np_product (qid_shape circuit) ≤ Z.of_nat (length output_state))%Z →
       xeb_fidelity QubitOrder qid_shape final_state_vector circuit
         bitstrings qubit_order None estimator
       = inr (estimator (np_product (qid_shape circuit))
                (map (λ b, abs2 (nth (Z.to_nat b) output_state (0, 0)))
                     bitstrings))).
Proof.
  intros _ Hin. rewrite xeb_fidelity_in_range by exact Hin. split.
  - intros e ->. reflexivity.
  - intros output_state -> Hlen. simpl.
    rewrite (mapM_result_map _
               (λ b, abs2 (nth (Z.to_nat b) output_state (0, 0)))).
    + reflexivity.
    + intros b Hb. specialize (Hin b Hb).
      rewrite (np_index_in_range _ (abs2 (0, 0)))
        by (rewrite length_map; lia).
      f_equal. apply (map_nth abs2).
Qed.

Lemma xeb_fidelity_simulated_witness :
  xeb_fidelity unit example_qid_shape failing_final_state_vector
    example_circuit_3 [0%Z; 3%Z] () None
    linear_xeb_fidelity_from_probabilities = inl (CollaboratorError 1)
  ∧ xeb_fidelity unit example_qid_shape example_final_state_vector
      example_circuit_3 [0%Z; 3%Z] () None
      linear_xeb_fidelity_from_probabilities
    = inr (linear_xeb_fidelity_from_probabilities
             (np_product (example_qid_shape example_circuit_3))
             (map (λ b, abs2 (nth (Z.to_nat b)
                                [(Q2Qc (1 # 2), 0); (Q2Qc (1 # 2), 0);
                                 (0, Q2Qc (1 # 2)); (0, - Q2Qc (1 # 2))]
                                (0, 0)))
                  [0%Z; 3%Z])).
Proof.
  assert (Hin : ∀ b, b ∈ [0%Z; 3%Z] →
                     (0 ≤ b < np_product (example_qid_shape example_circuit_3))%Z).
  { intros b Hb. rewrite !elem_of_cons, elem_of_nil in Hb.
    destruct Hb as [->|[->|[]]]; vm_compute; split; congruence. }
  assert (Hshape : Forall (λ d, (0 < d < 2 ^ 63)%Z)
                          (example_qid_shape example_circuit_3)).
  { refine (bool_decide_unpack _ _). vm_compute. exact I. }
  split.
  - refine (proj1 (xeb_fidelity_simulated unit example_qid_shape
                     failing_final_state_vector example_circuit_3 [0%Z; 3%Z] ()
                     linear_xeb_fidelity_from_probabilities Hshape Hin) _ _).
    reflexivity.
  - refine (proj2 (xeb_fidelity_simulated unit example_qid_shape
                     example_final_state_vector example_circuit_3 [0%Z; 3%Z] ()
                     linear_xeb_fidelity_from_probabilities Hshape Hin) _ _ _).
    + reflexivity.
    + vm_compute. congruence.
Defined.

(** X7: supplying the amplitudes gives the estimate that simulating gives.
    If the mapping holds, for every observed bitstring, the entry of the
    simulator's state vector at that index, [xeb_fidelity] returns the same
    result with the mapping as without it. *)
Theorem xeb_fidelity_amplitudes_agree (QubitOrder : Type)
    (qid_shape : Circuit → list Z)
    (final_state_vector : Circuit → QubitOrder → result (list Complex))
    (circuit : Circuit) (bitstrings : list Z) (qubit_order : QubitOrder)
    (amplitudes : gmap Z Complex) (output_state : list Complex)
    (estimator : Z → list Qc → option Qc) :
  (∀ b, b ∈ bitstrings → (0 ≤ b < np_product (qid_shape circuit))%Z) →
  final_state_vector circuit qubit_order = inr output_state →
  (∀ b, b ∈ bitstrings → is_Some (amplitudes !! b)
        ∧ amplitudes !! b = output_state !! Z.to_nat b) →
  xeb_fidelity QubitOrder qid_shape final_state_vector circuit bitstrings
    qubit_order (Some amplitudes) estimator
  = xeb_fidelity QubitOrder qid_shape final_state_vector circuit bitstrings
      qubit_order None estimator.
Proof.
  intros Hin Hstate Hagree.
  rewrite !xeb_fidelity_in_range by exact Hin. rewrite Hstate. simpl.
  rewrite (mapM_result_map _ (λ b, default (0, 0) (amplitudes !! b))).
  - rewrite (mapM_result_map _ (λ b, abs2 (default (0, 0) (amplitudes !! b)))).
    + simpl. rewrite <- list_fmap_compose. reflexivity.
    + intros b Hb. destruct (Hagree b Hb) as [[a Ha] Heq].
      unfold np_index. specialize (Hin b Hb).
      rewrite bool_decide_eq_false_2 by lia.
      rewrite list_lookup_fmap, <- Heq, Ha. reflexivity.
  - intros b Hb. destruct (Hagree b Hb) as [[a Ha] _].
    unfold mapping_get. rewrite Ha. reflexivity.
Qed.

Lemma xeb_fidelity_amplitudes_agree_witness :
  xeb_fidelity unit example_qid_shape example_final_state_vector
    example_circuit_3 [0%Z; 3%Z; 0%Z] () (Some example_amplitudes)
    linear_xeb_fidelity_from_probabilities
  = xeb_fidelity unit example_qid_shape example_final_state_vector
      example_circuit_3 [0%Z; 3%Z; 0%Z] () None
      linear_xeb_fidelity_from_probabilities.
Proof.
  apply (xeb_fidelity_amplitudes_agree unit example_qid_shape
           example_final_state_vector example_circuit_3 [0%Z; 3%Z; 0%Z] ()
           example_amplitudes
           [(Q2Qc (1 # 2), 0); (Q2Qc (1 # 2), 0); (0, Q2Qc (1 # 2));
            (0, - Q2Qc (1 # 2))]).
  - intros b Hb. rewrite !elem_of_cons, elem_of_nil in Hb.
    destruct Hb as [->|[->|[->|[]]]]; vm_compute; split; congruence.
  - reflexivity.
  - intros b Hb. rewrite !elem_of_cons, elem_of_nil in Hb.
    destruct Hb as [->|[->|[->|[]]]];
      (split; [vm_compute; eexists; reflexivity | vm_compute; reflexivity]).
Defined.

Lemma linear_xeb_mean (D : Z) (p : list Qc) :
  p ≠ [] →
  linear_xeb_fidelity_from_probabilities D p
  = Some (Qc_of_Z D * (np_sum p / Qc_of_nat (length p)) - 1).
Proof.
  intros Hp. unfold linear_xeb_fidelity_from_probabilities, np_mean, np_div.
  rewrite decide_False; [reflexivity|].
  apply Qc_of_nat_nonzero. destruct p; [congruence | discriminate].
Qed.

(** X8: let [D] be the dimension [xeb_fidelity] computes, the product of the
    site dimensions in 64-bit arithmetic.  [linear_xeb_fidelity] on a
    non-empty sequence of bitstrings in [0, D) whose amplitudes are all
    supplied returns [D · mean_b |a_b|² − 1], a finite value, without
    running the simulator. *)
Theorem linear_xeb_fidelity_with_amplitudes (QubitOrder : Type)
    (qid_shape : Circuit → list Z)
    (final_state_vector : Circuit → QubitOrder → result (list Complex))
    (circuit : Circuit) (bitstrings : list Z) (qubit_order : QubitOrder)
    (amplitudes : gmap Z Complex) :
  Forall (λ d, (0 < d < 2 ^ 63)%Z) (qid_shape circuit) →
  bitstrings ≠ [] →
  (∀ b, b ∈ bitstrings → (0 ≤ b < np_product (qid_shape circuit))%Z) →
  (∀ b, b ∈ bitstrings → is_Some (amplitudes !! b)) →
  linear_xeb_fidelity QubitOrder qid_shape final_state_vector circuit
    bitstrings qubit_order (Some amplitudes)
  = inr (Some (Qc_of_Z (np_product (qid_shape circuit))
               * (big_sum (length bitstrings)
                    (λ k, abs2 (default (0, 0)
                                  (amplitudes !! nth k bitstrings 0%Z)))
                  / Qc_of_nat (length bitstrings)) - 1)).
Proof.
  intros _ Hne Hin Hall. unfold linear_xeb_fidelity.
  rewrite xeb_fidelity_in_range by exact Hin.
  rewrite (mapM_result_map _ (λ b, default (0, 0) (amplitudes !! b))).
  - simpl. rewrite linear_xeb_mean
      by (destruct bitstrings; [congruence | discriminate]).
    rewrite !length_map, np_sum_big_sum, !length_map.
    rewrite (big_sum_ext _ _
               (λ k, abs2 (default (0, 0)
                             (amplitudes !! nth k bitstrings 0%Z))));
      [reflexivity|].
    intros k Hk. unfold entry. rewrite map_map.
    rewrite (nth_indep _ 0
               ((λ b, abs2 (default (0, 0) (amplitudes !! b))) 0%Z))
      by (rewrite length_map; exact Hk).
    apply (map_nth (λ b, abs2 (default (0, 0) (amplitudes !! b)))).
  - intros b Hb. unfold mapping_get. destruct (Hall b Hb) as [a ->].
    reflexivity.
Qed.

Lemma linear_xeb_fidelity_with_amplitudes_witness :
  linear_xeb_fidelity unit example_qid_shape failing_final_state_vector
    example_circuit_3 [0%Z; 3%Z] () (Some example_amplitudes)
  = inr (Some (Qc_of_Z (np_product (example_qid_shape example_circuit_3))
               * (big_sum (length [0%Z; 3%Z])
                    (λ k, abs2 (default (0, 0)
                                  (example_amplitudes !! nth k [0%Z; 3%Z] 0%Z)))
                  / Qc_of_nat (length [0%Z; 3%Z])) - 1)).
Proof.
  refine (linear_xeb_fidelity_with_amplitudes unit example_qid_shape
            failing_final_state_vector example_circuit_3 [0%Z; 3%Z] ()
            example_amplitudes _ _ _ _).
  - refine (bool_decide_unpack _ _). vm_compute. exact I.
  - discriminate.
  - intros b Hb. rewrite !elem_of_cons, elem_of_nil in Hb.
    destruct Hb as [->|[->|[]]]; vm_compute; split; congruence.
  - intros b Hb. rewrite !elem_of_cons, elem_of_nil in Hb.
    destruct Hb as [->|[->|[]]]; vm_compute; eexists; reflexivity.
Defined.

(** ** The sampled distributions *)

Lemma foldl_max_ge (xs : list nat) (a : nat) :
  (a ≤ foldl Nat.max a xs)%nat
  ∧ ∀ v, v ∈ xs → (v ≤ foldl Nat.max a xs)%nat.
Proof.
  revert a. induction xs as [|w xs IH]; intros a; simpl.
  - split; [lia|]. intros v Hv. apply elem_of_nil in Hv. destruct Hv.
  - destruct (IH (Nat.max a w)) as [Hge Hall]. split; [lia|].
    intros v Hv. apply elem_of_cons in Hv as [->|Hv]; [lia | apply Hall, Hv].
Qed.

Lemma foldl_max_bound (xs : list nat) (a b : nat) :
  (a ≤ b)%nat → (∀ v, v ∈ xs → (v ≤ b)%nat) → (foldl Nat.max a xs ≤ b)%nat.
Proof.
  revert a. induction xs as [|w xs IH]; intros a Ha Hall; simpl; [exact Ha|].
  apply IH.
  - specialize (Hall w ltac:(constructor)). lia.
  - intros v Hv. apply Hall. constructor. exact Hv.
Qed.

Lemma sum_list_indicator (a start size : nat) :
  (start ≤ a < start + size)%nat →
  sum_list (map (λ v, if decide (a = v) then 1%nat else 0%nat) (seq start size))
  = 1%nat.
Proof.
  revert start. induction size as [|size IH]; intros start Ha; [lia|].
  simpl. destruct (decide (a = start)) as [->|Hne].
  - assert (Hzero : ∀ n s, (start < s)%nat →
              sum_list (map (λ v, if decide (start = v) then 1%nat else 0%nat)
                            (seq s n)) = 0%nat).
    { induction n as [|n IHn]; intros s Hs; [reflexivity|].
      simpl. rewrite decide_False by lia. rewrite IHn by lia. reflexivity. }
    rewrite Hzero by lia. reflexivity.
  - rewrite IH by lia. reflexivity.
Qed.

Lemma sum_list_counts (x : list nat) (size : nat) :
  (∀ v, v ∈ x → (v < size)%nat) →
  sum_list (map (λ v, length (filter (λ i, i = v) x)) (seq 0 size))
  = length x.
Proof.
  induction x as [|a x IH]; intros Hlt.
  - simpl. induction (seq 0 size) as [|v l IHl]; [reflexivity|].
    simpl. exact IHl.
  - rewrite (map_ext_elem_of _
               (λ v, ((if decide (a = v) then 1 else 0)
                      + length (filter (λ i, i = v) x))%nat)).
    + assert (Hsplit : ∀ (f g : nat → nat) l,
                sum_list (map (λ v, (f v + g v)%nat) l)
                = (sum_list (map f l) + sum_list (map g l))%nat).
      { intros f g l. induction l as [|v l IHl]; simpl; [reflexivity|].
        rewrite IHl. lia. }
      rewrite Hsplit, IH, sum_list_indicator.
      * reflexivity.
      * specialize (Hlt a ltac:(constructor)). lia.
      * intros v Hv. apply Hlt. constructor. exact Hv.
    + intros v _. rewrite filter_cons.
      destruct (decide (a = v)); reflexivity.
Qed.

Lemma np_bincount_length (x : list nat) (minlength : nat) :
  (minlength ≤ length (np_bincount x minlength))%nat
  ∧ (∀ v, v ∈ x → (v < length (np_bincount x minlength))%nat)
  ∧ ((∀ v, v ∈ x → (v < minlength)%nat) →
     length (np_bincount x minlength) = minlength).
Proof.
  unfold np_bincount. rewrite length_map, length_seq.
  destruct (foldl_max_ge (map S x) minlength) as [Hge Hall].
  split; [exact Hge|]. split.
  - intros v Hv. specialize (Hall (S v)).
    rewrite list_elem_of_fmap in Hall.
    specialize (Hall ltac:(exists v; split; [reflexivity | exact Hv])). lia.
  - intros Hsmall. apply Nat.le_antisymm; [|exact Hge].
    apply foldl_max_bound; [lia|].
    intros w Hw. apply list_elem_of_fmap in Hw as (v & -> & Hv).
    specialize (Hsmall v Hv). lia.
Qed.

Lemma np_bincount_total (x : list nat) (minlength : nat) :
  sum_list (np_bincount x minlength) = length x.
Proof.
  destruct (np_bincount_length x minlength) as (_ & Hlt & _).
  unfold np_bincount in *. rewrite length_map, length_seq in Hlt.
  apply sum_list_counts. exact Hlt.
Qed.

Lemma np_sum_fractions (counts : list nat) (n : Qc) :
  np_sum (map (λ count, Qc_of_nat count / n) counts)
  = Qc_of_nat (sum_list counts) / n.
Proof.
  induction counts as [|c counts IH].
  - change (np_sum (map _ [])) with (0 : Qc).
    change (sum_list []) with 0%nat.
    unfold Qc_of_nat. change (Z.of_nat 0) with 0%Z.
    rewrite Z2Qc_inj_0. unfold Qcdiv. ring.
  - cbn [map sum_list sum_list_with]. rewrite np_sum_cons, IH.
    unfold Qc_of_nat, id. rewrite Nat2Z.inj_add, Z2Qc_inj_add.
    unfold Qcdiv. ring.
Qed.

Lemma Qc_of_nat_nonneg (n : nat) : 0 ≤ Qc_of_nat n.
Proof.
  unfold Qc_of_nat. rewrite <- Z2Qc_inj_0.
  apply (proj1 (Z2Qc_inj_le 0 (Z.of_nat n))). lia.
Qed.

(** The distribution computed from the measured integers is a probability
    vector, or all nan when nothing was measured. *)
Lemma sampled_probs_of_spec (sampled_inds : list nat) :
  (4 ≤ length (sampled_probs_of sampled_inds))%nat
  ∧ ((∀ v, v ∈ sampled_inds → (v < 4)%nat) →
     length (sampled_probs_of sampled_inds) = 4%nat)
  ∧ (sampled_inds = [] →
     Forall (λ p, p = None) (sampled_probs_of sampled_inds))
  ∧ (sampled_inds ≠ [] →
     ∃ probs, sampled_probs_of sampled_inds = map Some probs
              ∧ Forall (λ p, 0 ≤ p) probs
              ∧ np_sum probs = 1).
Proof.
  unfold sampled_probs_of.
  destruct (np_bincount_length sampled_inds (2 ^ 2)) as (Hge & _ & Hsmall).
  rewrite length_map. split; [exact Hge|]. split; [exact Hsmall|]. split.
  - intros ->. apply Forall_fmap, Forall_true. intros count.
    simpl. unfold np_div. rewrite decide_True; [reflexivity|].
    unfold Qc_of_nat. simpl. apply Z2Qc_inj_0.
  - intros Hne.
    assert (Hn : Qc_of_nat (length sampled_inds) ≠ 0).
    { apply Qc_of_nat_nonzero. destruct sampled_inds; [congruence | discriminate]. }
    exists (map (λ count, Qc_of_nat count / Qc_of_nat (length sampled_inds))
                (np_bincount sampled_inds (2 ^ 2))).
    split; [|split].
    + rewrite <- list_fmap_compose. apply map_ext_elem_of.
      intros count _. simpl. unfold np_div. rewrite decide_False by exact Hn.
      reflexivity.
    + apply Forall_fmap, Forall_true. intros count. simpl.
      unfold Qcdiv. apply Qcmult_nonneg_nonneg; [apply Qc_of_nat_nonneg|].
      destruct (Qcle_lt_or_eq _ _ (Qc_of_nat_nonneg (length sampled_inds)))
        as [Hpos|Hzero]; [|congruence].
      apply Qclt_le_weak, Qcinv_pos, Hpos.
    + rewrite np_sum_fractions, np_bincount_total. field. exact Hn.
Qed.

(** ** One call of the sampler on a batch *)

Section BatchCallProofs.
Variable run_batch : list Circuit → Z → result (list (list (list nat))).

Lemma sample_records_loop_inv (tasks : list _Sample2qXEBTask)
    (results : list (list (list nat))) (records out : list SampledRecord) :
  length results = length tasks →
  for_each (λ records '(task, nested_result),
    match nested_result with
    | [sampled_inds] =>
        let sampled_probs :=
          map (λ count, np_div (Qc_of_nat count)
                               (Qc_of_nat (length sampled_inds)))
              (np_bincount sampled_inds (2 ^ 2)) in
        mret (records ++ [{| sampled_circuit_i := task_circuit_i task;
                             sampled_cycle_depth := task_cycle_depth task;
                             sampled_probs := sampled_probs |}])
    | _ => raise ValueError
    end) (zip tasks results) records
  = inr out →
  ∃ new_records,
    out = records ++ new_records
    ∧ Forall2 (λ task record,
                 sampled_key record = task_key task
                 ∧ ∃ sampled_inds,
                     sampled_probs record = sampled_probs_of sampled_inds)
              tasks new_records.
Proof.
  revert results records.
  induction tasks as [|task tasks IH]; intros [|nested results] records Hlen Hrun;
    try discriminate Hlen.
  - injection Hrun as <-. exists []. rewrite app_nil_r. split; constructor.
  - injection Hlen as Hlen.
    destruct nested as [|sampled_inds [|? ?]]; try discriminate Hrun.
    cbn -[Nat.pow np_bincount np_div] in Hrun.
    match type of Hrun with
    | context [for_each _ _ (records ++ [?r])] =>
        destruct (IH results (records ++ [r]) Hlen Hrun)
          as (new_records & -> & Hall);
        exists (r :: new_records)
    end.
    split; [rewrite <- app_assoc; reflexivity|].
    constructor; [|exact Hall].
    split; [reflexivity|]. exists sampled_inds. reflexivity.
Qed.

Lemma sample_records_loop_sweep (tasks : list _Sample2qXEBTask)
    (results : list (list (list nat))) (records : list SampledRecord) :
  length results = length tasks →
  Exists (λ nested_result, length nested_result ≠ 1%nat) results →
  for_each (λ records '(task, nested_result),
    match nested_result with
    | [sampled_inds] =>
        let sampled_probs :=
          map (λ count, np_div (Qc_of_nat count)
                               (Qc_of_nat (length sampled_inds)))
              (np_bincount sampled_inds (2 ^ 2)) in
        mret (records ++ [{| sampled_circuit_i := task_circuit_i task;
                             sampled_cycle_depth := task_cycle_depth task;
                             sampled_probs := sampled_probs |}])
    | _ => raise ValueError
    end) (zip tasks results) records
  = raise ValueError.
Proof.
  revert results records.
  induction tasks as [|task tasks IH]; intros [|nested results] records Hlen Hex;
    try discriminate Hlen.
  - apply Exists_nil in Hex. destruct Hex.
  - injection Hlen as Hlen.
    destruct nested as [|sampled_inds [|? ?]]; try reflexivity.
    apply Exists_cons in Hex as [Hbad|Hex]; [simpl in Hbad; congruence|].
    cbn -[Nat.pow np_bincount np_div]. apply IH; assumption.
Qed.

Lemma _SampleInBatches_call_inv (repetitions : Z)
    (tasks : list _Sample2qXEBTask) (records : list SampledRecord) :
  _SampleInBatches_call run_batch repetitions tasks = inr records →
  Forall2 (λ task record,
             sampled_key record = task_key task
             ∧ ∃ sampled_inds,
                 sampled_probs record = sampled_probs_of sampled_inds)
          tasks records.
Proof.
  unfold _SampleInBatches_call.
  destruct (run_batch (map prepared_circuit tasks) repetitions)
    as [e|results]; [discriminate|]. simpl.
  case_bool_decide as Hlen; simpl; [|discriminate].
  intros Hrun.
  destruct (sample_records_loop_inv tasks results [] records Hlen Hrun)
    as (new_records & -> & Hall).
  exact Hall.
Qed.

(** X9: whatever the sampler returns, a call of [_SampleInBatches] that
    returns gives one record per task, in the order of the tasks and under
    the key of its task, and the [sampled_probs] of each record has at least
    four entries and is either a probability vector (finite, non-negative,
    of sum one) or, when the sampler measured nothing, all nan. *)
Theorem _SampleInBatches_call_records (repetitions : Z)
    (tasks : list _Sample2qXEBTask) (records : list SampledRecord) :
  _SampleInBatches_call run_batch repetitions tasks = inr records →
  Forall2 (λ task record,
             sampled_circuit_i record = task_circuit_i task
             ∧ sampled_cycle_depth record = task_cycle_depth task
             ∧ (4 ≤ length (sampled_probs record))%nat
             ∧ (is_distribution (sampled_probs record)
                ∨ Forall (λ p, p = None) (sampled_probs record)))
          tasks records.
Proof.
  intros Hrun. apply _SampleInBatches_call_inv in Hrun.
  eapply Forall2_impl; [exact Hrun|].
  intros task record [Hkey (sampled_inds & Hprobs)].
  injection Hkey as Hi Hd. split; [exact Hi|]. split; [exact Hd|].
  rewrite Hprobs.
  destruct (sampled_probs_of_spec sampled_inds) as (Hlen & _ & Hnan & Hdist).
  split; [exact Hlen|].
  destruct sampled_inds as [|v inds].
  - right. apply Hnan. reflexivity.
  - left. apply Hdist. discriminate.
Qed.

(** X10: a call of [_SampleInBatches] fails with the exception of the
    sampler when the sampler raises one, with [AssertionError] when the
    sampler returns a number of results other than the number of tasks, and
    with [ValueError] when some circuit comes back with a number of results
    other than one (the results of a sweep). *)
Theorem _SampleInBatches_call_errors (repetitions : Z)
    (tasks : list _Sample2qXEBTask) :
  (∀ e, run_batch (map prepared_circuit tasks) repetitions = inl e →
        _SampleInBatches_call run_batch repetitions tasks = inl e)
  ∧ (∀ results,
       run_batch (map prepared_circuit tasks) repetitions = inr results →
       length results ≠ length tasks →
       _SampleInBatches_call run_batch repetitions tasks
       = raise AssertionError)
  ∧ (∀ results,
       run_batch (map prepared_circuit tasks) repetitions = inr results →
       length results = length tasks →
       Exists (λ nested_result, length nested_result ≠ 1%nat) results →
       _SampleInBatches_call run_batch repetitions tasks = raise ValueError).
Proof.
  unfold _SampleInBatches_call. split; [|split].
  - intros e ->. reflexivity.
  - intros results -> Hlen. simpl.
    rewrite bool_decide_eq_false_2 by exact Hlen. reflexivity.
  - intros results -> Hlen Hex. simpl.
    rewrite bool_decide_eq_true_2 by exact Hlen. simpl.
    apply sample_records_loop_sweep; assumption.
Qed.
End BatchCallProofs.

Lemma _SampleInBatches_call_records_witness :
  ∃ records,
    _SampleInBatches_call example_sampler 10
      (expected_sample_tasks 1 3 example_library [0%Z]) = inr records
    ∧ Forall2 (λ task record,
                 sampled_circuit_i record = task_circuit_i task
                 ∧ sampled_cycle_depth record = task_cycle_depth task
                 ∧ (4 ≤ length (sampled_probs record))%nat
                 ∧ (is_distribution (sampled_probs record)
                    ∨ Forall (λ p, p = None) (sampled_probs record)))
              (expected_sample_tasks 1 3 example_library [0%Z]) records.
Proof.
  destruct (_SampleInBatches_call example_sampler 10
              (expected_sample_tasks 1 3 example_library [0%Z]))
    as [e|records] eqn:Hrun.
  - vm_compute in Hrun. discriminate Hrun.
  - exists records. split; [reflexivity|].
    apply (_SampleInBatches_call_records example_sampler 10 _ _ Hrun).
Defined.

Lemma _SampleInBatches_call_errors_witness :
  _SampleInBatches_call failing_sampler 10
    (expected_sample_tasks 1 3 example_library [0%Z])
  = inl (CollaboratorError 2)
  ∧ _SampleInBatches_call short_sampler 10
      (expected_sample_tasks 1 3 example_library [0%Z])
    = raise AssertionError
  ∧ _SampleInBatches_call sweep_sampler 10
      (expected_sample_tasks 1 3 example_library [0%Z])
    = raise ValueError.
Proof.
  split; [|split].
  - refine (proj1 (_SampleInBatches_call_errors failing_sampler 10 _) _ _).
    reflexivity.
  - refine (proj1 (proj2 (_SampleInBatches_call_errors short_sampler 10 _))
              _ _ _); [reflexivity|].
    vm_compute. discriminate.
  - refine (proj2 (proj2 (_SampleInBatches_call_errors sweep_sampler 10 _))
              _ _ _ _); [reflexivity | reflexivity |].
    constructor. simpl. discriminate.
Defined.

(** ** The sampling scheduler: batches, completeness, failures *)

Lemma py_range_exact (n step : Z) :
  (0 < step)%Z →
  py_range 0 n step
  = inr (map (λ k, (0 + Z.of_nat k * step)%Z)
             (seq 0 (Z.to_nat ((n - 0 + step - 1) `div` step)))).
Proof.
  intros Hstep. unfold py_range.
  rewrite bool_decide_eq_false_2 by lia.
  rewrite bool_decide_eq_true_2 by lia. reflexivity.
Qed.

Lemma py_range_negative_step (n step : Z) :
  (0 ≤ n)%Z → (step < 0)%Z → py_range 0 n step = inr [].
Proof.
  intros Hn Hstep. unfold py_range.
  rewrite !bool_decide_eq_false_2 by lia.
  replace (Z.to_nat ((0 - n - step - 1) `div` (- step))) with 0%nat;
    [reflexivity|].
  assert (((0 - n - step - 1) `div` (- step)) ≤ 0)%Z; [|lia].
  destruct (decide (0 ≤ 0 - n - step - 1)%Z).
  - rewrite Z.div_small by lia. lia.
  - apply Z.lt_le_incl, Z.div_lt_upper_bound; lia.
Qed.

(** X11: the batches are cut out of the task list in order and cover it:
    for a positive batch size their concatenation is the task list, every
    batch holds between one and [batch_size] tasks, and there are
    [ceil(n_tasks / batch_size)] of them.  A batch size of zero raises
    [ValueError]; a negative one gives no batch at all. *)
Theorem batched_tasks_spec {A} (tasks : list A) (batch_size : Z) :
  (batch_size = 0%Z → batched_tasks tasks batch_size = raise ValueError)
  ∧ ((batch_size < 0)%Z → batched_tasks tasks batch_size = inr [])
  ∧ ((0 < batch_size)%Z →
     ∃ batches,
       batched_tasks tasks batch_size = inr batches
       ∧ concat batches = tasks
       ∧ Forall (λ batch, (1 ≤ length batch ≤ Z.to_nat batch_size)%nat) batches
       ∧ Z.of_nat (length batches)
         = ((Z.of_nat (length tasks) + batch_size - 1) `div` batch_size)%Z).
Proof.
  unfold batched_tasks. split; [|split].
  - intros ->. reflexivity.
  - intros Hneg. rewrite py_range_negative_step by lia. reflexivity.
  - intros Hpos. rewrite py_range_exact by exact Hpos. simpl.
    eexists. split; [reflexivity|].
    set (n := Z.of_nat (length tasks)).
    set (count := Z.to_nat ((n - 0 + batch_size - 1) `div` batch_size)).
    assert (Hcount0 : (0 ≤ (n - 0 + batch_size - 1) `div` batch_size)%Z)
      by (apply Z.div_pos; lia).
    assert (Hupper : (n ≤ Z.of_nat count * batch_size)%Z).
    { unfold count. rewrite Z2Nat.id by exact Hcount0.
      pose proof (Z.mul_succ_div_gt (n - 0 + batch_size - 1) batch_size Hpos).
      lia. }
    assert (Hlower : (0 < Z.of_nat count →
                      (Z.of_nat count - 1) * batch_size < n)%Z).
    { intros _. unfold count. rewrite Z2Nat.id by exact Hcount0.
      pose proof (Z.mul_div_le (n - 0 + batch_size - 1) batch_size Hpos).
      lia. }
    rewrite <- list_fmap_compose.
    rewrite (map_ext_elem_of _
               (λ k, take (Z.to_nat batch_size)
                          (drop (k * Z.to_nat batch_size) tasks)))
      by (intros k _; simpl; rewrite py_slice_window by lia;
          do 2 f_equal; lia).
    split; [apply chunks_concat; unfold n in Hupper; nia|]. split.
    + apply Forall_fmap, Forall_forall. intros k Hk. simpl.
      apply elem_of_seq in Hk.
      rewrite length_take, length_drop. unfold n in Hlower. nia.
    + rewrite length_map, length_seq. unfold count.
      rewrite Z2Nat.id by exact Hcount0. f_equal. lia.
Qed.

Lemma batched_tasks_spec_witness :
  ∃ batches,
    batched_tasks [1; 2; 3; 4; 5; 6; 7]%nat 3 = inr batches
    ∧ concat batches = [1; 2; 3; 4; 5; 6; 7]%nat
    ∧ Forall (λ batch, (1 ≤ length batch ≤ Z.to_nat 3)%nat) batches
    ∧ Z.of_nat (length batches) = ((7 + 3 - 1) `div` 3)%Z.
Proof.
  apply (batched_tasks_spec [1; 2; 3; 4; 5; 6; 7]%nat 3). lia.
Defined.

(** [sample_2q_xeb_circuits] runs the sampler on these batches. *)
Lemma sample_2q_xeb_circuits_batched
    (run_batch : list Circuit → Z → result (list (list (list nat))))
    (as_completed :
       list (result (list SampledRecord)) → list (result (list SampledRecord)))
    (circuits : list Circuit) (cycle_depths : list Z)
    (repetitions batch_size : Z) :
  sample_2q_xeb_circuits run_batch as_completed circuits cycle_depths
    repetitions batch_size
  = qs ← _verify_and_get_two_qubits_from_circuits circuits;
    match qs with
    | [q0; q1] =>
        tasks ← sample_2q_xeb_tasks q0 q1 circuits cycle_depths;
        batches ← batched_tasks tasks batch_size;
        let futures := map (_SampleInBatches_call run_batch repetitions) batches in
        records ← for_each (λ records future,
                              batch_records ← future;
                              mret (records ++ batch_records))
                           (as_completed futures) [];
        DataFrame_set_index records
    | _ => raise ValueError
    end.
Proof.
  unfold sample_2q_xeb_circuits, batched_tasks.
  destruct (_verify_and_get_two_qubits_from_circuits circuits)
    as [e|[|q0 [|q1 [|q2 qs]]]]; try reflexivity.
  simpl. destruct (sample_2q_xeb_tasks q0 q1 circuits cycle_depths)
    as [e|tasks]; [reflexivity|].
  simpl. destruct (py_range 0 (Z.of_nat (length tasks)) batch_size);
    reflexivity.
Qed.

Lemma sample_2q_xeb_tasks_keys (q0 q1 : Z) (circuits : list Circuit)
    (cycle_depths : list Z) (tasks : list _Sample2qXEBTask) :
  sample_2q_xeb_tasks q0 q1 circuits cycle_depths = inr tasks →
  map task_key tasks = schedule_keys (length circuits) cycle_depths.
Proof.
  rewrite sample_2q_xeb_tasks_cases.
  destruct (forallb _ cycle_depths); [|discriminate].
  intros [= <-]. unfold schedule_keys.
  induction cycle_depths as [|d ds IH]; [reflexivity|].
  simpl. rewrite map_app, IH. f_equal.
  rewrite flat_map_singleton, <- enumerate_fst, <- !list_fmap_compose.
  apply map_ext_elem_of. intros [i circuit] _. reflexivity.
Qed.

Lemma collect_futures_inv (futures : list (result (list SampledRecord)))
    (records out : list SampledRecord) :
  for_each (λ records future,
              batch_records ← future; mret (records ++ batch_records))
           futures records = inr out →
  ∃ batch_records, futures = map inr batch_records
                   ∧ out = records ++ concat batch_records.
Proof.
  revert records. induction futures as [|future futures IH]; intros records Hrun.
  - injection Hrun as <-. exists []. rewrite app_nil_r. split; reflexivity.
  - destruct future as [e|r]; [discriminate Hrun|]. simpl in Hrun.
    destruct (IH _ Hrun) as (rs & -> & ->).
    exists (r :: rs). rewrite <- app_assoc. split; reflexivity.
Qed.

Lemma futures_inv
    (run_batch : list Circuit → Z → result (list (list (list nat))))
    (repetitions : Z) (batches : list (list _Sample2qXEBTask))
    (batch_records : list (list SampledRecord)) :
  map (_SampleInBatches_call run_batch repetitions) batches
  = map inr batch_records →
  map sampled_key (concat batch_records) = map task_key (concat batches).
Proof.
  revert batch_records.
  induction batches as [|batch batches IH]; intros [|r rs] Heq;
    try discriminate Heq; [reflexivity|].
  injection Heq as Hr Hrs. simpl. rewrite !map_app, (IH rs Hrs). f_equal.
  apply _SampleInBatches_call_inv in Hr.
  induction Hr as [|task record tasks records [Hkey _] _ IHr];
    [reflexivity|]. simpl. rewrite Hkey, IHr. reflexivity.
Qed.

(** X12: the sampling scheduler never returns a partial table.  Whatever the
    sampler does and in whatever order the batches complete, if
    [sample_2q_xeb_circuits] returns, then the library passed the two-site
    verification, the batch size is positive, and the table has exactly one
    row per (circuit index, entry of the depth list). *)
Theorem sample_2q_xeb_circuits_complete
    (run_batch : list Circuit → Z → result (list (list (list nat))))
    (as_completed :
       list (result (list SampledRecord)) → list (result (list SampledRecord)))
    (circuits : list Circuit) (cycle_depths : list Z)
    (repetitions batch_size : Z) (records : list SampledRecord) :
  (∀ futures, as_completed futures ≡ₚ futures) →
  sample_2q_xeb_circuits run_batch as_completed circuits cycle_depths
    repetitions batch_size = inr records →
  map sampled_key records ≡ₚ schedule_keys (length circuits) cycle_depths
  ∧ length records = (length circuits * length cycle_depths)%nat
  ∧ records ≠ []
  ∧ (0 < batch_size)%Z
  ∧ size (library_qubits circuits) = 2%nat.
Proof.
  intros Hcompleted. rewrite sample_2q_xeb_circuits_batched, verify_unfold.
  case_bool_decide as Hsize; [|discriminate]. simpl.
  destruct (size_two_sorted _ Hsize) as (q0 & q1 & ->).
  destruct (sample_2q_xeb_tasks q0 q1 circuits cycle_depths)
    as [e|tasks] eqn:Htasks; [discriminate|]. simpl.
  apply sample_2q_xeb_tasks_keys in Htasks.
  destruct (batched_tasks_spec tasks batch_size) as (Hzero & Hneg & Hpos).
  destruct (Z.lt_trichotomy batch_size 0) as [Hb|[Hb|Hb]].
  - rewrite (Hneg Hb). simpl.
    rewrite (proj1 (Permutation_nil_r _) (Hcompleted [])). discriminate.
  - rewrite (Hzero Hb). discriminate.
  - destruct (Hpos Hb) as (batches & -> & Hconcat & _). simpl.
    destruct (for_each _ _ []) as [e|out] eqn:Hloop; [discriminate|]. simpl.
    apply collect_futures_inv in Hloop as (rs & Hrs & ->). simpl.
    pose proof (Hcompleted
                  (map (_SampleInBatches_call run_batch repetitions) batches))
      as Hperm.
    rewrite Hrs in Hperm. symmetry in Hperm.
    apply Permutation_map_inv in Hperm as (rs' & Hrs' & Hperm).
    apply futures_inv in Hrs'. rewrite Hconcat, Htasks in Hrs'.
    assert (Hkeys : map sampled_key (concat rs)
                    ≡ₚ schedule_keys (length circuits) cycle_depths).
    { rewrite <- Hrs'. apply Permutation_map, concat_Permutation.
      exact Hperm. }
    destruct (concat rs) as [|record rest] eqn:Hrecords; [discriminate|].
    intros [= <-].
    split; [exact Hkeys|]. split; [|split; [discriminate|split; assumption]].
    rewrite <- (length_map sampled_key), Hkeys. apply schedule_keys_length.
Qed.

Lemma sample_2q_xeb_circuits_complete_witness :
  ∃ records,
    sample_2q_xeb_circuits example_sampler (λ futures, rev futures)
      example_library [0%Z; 1%Z] 10 3 = inr records
    ∧ map sampled_key records ≡ₚ schedule_keys 2 [0%Z; 1%Z]
    ∧ length records = 4%nat.
Proof.
  destruct (sample_2q_xeb_circuits example_sampler (λ futures, rev futures)
              example_library [0%Z; 1%Z] 10 3) as [e|records] eqn:Hrun.
  - vm_compute in Hrun. discriminate Hrun.
  - exists records. split; [reflexivity|].
    destruct (sample_2q_xeb_circuits_complete example_sampler
                (λ futures, rev futures) example_library [0%Z; 1%Z] 10 3
                records) as (Hkeys & Hlen & _).
    + intros futures. symmetry. apply Permutation_rev.
    + exact Hrun.
    + split; [exact Hkeys | exact Hlen].
Defined.

(** X13: a failure of the sampler is the failure of the scheduler.  For a
    library that passes the verification, a non-empty list of fitting depths
    and a positive batch size, a sampler that raises an exception on every
    batch makes [sample_2q_xeb_circuits] raise that exception, in whatever
    order the batches complete. *)
Theorem sample_2q_xeb_circuits_sampler_failure
    (run_batch : list Circuit → Z → result (list (list (list nat))))
    (as_completed :
       list (result (list SampledRecord)) → list (result (list SampledRecord)))
    (circuits : list Circuit) (cycle_depths : list Z)
    (repetitions batch_size : Z) (q0 q1 : Z) (e : exn) :
  _verify_and_get_two_qubits_from_circuits circuits = inr [q0; q1] →
  (∀ d circuit, d ∈ cycle_depths → circuit ∈ circuits →
     (2 * d + 1 ≤ Z.of_nat (length circuit))%Z) →
  cycle_depths ≠ [] → (0 < batch_size)%Z →
  (∀ futures, as_completed futures ≡ₚ futures) →
  (∀ programs, run_batch programs repetitions = inl e) →
  sample_2q_xeb_circuits run_batch as_completed circuits cycle_depths
    repetitions batch_size = inl e.
Proof.
  intros Hverify Hfit Hdepths Hbatch Hcompleted Hfail.
  rewrite sample_2q_xeb_circuits_batched, Hverify. simpl.
  destruct (sample_2q_xeb_tasks q0 q1 circuits cycle_depths)
    as [err|tasks] eqn:Htasks.
  { exfalso. rewrite sample_2q_xeb_tasks_cases in Htasks.
    destruct (forallb _ cycle_depths) eqn:Hall; [discriminate|].
    apply not_true_iff_false in Hall. apply Hall.
    apply forallb_forall. intros d Hd. apply list_elem_of_In in Hd.
    apply forallb_forall. intros [i circuit] Hic. apply list_elem_of_In in Hic.
    apply bool_decide_eq_true_2. simpl.
    specialize (Hfit d circuit Hd (enumerate_elem_of _ _ _ Hic)). lia. }
  simpl. apply sample_2q_xeb_tasks_keys in Htasks.
  destruct (batched_tasks_spec tasks batch_size) as (_ & _ & Hpos).
  destruct (Hpos Hbatch) as (batches & -> & Hconcat & _). simpl.
  assert (Hfutures : map (_SampleInBatches_call run_batch repetitions) batches
                     = replicate (length batches) (inl e)).
  { clear Hconcat. induction batches as [|batch batches IH]; [reflexivity|].
    simpl. rewrite IH. f_equal. unfold _SampleInBatches_call.
    rewrite Hfail. reflexivity. }
  rewrite Hfutures.
  assert (Hne : batches ≠ []).
  { intros ->. simpl in Hconcat. subst tasks.
    assert (Hlen : length (schedule_keys (length circuits) cycle_depths) = 0%nat)
      by (rewrite <- Htasks; reflexivity).
    rewrite schedule_keys_length in Hlen.
    destruct circuits; [discriminate Hverify|].
    destruct cycle_depths; [congruence|]. simpl in Hlen. lia. }
  pose proof (Hcompleted (replicate (length batches) (inl e))) as Hperm.
  destruct (as_completed (replicate (length batches) (inl e)))
    as [|future futures] eqn:Hdone.
  - apply Permutation_nil_l in Hperm.
    destruct batches; [congruence | discriminate Hperm].
  - assert (Hin : future ∈ replicate (length batches) (@inl exn (list SampledRecord) e)).
    { rewrite <- Hperm. constructor. }
    apply elem_of_replicate in Hin as [-> _]. reflexivity.
Qed.

Lemma sample_2q_xeb_circuits_sampler_failure_witness :
  sample_2q_xeb_circuits failing_sampler (λ futures, rev futures)
    example_library [0%Z; 1%Z] 10 3 = inl (CollaboratorError 2).
Proof.
  apply (sample_2q_xeb_circuits_sampler_failure failing_sampler
           (λ futures, rev futures) example_library [0%Z; 1%Z] 10 3 1 3).
  - reflexivity.
  - intros d circuit Hd Hc.
    rewrite !elem_of_cons, elem_of_nil in Hd.
    unfold example_library in Hc. rewrite !elem_of_cons, elem_of_nil in Hc.
    destruct Hd as [->|[->|[]]]; destruct Hc as [->|[->|[]]]; simpl; lia.
  - discriminate.
  - lia.
  - intros futures. symmetry. apply Permutation_rev.
  - intros programs. reflexivity.
Defined.

(** ** The two-site verification: order of the library *)

Lemma library_qubits_Permutation (circuits circuits' : list Circuit) :
  circuits ≡ₚ circuits' → library_qubits circuits = library_qubits circuits'.
Proof.
  intros Hperm. apply set_eq. intros v. unfold library_qubits.
  rewrite !elem_of_union_list. split.
  - intros (X & HX & Hv). exists X. split; [|exact Hv].
    apply list_elem_of_fmap in HX as (c & -> & Hc).
    apply list_elem_of_fmap. exists c. split; [reflexivity|].
    rewrite <- Hperm. exact Hc.
  - intros (X & HX & Hv). exists X. split; [|exact Hv].
    apply list_elem_of_fmap in HX as (c & -> & Hc).
    apply list_elem_of_fmap. exists c. split; [reflexivity|].
    rewrite Hperm. exact Hc.
Qed.

(** X14: the verification looks at the library as a whole.  Its outcome, the
    two sites in increasing order or [ValueError], is the same for every
    reordering of the library, and circuits without operations change
    nothing. *)
Theorem verify_two_qubits_order_independent (circuits circuits' : list Circuit) :
  circuits ≡ₚ circuits' →
  _verify_and_get_two_qubits_from_circuits circuits
  = _verify_and_get_two_qubits_from_circuits circuits'
  ∧ _verify_and_get_two_qubits_from_circuits ([] :: circuits)
    = _verify_and_get_two_qubits_from_circuits circuits.
Proof.
  intros Hperm. rewrite !verify_unfold. split.
  { rewrite (library_qubits_Permutation _ _ Hperm). reflexivity. }
  replace (library_qubits ([] :: circuits)) with (library_qubits circuits);
    [reflexivity|].
  unfold library_qubits. simpl.
  change (all_qubits []) with (∅ : gset Z).
  rewrite (left_id_L ∅ (∪)). reflexivity.
Qed.

Lemma verify_two_qubits_order_independent_witness :
  _verify_and_get_two_qubits_from_circuits
    [example_circuit_3; example_circuit_5]
  = _verify_and_get_two_qubits_from_circuits
      [example_circuit_5; example_circuit_3].
Proof.
  apply (verify_two_qubits_order_independent
           [example_circuit_3; example_circuit_5]
           [example_circuit_5; example_circuit_3]).
  apply perm_swap.
Defined.

(** ** The simulation scheduler: what the records hold *)

Lemma record_steps_Forall (P : PureRecord → Prop) (circuit_i : nat)
    (cycle_depths : gset Z) (steps : list (list Complex)) (moment_i : Z)
    (records : list PureRecord) :
  Forall P records →
  (∀ k psi, steps !! k = Some psi →
     ((moment_i + Z.of_nat k) `mod` 2 ≠ 1)%Z →
     ((moment_i + Z.of_nat k) `div` 2)%Z ∈ cycle_depths →
     P {| pure_circuit_i := circuit_i;
          pure_cycle_depth := ((moment_i + Z.of_nat k) `div` 2)%Z;
          pure_probs := map abs2 psi |}) →
  Forall P (record_steps circuit_i cycle_depths moment_i steps records).
Proof.
  revert moment_i records.
  induction steps as [|psi steps IH]; intros moment_i records Hacc Hnew;
    [exact Hacc|].
  assert (Hshift : ∀ k psi', steps !! k = Some psi' →
            ((moment_i + 1 + Z.of_nat k) `mod` 2 ≠ 1)%Z →
            ((moment_i + 1 + Z.of_nat k) `div` 2)%Z ∈ cycle_depths →
            P {| pure_circuit_i := circuit_i;
                 pure_cycle_depth := ((moment_i + 1 + Z.of_nat k) `div` 2)%Z;
                 pure_probs := map abs2 psi' |}).
  { intros k psi' Hk Hodd Hin.
    replace (moment_i + 1 + Z.of_nat k)%Z
      with (moment_i + Z.of_nat (S k))%Z in * by lia.
    apply (Hnew (S k) psi' Hk Hodd Hin). }
  cbn [record_steps].
  case_bool_decide as Hodd; [apply IH; assumption|].
  case_bool_decide as Hin; simpl; [|apply IH; assumption].
  apply IH; [|exact Hshift].
  apply Forall_app. split; [exact Hacc|]. constructor; [|constructor].
  specialize (Hnew 0%nat psi eq_refl).
  replace (moment_i + Z.of_nat 0)%Z with moment_i in Hnew by lia.
  apply Hnew; assumption.
Qed.

Lemma step_keys_depths_sorted (circuit_i : nat) (cycle_depths : gset Z)
    (n : nat) (moment_i : Z) :
  (0 ≤ moment_i)%Z →
  StronglySorted Z.lt
    (map snd (map (λ k, (moment_i + Z.of_nat k)%Z) (seq 0 n)
              ≫= step_keys circuit_i cycle_depths))
  ∧ Forall (λ d, (moment_i ≤ 2 * d)%Z)
      (map snd (map (λ k, (moment_i + Z.of_nat k)%Z) (seq 0 n)
                ≫= step_keys circuit_i cycle_depths)).
Proof.
  revert moment_i. induction n as [|n IH]; intros moment_i Hm.
  - split; constructor.
  - cbn [seq map mbind list_bind].
    rewrite <- fmap_S_seq, <- list_fmap_compose.
    rewrite (map_ext_elem_of _ (λ k, (moment_i + 1 + Z.of_nat k)%Z))
      by (intros k _; simpl; lia).
    replace (moment_i + Z.of_nat 0)%Z with moment_i by lia.
    destruct (IH (moment_i + 1)%Z ltac:(lia)) as [Hsorted Hlower].
    pose proof (Z.div_mod moment_i 2 ltac:(lia)) as Hdiv.
    pose proof (Z.mod_pos_bound moment_i 2 ltac:(lia)) as Hmod.
    unfold step_keys at 1 3. repeat case_bool_decide; simpl.
    + split; [exact Hsorted|].
      eapply Forall_impl; [exact Hlower|]. intros d Hd. simpl in Hd. lia.
    + split.
      * constructor; [exact Hsorted|].
        eapply Forall_impl; [exact Hlower|]. intros d Hd. simpl in Hd. lia.
      * constructor; [lia|].
        eapply Forall_impl; [exact Hlower|]. intros d Hd. simpl in Hd. lia.
    + split; [exact Hsorted|].
      eapply Forall_impl; [exact Hlower|]. intros d Hd. simpl in Hd. lia.
Qed.

Section RecordProofs.
Variable ParamResolver : Type.
Variable simulate_moment_steps :
  Circuit → ParamResolver → result (list (list Complex)).

Lemma _Simulate_2q_XEB_Circuit_call_inv
    (task : _Simulate2qXEBTask ParamResolver) (records : list PureRecord) :
  _Simulate_2q_XEB_Circuit_call ParamResolver simulate_moment_steps task
  = inr records →
  ∃ steps,
    simulate_moment_steps (sim_circuit task) (sim_param_resolver task)
    = inr steps
    ∧ records = record_steps (sim_circuit_i task)
                  (list_to_set (sim_cycle_depths task)) 0 steps [].
Proof.
  unfold _Simulate_2q_XEB_Circuit_call.
  destruct (py_max _) as [e|v]; [discriminate|]. simpl.
  case_bool_decide; [discriminate|].
  destruct (simulate_moment_steps _ _) as [e|steps]; [discriminate|].
  intros [= <-]. exists steps. split; reflexivity.
Qed.

(** X15: whenever the simulation task of a circuit returns, each of its
    records belongs to that circuit, carries a requested, non-negative cycle
    depth [d], and holds in [pure_probs] the squared magnitudes of the state
    the simulator produced after layer [2 d]; the records come in strictly
    increasing order of their depth. *)
Theorem _Simulate_2q_XEB_Circuit_call_records
    (task : _Simulate2qXEBTask ParamResolver) (records : list PureRecord) :
  _Simulate_2q_XEB_Circuit_call ParamResolver simulate_moment_steps task
  = inr records →
  ∃ steps,
    simulate_moment_steps (sim_circuit task) (sim_param_resolver task)
    = inr steps
    ∧ Forall (λ record,
                pure_circuit_i record = sim_circuit_i task
                ∧ pure_cycle_depth record ∈ sim_cycle_depths task
                ∧ (0 ≤ pure_cycle_depth record)%Z
                ∧ ∃ psi,
                    steps !! Z.to_nat (2 * pure_cycle_depth record) = Some psi
                    ∧ pure_probs record = map abs2 psi)
             records
    ∧ StronglySorted Z.lt (map pure_cycle_depth records).
Proof.
  intros Hrun.
  apply _Simulate_2q_XEB_Circuit_call_inv in Hrun as (steps & Hsteps & ->).
  exists steps. split; [exact Hsteps|]. split.
  - apply record_steps_Forall; [constructor|].
    intros k psi Hk Hodd Hin. simpl.
    replace (0 + Z.of_nat k)%Z with (Z.of_nat k) in * by lia.
    pose proof (Z.div_mod (Z.of_nat k) 2 ltac:(lia)) as Hdiv.
    pose proof (Z.mod_pos_bound (Z.of_nat k) 2 ltac:(lia)) as Hmod.
    split; [reflexivity|].
    split; [apply elem_of_list_to_set in Hin; exact Hin|].
    split; [apply Z.div_pos; lia|].
    exists psi. split; [|reflexivity].
    replace (Z.to_nat (2 * (Z.of_nat k `div` 2))) with k by lia. exact Hk.
  - assert (Hdepths : map pure_cycle_depth
                        (record_steps (sim_circuit_i task)
                           (list_to_set (sim_cycle_depths task)) 0 steps [])
                      = map snd (map pure_key
                          (record_steps (sim_circuit_i task)
                             (list_to_set (sim_cycle_depths task)) 0 steps []))).
    { rewrite <- list_fmap_compose. reflexivity. }
    rewrite Hdepths, record_steps_keys. simpl.
    apply step_keys_depths_sorted. lia.
Qed.
End RecordProofs.

Lemma _Simulate_2q_XEB_Circuit_call_records_witness :
  ∃ records steps,
    _Simulate_2q_XEB_Circuit_call unit example_simulator
      {| sim_circuit_i := 1; sim_cycle_depths := [2%Z; 0%Z; 2%Z];
         sim_circuit := example_circuit_5; sim_param_resolver := () |}
    = inr records
    ∧ example_simulator example_circuit_5 () = inr steps
    ∧ StronglySorted Z.lt (map pure_cycle_depth records).
Proof.
  destruct (_Simulate_2q_XEB_Circuit_call unit example_simulator
              {| sim_circuit_i := 1; sim_cycle_depths := [2%Z; 0%Z; 2%Z];
                 sim_circuit := example_circuit_5; sim_param_resolver := () |})
    as [e|records] eqn:Hrun.
  - vm_compute in Hrun. discriminate Hrun.
  - destruct (_Simulate_2q_XEB_Circuit_call_records unit example_simulator
                _ records Hrun) as (steps & Hsteps & _ & Hsorted).
    exists records, steps. split; [reflexivity|]. split; assumption.
Defined.

(** ** The simulation scheduler: order, failures, empty inputs *)

Lemma StronglySorted_lt_le (l : list Z) :
  StronglySorted Z.lt l → Sorted Z.le l.
Proof.
  intros Hs. apply StronglySorted_Sorted.
  induction Hs as [|v l _ IH Hall]; constructor; [exact IH|].
  eapply Forall_impl; [exact Hall|]. intros w Hw. simpl in Hw. lia.
Qed.

Lemma circuit_keys_sorted (circuit_i : nat) (cycle_depths : gset Z) (n : nat) :
  (∀ d, d ∈ cycle_depths → (0 ≤ d)%Z ∧ (2 * d + 1 ≤ Z.of_nat n)%Z) →
  map (λ k, (0 + Z.of_nat k)%Z) (seq 0 n) ≫= step_keys circuit_i cycle_depths
  = map (λ d, (circuit_i, d)) (sorted cycle_depths).
Proof.
  intros Hfit.
  set (keys := map (λ k, (0 + Z.of_nat k)%Z) (seq 0 n)
               ≫= step_keys circuit_i cycle_depths).
  assert (Hperm : keys ≡ₚ map (λ d, (circuit_i, d)) (elements cycle_depths))
    by (apply circuit_keys_Permutation, Hfit).
  assert (Hfst : keys = map (λ d, (circuit_i, d)) (map snd keys)).
  { rewrite <- list_fmap_compose. symmetry.
    rewrite <- (list_fmap_id keys) at 2.
    apply map_ext_elem_of. intros [i d] Hin. simpl.
    rewrite Hperm in Hin. apply list_elem_of_fmap in Hin as (d' & [= -> ->] & _).
    reflexivity. }
  rewrite Hfst. f_equal.
  apply (Sorted_unique Z.le).
  - apply StronglySorted_lt_le. apply step_keys_depths_sorted. lia.
  - apply sorted_Sorted.
  - rewrite sorted_Permutation, Hperm, <- list_fmap_compose.
    simpl. rewrite list_fmap_id. reflexivity.
Qed.

Section OrderProofs.
Variable ParamResolver : Type.
Variable simulate_moment_steps :
  Circuit → ParamResolver → result (list (list Complex)).

Lemma simulate_tasks_sorted (indexed_circuits : list (nat * Circuit))
    (cycle_depths : list Z) (param_resolver : ParamResolver) :
  cycle_depths ≠ [] →
  (∀ i circuit, (i, circuit) ∈ indexed_circuits →
     (∀ d, d ∈ cycle_depths →
           (0 ≤ d)%Z ∧ (2 * d + 1 ≤ Z.of_nat (length circuit))%Z)
     ∧ ∃ steps, simulate_moment_steps circuit param_resolver = inr steps
                ∧ length steps = length circuit) →
  ∃ nested_records,
    mapM (_Simulate_2q_XEB_Circuit_call ParamResolver simulate_moment_steps)
         (map (λ '(circuit_i, circuit),
                 {| sim_circuit_i := circuit_i;
                    sim_cycle_depths := cycle_depths;
                    sim_circuit := circuit;
                    sim_param_resolver := param_resolver |})
              indexed_circuits)
    = inr nested_records
    ∧ map pure_key (concat nested_records)
      = flat_map (λ ic : nat * Circuit,
                    map (λ d, (ic.1, d)) (sorted (list_to_set cycle_depths)))
                 indexed_circuits.
Proof.
  intros Hne.
  induction indexed_circuits as [|[i circuit] ics IH]; intros Hall.
  - exists []. split; reflexivity.
  - destruct (Hall i circuit ltac:(constructor))
      as (Hfit & steps & Hsteps & Hlen).
    destruct IH as (nested & Hnested & Hkeys).
    { intros i' c' Hin. apply (Hall i' c'). constructor. exact Hin. }
    exists (record_steps i (list_to_set cycle_depths) 0 steps [] :: nested).
    split.
    + cbn [map mapM]. rewrite _Simulate_2q_XEB_Circuit_call_fits.
      * cbn [sim_circuit sim_param_resolver sim_circuit_i sim_cycle_depths].
        rewrite Hsteps. simpl. rewrite Hnested. reflexivity.
      * exact Hne.
      * simpl. intros d Hd. apply circuit_max_cycle_depth_fits.
        apply Hfit, Hd.
    + simpl. rewrite map_app, record_steps_keys, Hkeys. simpl.
      f_equal. rewrite Hlen. apply circuit_keys_sorted.
      intros d Hd. apply Hfit. apply elem_of_list_to_set in Hd. exact Hd.
Qed.

(** X16: the table of the simulation scheduler comes in a fixed order: the
    records of the circuits follow each other in the order of the library,
    and within a circuit the records follow the increasing order of the
    distinct requested depths, whatever the order of the depth list. *)
Theorem simulate_2q_xeb_circuits_order (circuits : list Circuit)
    (cycle_depths : list Z) (param_resolver : ParamResolver) :
  circuits ≠ [] → cycle_depths ≠ [] →
  (∀ d circuit, d ∈ cycle_depths → circuit ∈ circuits →
     (0 ≤ d)%Z ∧ (2 * d + 1 ≤ Z.of_nat (length circuit))%Z) →
  (∀ circuit, circuit ∈ circuits →
     ∃ steps, simulate_moment_steps circuit param_resolver = inr steps
              ∧ length steps = length circuit) →
  ∃ records,
    simulate_2q_xeb_circuits ParamResolver simulate_moment_steps
      circuits cycle_depths param_resolver = inr records
    ∧ map pure_key records
      = flat_map (λ i, map (λ d, (i, d)) (sorted (list_to_set cycle_depths)))
                 (seq 0 (length circuits)).
Proof.
  intros Hcircuits Hdepths Hfit Hsim.
  destruct (simulate_tasks_sorted (enumerate circuits) cycle_depths
              param_resolver Hdepths) as (nested & Hnested & Hkeys).
  { intros i circuit Hin. apply enumerate_elem_of in Hin. split.
    - intros d Hd. apply Hfit; assumption.
    - apply Hsim, Hin. }
  rewrite (flat_map_fmap fst
             (λ i, map (λ d, (i, d)) (sorted (list_to_set cycle_depths))))
    in Hkeys.
  rewrite enumerate_fst in Hkeys.
  unfold simulate_2q_xeb_circuits. rewrite Hnested. simpl.
  destruct (concat nested) as [|record records] eqn:Hrecords.
  - exfalso. simpl in Hkeys.
    destruct circuits as [|c cs]; [congruence|]. simpl in Hkeys.
    symmetry in Hkeys. apply app_eq_nil in Hkeys as [Hkeys _].
    apply fmap_nil_inv in Hkeys.
    assert (Hlen : length (sorted (list_to_set cycle_depths)) = 0%nat)
      by (rewrite Hkeys; reflexivity).
    rewrite sorted_length in Hlen. apply size_empty_inv in Hlen.
    apply (elements_depths_nonempty cycle_depths Hdepths).
    apply leibniz_equiv in Hlen. rewrite Hlen. apply elements_empty.
  - exists (record :: records). split; [reflexivity | exact Hkeys].
Qed.


(** X18: the simulation scheduler never returns an empty table.  With an
    empty depth list and a non-empty library it raises [ValueError], and
    with an empty library it raises [KeyError], whatever the simulator
    does. *)
Theorem simulate_2q_xeb_circuits_empty (circuits : list Circuit)
    (cycle_depths : list Z) (param_resolver : ParamResolver) :
  (circuits ≠ [] →
   simulate_2q_xeb_circuits ParamResolver simulate_moment_steps
     circuits [] param_resolver = raise ValueError)
  ∧ simulate_2q_xeb_circuits ParamResolver simulate_moment_steps
      [] cycle_depths param_resolver = raise KeyError
  ∧ (∀ records,
       simulate_2q_xeb_circuits ParamResolver simulate_moment_steps
         circuits cycle_depths param_resolver = inr records →
       records ≠ []).
Proof.
  split; [|split].
  - destruct circuits as [|c cs]; [congruence|]. intros _.
    unfold simulate_2q_xeb_circuits, enumerate.
    cbn [length seq zip zip_with map mapM].
    rewrite _Simulate_2q_XEB_Circuit_call_empty by reflexivity. reflexivity.
  - reflexivity.
  - intros records. unfold simulate_2q_xeb_circuits.
    destruct (mapM _ _) as [e|nested]; [discriminate|]. simpl.
    destruct (concat nested); [discriminate|]. intros [= <-]. discriminate.
Qed.
End OrderProofs.

Lemma simulate_2q_xeb_circuits_order_witness :
  ∃ records,
    simulate_2q_xeb_circuits unit example_simulator example_library
      [1%Z; 0%Z; 1%Z] () = inr records
    ∧ map pure_key records
      = flat_map (λ i, map (λ d, (i, d)) (sorted (list_to_set [1%Z; 0%Z; 1%Z])))
                 (seq 0 (length example_library)).
Proof.
  apply (simulate_2q_xeb_circuits_order unit example_simulator
           example_library [1%Z; 0%Z; 1%Z] ()).
  - discriminate.
  - discriminate.
  - intros d circuit Hd Hc.
    rewrite !elem_of_cons, elem_of_nil in Hd.
    unfold example_library in Hc. rewrite !elem_of_cons, elem_of_nil in Hc.
    destruct Hd as [->|[->|[->|[]]]]; destruct Hc as [->|[->|[]]]; simpl; lia.
  - intros circuit _. apply example_simulator_ok.
Defined.


Lemma simulate_2q_xeb_circuits_empty_witness :
  simulate_2q_xeb_circuits unit example_simulator example_library [] ()
  = raise ValueError.
Proof.
  apply (simulate_2q_xeb_circuits_empty unit example_simulator
           example_library [] ()).
  discriminate.
Defined.

(** ** The two schedulers: keys of the join *)

Lemma schedule_keys_NoDup (n : nat) (cycle_depths : list Z) :
  NoDup cycle_depths → NoDup (schedule_keys n cycle_depths).
Proof.
  intros Hnd. unfold schedule_keys.
  change (NoDup (cycle_depths ≫= λ d, map (λ i, (i, d)) (seq 0 n))).
  apply NoDup_bind.
  - intros d1 d2 [i d] _ _ H1 H2.
    apply list_elem_of_fmap in H1 as (i1 & [= -> ->] & _).
    apply list_elem_of_fmap in H2 as (i2 & [= _ ->] & _). reflexivity.
  - intros d _. apply NoDup_fmap_2; [|apply NoDup_seq].
    intros i1 i2 [= ->]. reflexivity.
  - exact Hnd.
Qed.

Lemma schedule_simulation_keys (n : nat) (cycle_depths : list Z) :
  NoDup cycle_depths →
  schedule_keys n cycle_depths ≡ₚ simulation_keys n cycle_depths.
Proof.
  intros Hnd. apply NoDup_Permutation.
  - apply schedule_keys_NoDup, Hnd.
  - apply simulation_keys_NoDup.
  - intros [i d]. unfold schedule_keys, simulation_keys.
    rewrite !list_elem_of_In, !in_flat_map. split.
    + intros (d' & Hd' & Hin). apply list_elem_of_In in Hd', Hin.
      apply list_elem_of_fmap in Hin as (i' & [= -> ->] & Hi').
      exists i'. split; apply list_elem_of_In; [exact Hi'|].
      apply list_elem_of_fmap. exists d'. split; [reflexivity|].
      rewrite elem_of_elements, elem_of_list_to_set. exact Hd'.
    + intros (i' & Hi' & Hin). apply list_elem_of_In in Hi', Hin.
      apply list_elem_of_fmap in Hin as (d' & [= -> ->] & Hd').
      rewrite elem_of_elements, elem_of_list_to_set in Hd'.
      exists d'. split; apply list_elem_of_In; [exact Hd'|].
      apply list_elem_of_fmap. exists i'. split; [reflexivity | exact Hi'].
Qed.

(** X19: the tables of the two schedulers join one to one.  For a library
    that passes the verification, a non-empty list of distinct, non-negative
    depths that fit every circuit, a positive batch size, a sampler with one
    result per circuit and a simulator with one state per layer, both
    schedulers return, and the keys (circuit index, cycle depth) of the
    sampled rows are, up to their order, the keys of the simulated rows,
    each occurring once. *)
Theorem schedulers_share_keys
    (run_batch : list Circuit → Z → result (list (list (list nat))))
    (as_completed :
       list (result (list SampledRecord)) → list (result (list SampledRecord)))
    (ParamResolver : Type)
    (simulate_moment_steps :
       Circuit → ParamResolver → result (list (list Complex)))
    (circuits : list Circuit) (cycle_depths : list Z)
    (repetitions batch_size : Z) (param_resolver : ParamResolver)
    (q0 q1 : Z) :
  _verify_and_get_two_qubits_from_circuits circuits = inr [q0; q1] →
  cycle_depths ≠ [] → NoDup cycle_depths →
  (∀ d circuit, d ∈ cycle_depths → circuit ∈ circuits →
     (0 ≤ d)%Z ∧ (2 * d + 1 ≤ Z.of_nat (length circuit))%Z) →
  (0 < batch_size)%Z →
  (∀ futures, as_completed futures ≡ₚ futures) →
  one_result_per_circuit run_batch →
  (∀ circuit, circuit ∈ circuits →
     ∃ steps, simulate_moment_steps circuit param_resolver = inr steps
              ∧ length steps = length circuit) →
  ∃ sampled simulated,
    sample_2q_xeb_circuits run_batch as_completed circuits cycle_depths
      repetitions batch_size = inr sampled
    ∧ simulate_2q_xeb_circuits ParamResolver simulate_moment_steps
        circuits cycle_depths param_resolver = inr simulated
    ∧ map sampled_key sampled ≡ₚ map pure_key simulated
    ∧ NoDup (map sampled_key sampled).
Proof.
  intros Hverify Hdepths Hnd Hfit Hbatch Hcompleted Hsampler Hsim.
  destruct (sample_2q_xeb_circuits_records run_batch as_completed circuits
              cycle_depths repetitions batch_size q0 q1
              Hverify Hfit Hdepths Hbatch Hcompleted Hsampler)
    as (sampled & Hsampled & Hskeys & _).
  assert (Hcircuits : circuits ≠ []) by (intros ->; discriminate Hverify).
  destruct (simulate_2q_xeb_circuits_records ParamResolver
              simulate_moment_steps circuits cycle_depths param_resolver
              Hcircuits Hdepths Hfit Hsim)
    as (simulated & Hsimulated & Hpkeys).
  exists sampled, simulated.
  split; [exact Hsampled|]. split; [exact Hsimulated|]. split.
  - rewrite Hskeys, Hpkeys. apply schedule_simulation_keys, Hnd.
  - rewrite Hskeys. apply schedule_keys_NoDup, Hnd.
Qed.

Lemma schedulers_share_keys_witness :
  ∃ sampled simulated,
    sample_2q_xeb_circuits example_sampler (λ futures, rev futures)
      example_library [1%Z; 0%Z] 10 3 = inr sampled
    ∧ simulate_2q_xeb_circuits unit example_simulator example_library
        [1%Z; 0%Z] () = inr simulated
    ∧ map sampled_key sampled ≡ₚ map pure_key simulated
    ∧ NoDup (map sampled_key sampled).
Proof.
  apply (schedulers_share_keys example_sampler (λ futures, rev futures)
           unit example_simulator example_library [1%Z; 0%Z] 10 3 () 1 3).
  - reflexivity.
  - discriminate.
  - apply NoDup_cons. split; [|apply NoDup_singleton].
    rewrite list_elem_of_singleton. discriminate.
  - intros d circuit Hd Hc.
    rewrite !elem_of_cons, elem_of_nil in Hd.
    unfold example_library in Hc. rewrite !elem_of_cons, elem_of_nil in Hc.
    destruct Hd as [->|[->|[]]]; destruct Hc as [->|[->|[]]]; simpl; lia.
  - lia.
  - intros futures. symmetry. apply Permutation_rev.
  - exact example_sampler_ok.
  - intros circuit _. apply example_simulator_ok.
Defined.

(** ** The benchmark aggregator: reference cases *)

Lemma zip_with_diag (p : list Qc) :
  zip_with Qcmult p p = map square p.
Proof. induction p as [|v p IH]; simpl; [|rewrite IH]; reflexivity. Qed.

Lemma np_sum_scale_replicate (p : list Qc) (c : Qc) :
  np_sum (zip_with Qcmult p (replicate (length p) c)) = np_sum p * c.
Proof.
  induction p as [|v p IH].
  - unfold np_sum. simpl. ring.
  - cbn [length replicate zip_with]. rewrite !np_sum_cons, IH. ring.
Qed.

Lemma per_cycle_depth_constant (rows : list SummaryRow) (c : Qc) :
  Forall (λ row, numerator row = c * denominator row) rows →
  np_sum (map denominator rows) ≠ 0 →
  per_cycle_depth rows = Some c.
Proof.
  intros Hall Hden. unfold per_cycle_depth, np_div.
  rewrite decide_False by exact Hden. f_equal.
  assert (Hnum : np_sum (map numerator rows)
                 = c * np_sum (map denominator rows)).
  { clear Hden. induction Hall as [|row rows Hrow _ IH].
    - unfold np_sum. simpl. ring.
    - cbn [map]. rewrite !np_sum_cons, IH, Hrow. ring. }
  rewrite Hnum. field. exact Hden.
Qed.

(** X20: a table whose sampled distributions are the ideal ones has fidelity
    one.  If [sampled_probs] equals [pure_probs] in every row, the fidelity of
    every cycle depth of the table is 1, and nan exactly for a depth whose
    denominators sum to zero. *)
Theorem benchmark_perfect_sampling (df : list JoinedRow) (d : Z)
    (fidelity : option Qc) :
  (∀ row, row ∈ df → row_sampled_probs row = row_pure_probs row) →
  (d, fidelity) ∈ benchmark_2q_xeb_fidelities_joined df →
  let group := depth_group (map _summary_stats df) d in
  (np_sum (map denominator group) ≠ 0 → fidelity = Some 1)
  ∧ (np_sum (map denominator group) = 0 → fidelity = None).
Proof.
  intros Hsame Hin group. apply benchmark_elem_of in Hin as [_ ->].
  fold group. split.
  - intros Hden. apply per_cycle_depth_constant; [|exact Hden].
    apply Forall_forall. intros row Hrow. unfold group, depth_group in Hrow.
    apply list_elem_of_filter in Hrow as [_ Hrow].
    apply list_elem_of_fmap in Hrow as (joined_row & -> & Hjoined).
    simpl. rewrite (Hsame joined_row Hjoined), zip_with_diag.
    unfold square. ring.
  - intros Hzero. unfold per_cycle_depth, np_div.
    rewrite decide_True by exact Hzero. reflexivity.
Qed.

Lemma benchmark_perfect_sampling_witness :
  (1%Z, Some 1) ∈ benchmark_2q_xeb_fidelities_joined example_perfect_joined.
Proof.
  assert (Hin : (1%Z, per_cycle_depth
                        (depth_group (map _summary_stats example_perfect_joined) 1))
                ∈ benchmark_2q_xeb_fidelities_joined example_perfect_joined).
  { apply benchmark_elem_of. split; [constructor | reflexivity]. }
  destruct (λ Hrows, benchmark_perfect_sampling example_perfect_joined 1 _
                       Hrows Hin) as [Hone _].
  - intros row Hrow. unfold example_perfect_joined in Hrow.
    rewrite !elem_of_cons, elem_of_nil in Hrow.
    destruct Hrow as [->|[->|[]]]; reflexivity.
  - rewrite Hone in Hin; [exact Hin|].
    refine (bool_decide_unpack _ _). vm_compute. exact I.
Defined.

(** X21: a table whose sampled distributions are uniform has fidelity zero.
    If the [sampled_probs] of every row holds the value 1/4 for each outcome
    of [pure_probs], the fidelity of every cycle depth of the table is 0, and
    nan exactly for a depth whose denominators sum to zero. *)
Theorem benchmark_uniform_sampling (df : list JoinedRow) (d : Z)
    (fidelity : option Qc) :
  (∀ row, row ∈ df →
     row_sampled_probs row
     = replicate (length (row_pure_probs row)) (1 / Qc_of_Z 4)) →
  (d, fidelity) ∈ benchmark_2q_xeb_fidelities_joined df →
  let group := depth_group (map _summary_stats df) d in
  (np_sum (map denominator group) ≠ 0 → fidelity = Some 0)
  ∧ (np_sum (map denominator group) = 0 → fidelity = None).
Proof.
  intros Huniform Hin group. apply benchmark_elem_of in Hin as [_ ->].
  fold group. split.
  - intros Hden. apply per_cycle_depth_constant; [|exact Hden].
    apply Forall_forall. intros row Hrow. unfold group, depth_group in Hrow.
    apply list_elem_of_filter in Hrow as [_ Hrow].
    apply list_elem_of_fmap in Hrow as (joined_row & -> & Hjoined).
    simpl. rewrite (Huniform joined_row Hjoined), np_sum_scale_replicate.
    unfold Qcdiv. ring.
  - intros Hzero. unfold per_cycle_depth, np_div.
    rewrite decide_True by exact Hzero. reflexivity.
Qed.

Lemma benchmark_uniform_sampling_witness :
  (1%Z, Some 0) ∈ benchmark_2q_xeb_fidelities_joined example_uniform_joined.
Proof.
  assert (Hin : (1%Z, per_cycle_depth
                        (depth_group (map _summary_stats example_uniform_joined) 1))
                ∈ benchmark_2q_xeb_fidelities_joined example_uniform_joined).
  { apply benchmark_elem_of. split; [constructor | reflexivity]. }
  destruct (λ Hrows, benchmark_uniform_sampling example_uniform_joined 1 _
                       Hrows Hin) as [Hzero _].
  - intros row Hrow. unfold example_uniform_joined in Hrow.
    rewrite !elem_of_cons, elem_of_nil in Hrow.
    destruct Hrow as [->|[->|[]]]; reflexivity.
  - rewrite Hzero in Hin; [exact Hin|].
    refine (bool_decide_unpack _ _). vm_compute. exact I.
Defined.

Lemma Sorted_NoDup_strict (l : list Z) :
  Sorted Z.le l → NoDup l → StronglySorted Z.lt l.
Proof.
  intros Hs Hnd.
  apply Sorted_StronglySorted in Hs; [|intros a b c; apply Z.le_trans].
  induction Hs as [|v l _ IH Hall]; constructor.
  - apply IH. apply NoDup_cons in Hnd as [_ Hnd]. exact Hnd.
  - apply NoDup_cons in Hnd as [Hnotin _].
    apply Forall_forall. intros w Hw.
    rewrite Forall_forall in Hall. specialize (Hall w Hw).
    assert (v ≠ w) by (intros ->; contradiction). lia.
Qed.

(** X22: the fidelity table has one row per cycle depth of the joined table:
    its depths are exactly the depths that occur in the joined table, each
    once, in strictly increasing order. *)
Theorem benchmark_depths (df : list JoinedRow) :
  StronglySorted Z.lt (map fst (benchmark_2q_xeb_fidelities_joined df))
  ∧ ∀ d, d ∈ map fst (benchmark_2q_xeb_fidelities_joined df)
         ↔ d ∈ map cycle_depth df.
Proof.
  assert (Hfst : map fst (benchmark_2q_xeb_fidelities_joined df)
                 = sorted (list_to_set (map cycle_depth df))).
  { unfold benchmark_2q_xeb_fidelities_joined.
    rewrite <- !list_fmap_compose. simpl. apply list_fmap_id. }
  rewrite Hfst. split.
  - apply Sorted_NoDup_strict; [apply sorted_Sorted | apply sorted_NoDup].
  - intros d. rewrite sorted_elem_of, elem_of_list_to_set. reflexivity.
Qed.

(** ** The least-squares fitter on probabilities *)

Lemma finite_expectations_inv
    (expectations : list (option Qc * Qc * option Qc))
    (triples : list (Qc * Qc * Qc)) :
  finite_expectations expectations = Some triples →
  expectations = map (λ t, (Some t.1.1, t.1.2, Some t.2)) triples.
Proof.
  revert triples.
  induction expectations as [|[[m e] u] exps IH]; intros triples Hfin.
  - injection Hfin as <-. reflexivity.
  - unfold finite_expectations in Hfin. cbn [mapM] in Hfin.
    destruct m as [m|]; [|discriminate Hfin].
    destruct u as [u|]; [|discriminate Hfin]. simpl in Hfin.
    fold (finite_expectations exps) in Hfin.
    destruct (finite_expectations exps) as [rest|]; [|discriminate Hfin].
    injection Hfin as <-. simpl. rewrite (IH rest eq_refl). reflexivity.
Qed.

Lemma finite_expectations_map (triples : list (Qc * Qc * Qc)) :
  finite_expectations (map (λ t, (Some t.1.1, t.1.2, Some t.2)) triples)
  = Some triples.
Proof.
  induction triples as [|[[m e] u] triples IH]; [reflexivity|].
  unfold finite_expectations in *. cbn [map mapM]. simpl.
  rewrite IH. reflexivity.
Qed.

Lemma least_squares_on_numpy_scalars_inv
    (expectations : list (option Qc * Qc * option Qc))
    (fit : Qc * list Qc) :
  least_squares_on_numpy_scalars expectations = inr (Some fit) →
  ∃ triples,
    expectations = map (λ t, (Some t.1.1, t.1.2, Some t.2)) triples
    ∧ least_squares_xeb_fidelity_from_expectations
        (map (λ t, t.1.1) triples) (map (λ t, t.1.2) triples)
        (map (λ t, t.2) triples) = inr fit.
Proof.
  unfold least_squares_on_numpy_scalars.
  destruct expectations as [|x exps]; [discriminate|].
  destruct (finite_expectations (x :: exps)) as [triples|] eqn:Hfin;
    [|discriminate].
  apply finite_expectations_inv in Hfin.
  destruct (least_squares_xeb_fidelity_from_expectations _ _ _)
    as [[]|fit'] eqn:Hrun; try discriminate.
  intros [= <-]. exists triples. split; [exact Hfin | exact Hrun].
Qed.

Lemma zip3_triples {A B} (f g h : A → B) (l : list A) :
  zip3 (map f l) (map g l) (map h l) = map (λ t, (f t, g t, h t)) l.
Proof. induction l as [|t l IH]; simpl; [|rewrite IH]; reflexivity. Qed.

(** On finite expectations of at least one circuit, the fitter as the
    function on probabilities runs it is the fitter on numpy scalars: the
    same fidelity, nan when the denominators sum to zero. *)
Lemma least_squares_on_numpy_scalars_fitter (triples : list (Qc * Qc * Qc)) :
  triples ≠ [] →
  least_squares_on_numpy_scalars
    (map (λ t, (Some t.1.1, t.1.2, Some t.2)) triples)
  = match least_squares_xeb_fidelity_from_expectations_scalars
            (map (λ t, NpFloat64 t.1.1) triples)
            (map (λ t, NpFloat64 t.1.2) triples)
            (map (λ t, NpFloat64 t.2) triples) with
    | inl exception => inl exception
    | inr (None, _) => inr None
    | inr (Some fidelity, residuals) =>
        inr (Some (fidelity, omap id residuals))
    end.
Proof.
  intros Hne.
  rewrite least_squares_scalars_unfold by (rewrite !length_map; reflexivity).
  assert (Hnp : forallb is_PyFloat
                  (map (λ t, NpFloat64 t.1.1) triples
                   ++ map (λ t, NpFloat64 t.1.2) triples
                   ++ map (λ t, NpFloat64 t.2) triples) = false).
  { destruct triples; [congruence | reflexivity]. }
  assert (Hon : least_squares_on_numpy_scalars
                  (map (λ t, (Some t.1.1, t.1.2, Some t.2)) triples)
                = match least_squares_xeb_fidelity_from_expectations
                          (map (λ t, t.1.1) triples)
                          (map (λ t, t.1.2) triples)
                          (map (λ t, t.2) triples) with
                  | inr fit => mret (Some fit)
                  | inl ZeroDivisionError => mret None
                  | inl e => raise e
                  end).
  { unfold least_squares_on_numpy_scalars.
    rewrite finite_expectations_map.
    destruct triples; [congruence | reflexivity]. }
  rewrite Hon, Hnp. clear Hon Hnp Hne.
  rewrite least_squares_unfold by (rewrite !length_map; reflexivity).
  rewrite !map_map. cbn [scalar_value].
  unfold py_div, np_div.
  destruct (decide (lsq_denominator (map (λ t0, t0.1.1) triples)
                      (map (λ t0, t0.1.2) triples)
                      (map (λ t0, t0.2) triples) = 0));
    simpl; [reflexivity|].
  do 3 f_equal.
  rewrite !zip3_triples.
  generalize (lsq_numerator (map (λ t0, t0.1.1) triples)
                (map (λ t0, t0.1.2) triples) (map (λ t0, t0.2) triples)
              / lsq_denominator (map (λ t0, t0.1.1) triples)
                  (map (λ t0, t0.1.2) triples) (map (λ t0, t0.2) triples)).
  intros f. clear.
  induction triples as [|[[m e] u] l IH]; [reflexivity|].
  cbn [map omap]. simpl. f_equal. exact IH.
Qed.

Lemma zip_diag {A} (l : list A) : zip l l = map (λ v, (v, v)) l.
Proof. induction l as [|v l IH]; simpl; [|rewrite IH]; reflexivity. Qed.

Lemma entry_map (g : Qc * Qc * Qc → Qc) (triples : list (Qc * Qc * Qc))
    (U : nat) (t : Qc * Qc * Qc) :
  triples !! U = Some t → entry (map g triples) U = g t.
Proof.
  intros Ht. unfold entry. apply nth_lookup_Some.
  rewrite list_lookup_fmap, Ht. reflexivity.
Qed.

(** X23: observations spread exactly like the uniform distribution give
    fidelity zero.  When the observed probabilities of every circuit are the
    probabilities of all [D] outcomes, each once, the measured expectation
    equals the uniform one, and every finite estimate the function returns
    is the fidelity 0 with residuals that are all zero, for every observable
    and with or without normalisation. *)
Theorem least_squares_from_probabilities_uniform (D : Z)
    (all_probabilities : list (list Qc))
    (observable_from_probability : option (Qc → Qc))
    (normalize_probabilities : bool) (f : Qc) (residuals : list Qc) :
  Forall (λ all_probs, Z.of_nat (length all_probs) = D) all_probabilities →
  least_squares_xeb_fidelity_from_probabilities D all_probabilities
    all_probabilities observable_from_probability normalize_probabilities
  = inr (Some (f, residuals)) →
  f = 0 ∧ Forall (λ r, r = 0) residuals.
Proof.
  intros Hlen Hrun.
  unfold least_squares_xeb_fidelity_from_probabilities in Hrun.
  apply least_squares_on_numpy_scalars_inv in Hrun as (triples & Hexp & Hfit).
  assert (Hmu : Forall (λ t : Qc * Qc * Qc, t.1.1 = t.2) triples).
  { rewrite zip_diag, <- list_fmap_compose in Hexp.
    clear Hfit. revert triples Hexp.
    induction Hlen as [|all_probs rest Hall _ IH]; intros [|t triples] Hexp;
      try discriminate Hexp; constructor.
    - injection Hexp as Hm _ Hu _.
      unfold np_mean in Hm. rewrite length_map in Hm.
      unfold Qc_of_nat in Hm. rewrite Hall in Hm.
      rewrite Hm in Hu. injection Hu as <-. reflexivity.
    - apply IH. injection Hexp as _ _ _ Hrest. exact Hrest. }
  apply least_squares_inv in Hfit as (Hme & Heu & Hden & Hf & Hres).
  assert (Hnum : lsq_numerator (map (λ t, t.1.1) triples)
                   (map (λ t, t.1.2) triples) (map (λ t, t.2) triples) = 0).
  { unfold lsq_numerator. apply big_sum_zero. intros U HU.
    rewrite length_map in HU.
    destruct (lookup_lt_is_Some_2 triples U HU) as [t Ht].
    rewrite !(entry_map _ _ _ _ Ht).
    rewrite Forall_forall in Hmu.
    rewrite (Hmu t (list_elem_of_lookup_2 _ _ _ Ht)). ring. }
  assert (Hf0 : f = 0).
  { rewrite Hf, Hnum. unfold Qcdiv. ring. }
  split; [exact Hf0|].
  rewrite Hres. apply Forall_fmap, Forall_forall. intros [[m e] u] Hin.
  simpl. apply list_elem_of_lookup in Hin as [U HU].
  assert (HUlen : (U < length (map (λ t : Qc * Qc * Qc, t.1.1) triples))%nat).
  { apply lookup_lt_Some in HU. rewrite zip3_length in HU; assumption. }
  rewrite zip3_lookup in HU by assumption. injection HU as <- <- <-.
  rewrite length_map in HUlen.
  destruct (lookup_lt_is_Some_2 triples U HUlen) as [t Ht].
  rewrite !(entry_map _ _ _ _ Ht).
  rewrite Forall_forall in Hmu.
  rewrite (Hmu t (list_elem_of_lookup_2 _ _ _ Ht)), Hf0. ring.
Qed.

Lemma least_squares_from_probabilities_uniform_witness :
  ∃ f residuals,
    least_squares_xeb_fidelity_from_probabilities 4 example_all_probabilities
      example_all_probabilities None true = inr (Some (f, residuals))
    ∧ f = 0 ∧ Forall (λ r, r = 0) residuals.
Proof.
  destruct (least_squares_xeb_fidelity_from_probabilities 4
              example_all_probabilities example_all_probabilities None true)
    as [e|[[f residuals]|]] eqn:Hrun.
  - vm_compute in Hrun. discriminate Hrun.
  - exists f, residuals. split; [reflexivity|].
    apply (least_squares_from_probabilities_uniform 4
             example_all_probabilities None true f residuals); [|exact Hrun].
    repeat constructor.
  - vm_compute in Hrun. discriminate Hrun.
Defined.

Lemma np_sum_scale (c : Qc) (l : list Qc) :
  np_sum (map (λ p, c * p) l) = c * np_sum l.
Proof.
  induction l as [|v l IH]; [unfold np_sum; simpl; ring|].
  cbn [map]. rewrite !np_sum_cons, IH. ring.
Qed.

Lemma np_sum_zip_scale (c : Qc) (a b : list Qc) :
  np_sum (zip_with Qcmult a (map (λ p, c * p) b))
  = c * np_sum (zip_with Qcmult a b).
Proof.
  revert b. induction a as [|v a IH]; intros [|w b];
    try (unfold np_sum; simpl; ring).
  cbn [map zip_with]. rewrite !np_sum_cons, IH. ring.
Qed.

Lemma np_div_scale (c x y : Qc) :
  np_div (c * x) y = (λ q, c * q) <$> np_div x y.
Proof.
  unfold np_div. destruct (decide (y = 0)); [reflexivity|].
  simpl. f_equal. unfold Qcdiv. ring.
Qed.

Lemma circuit_expectations_normalized (D : Z) (observed_probs all_probs : list Qc) :
  circuit_expectations D (λ p, p) (Qc_of_Z D) observed_probs all_probs
  = let '(m, e, u) :=
      circuit_expectations D (λ p, p) 1 observed_probs all_probs in
    ((λ q, Qc_of_Z D * q) <$> m, Qc_of_Z D * e, (λ q, Qc_of_Z D * q) <$> u).
Proof.
  unfold circuit_expectations, np_mean.
  rewrite !length_map, !np_sum_scale, !np_sum_zip_scale, !np_div_scale.
  repeat f_equal.
  - destruct (np_div _ _); simpl; [f_equal; ring | reflexivity].
  - ring.
  - destruct (np_div _ _); simpl; [f_equal; ring | reflexivity].
Qed.

Lemma zip3_map (c : Qc) (triples : list (Qc * Qc * Qc)) :
  zip3 (map (λ t, c * t.1.1) triples) (map (λ t, c * t.1.2) triples)
       (map (λ t, c * t.2) triples)
  = map (λ t, (c * t.1.1, c * t.1.2, c * t.2)) triples.
Proof.
  induction triples as [|t triples IH]; simpl; [|rewrite IH]; reflexivity.
Qed.

Lemma zip3_projections (triples : list (Qc * Qc * Qc)) :
  zip3 (map (λ t, t.1.1) triples) (map (λ t, t.1.2) triples)
       (map (λ t, t.2) triples) = triples.
Proof.
  induction triples as [|[[m e] u] triples IH]; simpl; [|rewrite IH];
    reflexivity.
Qed.

Lemma lsq_scaled (c : Qc) (triples : list (Qc * Qc * Qc)) :
  lsq_numerator (map (λ t, c * t.1.1) triples) (map (λ t, c * t.1.2) triples)
                (map (λ t, c * t.2) triples)
  = c * c * lsq_numerator (map (λ t, t.1.1) triples)
              (map (λ t, t.1.2) triples) (map (λ t, t.2) triples)
  ∧ lsq_denominator (map (λ t, c * t.1.1) triples)
      (map (λ t, c * t.1.2) triples) (map (λ t, c * t.2) triples)
    = c * c * lsq_denominator (map (λ t, t.1.1) triples)
                (map (λ t, t.1.2) triples) (map (λ t, t.2) triples).
Proof.
  induction triples as [|[[m e] u] triples [IHn IHd]].
  - unfold lsq_numerator, lsq_denominator. simpl. split; ring.
  - cbn [map]. rewrite !lsq_numerator_cons, !lsq_denominator_cons, IHn, IHd.
    simpl. unfold square. split; ring.
Qed.

Lemma least_squares_scaled (c : Qc) (triples : list (Qc * Qc * Qc))
    (f : Qc) (residuals : list Qc) :
  c ≠ 0 →
  least_squares_xeb_fidelity_from_expectations
    (map (λ t, t.1.1) triples) (map (λ t, t.1.2) triples)
    (map (λ t, t.2) triples) = inr (f, residuals) →
  least_squares_xeb_fidelity_from_expectations
    (map (λ t, c * t.1.1) triples) (map (λ t, c * t.1.2) triples)
    (map (λ t, c * t.2) triples)
  = inr (f, map (λ r, c * r) residuals).
Proof.
  intros Hc Hrun.
  apply least_squares_inv in Hrun as (_ & _ & Hden & Hf & Hres).
  rewrite least_squares_unfold by (rewrite !length_map; reflexivity).
  destruct (lsq_scaled c triples) as [-> ->].
  unfold py_div. rewrite decide_False.
  - simpl. f_equal. f_equal.
    + rewrite Hf. field. split; assumption.
    + rewrite Hres, zip3_map, zip3_projections, <- !list_fmap_compose.
      apply map_ext_elem_of. intros [[m e] u] _. simpl.
      replace (c * c * lsq_numerator (map (λ t, t.1.1) triples)
                 (map (λ t, t.1.2) triples) (map (λ t, t.2) triples)
               / (c * c * lsq_denominator (map (λ t, t.1.1) triples)
                    (map (λ t, t.1.2) triples) (map (λ t, t.2) triples)))
        with f by (rewrite Hf; field; split; assumption).
      ring.
  - intros Hzero. apply Qcmult_integral in Hzero as [Hzero|Hzero];
      [|contradiction].
    apply Qcmult_integral in Hzero as [Hzero|Hzero]; contradiction.
Qed.

(** X24: with the default observable the normalisation does not change the
    fidelity.  For a non-zero dimension [D], a finite fit [(f, residuals)]
    without normalisation is the fit [(f, D · residuals)] with it: the three
    expectations of every circuit are multiplied by [D], which leaves the
    ratio alone. *)
Theorem least_squares_from_probabilities_normalization (D : Z)
    (observed_probabilities all_probabilities : list (list Qc))
    (f : Qc) (residuals : list Qc) :
  D ≠ 0%Z →
  least_squares_xeb_fidelity_from_probabilities D observed_probabilities
    all_probabilities None false = inr (Some (f, residuals)) →
  least_squares_xeb_fidelity_from_probabilities D observed_probabilities
    all_probabilities None true
  = inr (Some (f, map (λ r, Qc_of_Z D * r) residuals)).
Proof.
  intros HD Hrun.
  assert (Hc : Qc_of_Z D ≠ 0).
  { intros H. rewrite <- Z2Qc_inj_0 in H. apply Z2Qc_inj in H. lia. }
  unfold least_squares_xeb_fidelity_from_probabilities in *.
  apply least_squares_on_numpy_scalars_inv in Hrun as (triples & Hexp & Hfit).
  assert (Hscaled :
    map (λ '(observed_probs, all_probs),
           circuit_expectations D (λ p, p) (Qc_of_Z D) observed_probs all_probs)
        (zip observed_probabilities all_probabilities)
    = map (λ t, (Some t.1.1, t.1.2, Some t.2))
          (map (λ t, (Qc_of_Z D * t.1.1, Qc_of_Z D * t.1.2, Qc_of_Z D * t.2))
               triples)).
  { clear Hfit. revert triples Hexp.
    induction (zip observed_probabilities all_probabilities)
      as [|[o a] rest IH]; intros [|t triples] Hexp; try discriminate Hexp;
      [reflexivity|].
    cbn [map] in *.
    assert (Hhead : circuit_expectations D (λ p, p) 1 o a
                    = (Some t.1.1, t.1.2, Some t.2)) by congruence.
    rewrite (IH triples) by congruence.
    rewrite circuit_expectations_normalized, Hhead. reflexivity. }
  rewrite Hscaled. unfold least_squares_on_numpy_scalars.
  rewrite finite_expectations_map.
  pose proof (least_squares_scaled (Qc_of_Z D) triples f residuals Hc Hfit)
    as Hrun.
  destruct triples as [|t triples].
  { exfalso. vm_compute in Hfit. discriminate Hfit. }
  cbn [map].
  assert (Hmaps : ∀ g : Qc * Qc * Qc → Qc,
    map g (map (λ t, (Qc_of_Z D * t.1.1, Qc_of_Z D * t.1.2, Qc_of_Z D * t.2))
               triples)
    = map (λ t, g (Qc_of_Z D * t.1.1, Qc_of_Z D * t.1.2, Qc_of_Z D * t.2))
          triples).
  { intros g. rewrite <- list_fmap_compose. reflexivity. }
  rewrite !Hmaps. cbn [map fst snd] in Hrun |- *.
  rewrite Hrun. reflexivity.
Qed.

Lemma least_squares_from_probabilities_normalization_witness :
  ∃ f residuals,
    least_squares_xeb_fidelity_from_probabilities 4
      example_observed_probabilities example_all_probabilities None false
    = inr (Some (f, residuals))
    ∧ least_squares_xeb_fidelity_from_probabilities 4
        example_observed_probabilities example_all_probabilities None true
      = inr (Some (f, map (λ r, Qc_of_Z 4 * r) residuals)).
Proof.
  destruct (least_squares_xeb_fidelity_from_probabilities 4
              example_observed_probabilities example_all_probabilities None
              false)
    as [e|[[f residuals]|]] eqn:Hrun.
  - vm_compute in Hrun. discriminate Hrun.
  - exists f, residuals. split; [reflexivity|].
    apply (least_squares_from_probabilities_normalization 4
             example_observed_probabilities example_all_probabilities
             f residuals); [lia | exact Hrun].
  - vm_compute in Hrun. discriminate Hrun.
Defined.

(** X25: with the default observable or a numpy ufunc, the only exception
    is the division by zero on no circuits.  The function then raises
    exactly when one of the two sequences is empty, and it raises
    [ZeroDivisionError]; the length check of the fitter it delegates to
    never fails, and once a circuit has been read a zero denominator or an
    empty inner list gives a non-finite value instead.  (An observable that
    is a plain Python callable computes on Python objects and is not
    covered.) *)
Theorem least_squares_from_probabilities_raises (D : Z)
    (observed_probabilities all_probabilities : list (list Qc))
    (observable_from_probability : option (Qc → Qc))
    (normalize_probabilities : bool) (e : exn) :
  least_squares_xeb_fidelity_from_probabilities D observed_probabilities
    all_probabilities observable_from_probability normalize_probabilities
  = inl e
  ↔ e = ZeroDivisionError
    ∧ (observed_probabilities = [] ∨ all_probabilities = []).
Proof.
  unfold least_squares_xeb_fidelity_from_probabilities.
  destruct observed_probabilities as [|o obs].
  { simpl. split.
    - intros [= <-]. split; [reflexivity | left; reflexivity].
    - intros [-> _]. reflexivity. }
  destruct all_probabilities as [|a alls].
  { simpl. split.
    - intros [= <-]. split; [reflexivity | right; reflexivity].
    - intros [-> _]. reflexivity. }
  split; [|intros [_ [Hnil|Hnil]]; discriminate Hnil].
  intros Hrun. exfalso. cbn [zip zip_with map] in Hrun.
  unfold least_squares_on_numpy_scalars in Hrun.
  destruct (finite_expectations _) as [triples|]; [|discriminate Hrun].
  rewrite least_squares_unfold in Hrun by (rewrite !length_map; reflexivity).
  unfold py_div in Hrun.
  destruct (decide (_ = 0)); simpl in Hrun; discriminate Hrun.
Qed.

(** ** The parameters of the characterization *)

Lemma dict_foldl_notin {V : Type} (pairs : list (string * V))
    (d : gmap string V) (k : string) :
  k ∉ pairs.*1 →
  foldl (λ d kv, <[kv.1 := kv.2]> d) d pairs !! k = d !! k.
Proof.
  revert d. induction pairs as [|[k' v'] pairs IH]; intros d Hk;
    [reflexivity|].
  cbn [foldl fmap list_fmap] in *.
  apply not_elem_of_cons in Hk as [Hne Hk]. simpl in Hne.
  rewrite IH by exact Hk. simpl. apply lookup_insert_ne. congruence.
Qed.

Lemma dict_foldl_lookup {V : Type} (pairs : list (string * V))
    (d : gmap string V) (k : string) (v : V) :
  NoDup pairs.*1 → (k, v) ∈ pairs →
  foldl (λ d kv, <[kv.1 := kv.2]> d) d pairs !! k = Some v.
Proof.
  revert d. induction pairs as [|[k' v'] pairs IH]; intros d Hnd Hin.
  - apply elem_of_nil in Hin. contradiction.
  - cbn [foldl fmap list_fmap] in *. apply NoDup_cons in Hnd as [Hk' Hnd].
    apply elem_of_cons in Hin as [[= -> ->]|Hin].
    + rewrite dict_foldl_notin by exact Hk'. simpl. apply lookup_insert_eq.
    + apply IH; assumption.
Qed.

Lemma dict_foldl_dom {V : Type} (pairs : list (string * V))
    (d : gmap string V) :
  dom (foldl (λ d kv, <[kv.1 := kv.2]> d) d pairs)
  = dom d ∪ list_to_set pairs.*1.
Proof.
  revert d. induction pairs as [|[k' v'] pairs IH]; intros d.
  - simpl. rewrite (right_id_L ∅ (∪)). reflexivity.
  - cbn [foldl fmap list_fmap list_to_set]. rewrite IH, dom_insert_L.
    simpl. rewrite (comm_L (∪) {[k']} (dom d)), <- (assoc_L (∪)).
    reflexivity.
Qed.

Lemma names_NoDup (self : XEBPhasedFSimCharacterizationOptions) (s : Qc) :
  NoDup (get_initial_simplex_and_names self s).2.
Proof.
  rewrite get_initial_simplex_and_names_unfold. cbn [snd].
  destruct self as [[] [] [] [] [] t z c g p];
    refine (bool_decide_unpack _ _); vm_compute; exact I.
Qed.

(** X26: the symbols of the parameterized gate are the names of the
    optimization.  The angles that [parameterize_phased_fsim_circuit] leaves
    symbolic, read in the order theta, zeta, chi, gamma, phi, carry exactly
    the names that [get_initial_simplex_and_names] returns, in the same
    order, whatever the flags and the step size. *)
Theorem parameterized_symbols_are_names
    (options : XEBPhasedFSimCharacterizationOptions) (s : Qc) :
  omap angle_symbol (phased_fsim_gate_arguments options)
  = (get_initial_simplex_and_names options s).2.
Proof.
  rewrite get_initial_simplex_and_names_unfold. cbn [snd].
  destruct options as [[] [] [] [] [] t z c g p]; reflexivity.
Qed.

(** X27: the dictionary of the loss function loses no angle.  For a trial
    vector with one coordinate per name, [dict(zip(names, angles))] has
    exactly the names as keys, as many entries as there are names, and binds
    the [i]-th name to the [i]-th coordinate: no two names collide. *)
Theorem mean_infidelity_params_bind
    (options : XEBPhasedFSimCharacterizationOptions) (s : Qc)
    (angles : list Qc) :
  let names := (get_initial_simplex_and_names options s).2 in
  let params := _mean_infidelity_params options s angles in
  length angles = length names →
  dom params = list_to_set names
  ∧ size params = length names
  ∧ ∀ i name v, names !! i = Some name → angles !! i = Some v →
      params !! name = Some v.
Proof.
  intros names params Hlen.
  pose proof (names_NoDup options s) as Hnd. fold names in Hnd.
  assert (Hparams : params = dict (zip names angles)).
  { unfold params, names, _mean_infidelity_params.
    destruct (get_initial_simplex_and_names options s). reflexivity. }
  assert (Hfst : (zip names angles).*1 = names).
  { apply fst_zip. lia. }
  assert (Hdom : dom params = list_to_set names).
  { rewrite Hparams. unfold dict. rewrite dict_foldl_dom, Hfst, dom_empty_L.
    apply (left_id_L ∅ (∪)). }
  split; [exact Hdom|]. split.
  - rewrite <- size_dom, Hdom. apply size_list_to_set. exact Hnd.
  - intros i name v Hname Hv. rewrite Hparams. unfold dict.
    apply dict_foldl_lookup; [rewrite Hfst; exact Hnd|].
    apply (list_elem_of_lookup_2 _ i). apply lookup_zip_with_Some.
    exists name, v. split; [reflexivity|]. split; assumption.
Qed.

Lemma mean_infidelity_params_bind_witness :
  dom (_mean_infidelity_params example_partial_options (Q2Qc (1 # 10))
         [Q2Qc (1 # 2); Q2Qc (1 # 3); Q2Qc (1 # 4)])
  = list_to_set
      (get_initial_simplex_and_names example_partial_options
         (Q2Qc (1 # 10))).2
  ∧ size (_mean_infidelity_params example_partial_options (Q2Qc (1 # 10))
            [Q2Qc (1 # 2); Q2Qc (1 # 3); Q2Qc (1 # 4)])
    = length (get_initial_simplex_and_names example_partial_options
                (Q2Qc (1 # 10))).2
  ∧ ∀ i name v,
      (get_initial_simplex_and_names example_partial_options
         (Q2Qc (1 # 10))).2 !! i = Some name →
      [Q2Qc (1 # 2); Q2Qc (1 # 3); Q2Qc (1 # 4)] !! i = Some v →
      _mean_infidelity_params example_partial_options (Q2Qc (1 # 10))
        [Q2Qc (1 # 2); Q2Qc (1 # 3); Q2Qc (1 # 4)] !! name = Some v.
Proof.
  apply (mean_infidelity_params_bind example_partial_options (Q2Qc (1 # 10))
           [Q2Qc (1 # 2); Q2Qc (1 # 3); Q2Qc (1 # 4)]).
  reflexivity.
Defined.

(** X28: binding the start vector gives back the defaults.  With the
    parameters bound to the first vertex of the initial simplex, the five
    keyword arguments that [parameterize_phased_fsim_circuit] hands to
    [ops.PhasedFSimGate] evaluate to the five default values of the
    options: the free ones through their symbols, the fixed ones as they
    are.  The statement is about these arguments; the reduction modulo 2π
    that the gate applies to a number is the same for an argument and for
    the default it evaluates to. *)
Theorem parameterized_defaults_round_trip
    (options : XEBPhasedFSimCharacterizationOptions) (s : Qc)
    (x0 : list Qc) :
  (get_initial_simplex_and_names options s).1 !! 0%nat = Some x0 →
  map (angle_value (_mean_infidelity_params options s x0))
      (phased_fsim_gate_arguments options)
  = map Some [theta_default options; zeta_default options;
              chi_default options; gamma_default options;
              phi_default options].
Proof.
  intros Hx0. unfold _mean_infidelity_params.
  rewrite get_initial_simplex_and_names_unfold in Hx0 |- *.
  cbn [fst app] in Hx0. injection Hx0 as <-.
  destruct options as [[] [] [] [] [] t z c g p]; vm_compute; reflexivity.
Qed.

Lemma parameterized_defaults_round_trip_witness :
  map (angle_value
         (_mean_infidelity_params example_partial_options (Q2Qc (1 # 10))
            [- Q2Qc (1 # 4); 0; 0]))
      (phased_fsim_gate_arguments example_partial_options)
  = map Some [theta_default example_partial_options;
              zeta_default example_partial_options;
              chi_default example_partial_options;
              gamma_default example_partial_options;
              phi_default example_partial_options].
Proof.
  apply (parameterized_defaults_round_trip example_partial_options
           (Q2Qc (1 # 10)) [- Q2Qc (1 # 4); 0; 0]).
  vm_compute. reflexivity.
Defined.

(** X29: a non-zero step gives a simplex without repeated vertices.  The
    start vector and the vertices one step along each axis are pairwise
    different, so the simplex handed to the optimizer is not degenerate. *)
Theorem initial_simplex_vertices_distinct
    (self : XEBPhasedFSimCharacterizationOptions) (s : Qc) :
  s ≠ 0 → NoDup (get_initial_simplex_and_names self s).1.
Proof.
  intros Hs. rewrite get_initial_simplex_and_names_unfold. cbn [fst].
  set (x0 := map snd (enabled_angles self)).
  assert (Hstep : ∀ v, v + s ≠ v + 0).
  { intros v Heq. apply Hs.
    replace s with (v + s - v) by ring. rewrite Heq. ring. }
  cbn [app]. apply NoDup_cons. split.
  - intros Hin. apply list_elem_of_fmap in Hin as (i & Heq & Hi).
    apply elem_of_seq in Hi as [_ Hi]. simpl in Hi.
    pose proof (simplex_vertex_lookup x0 s i i Hi) as Hlook.
    rewrite <- Heq, bool_decide_eq_true_2 in Hlook by reflexivity.
    unfold entry in Hlook.
    destruct (lookup_lt_is_Some_2 x0 i Hi) as [v Hv].
    rewrite (nth_lookup_Some _ _ _ _ Hv), Hv in Hlook.
    apply (Hstep v). replace (v + 0) with v by ring. congruence.
  - apply NoDup_fmap_2_strong; [|apply NoDup_seq].
    intros i j Hi Hj Heq.
    apply elem_of_seq in Hi as [_ Hi]. simpl in Hi.
    destruct (decide (i = j)) as [|Hne]; [assumption|]. exfalso.
    pose proof (simplex_vertex_lookup x0 s i i Hi) as Hii.
    pose proof (simplex_vertex_lookup x0 s j i Hi) as Hji.
    rewrite Heq, Hji in Hii.
    rewrite (bool_decide_eq_true_2 (i = i) eq_refl) in Hii.
    rewrite (bool_decide_eq_false_2 (i = j) Hne) in Hii.
    apply (Hstep (entry x0 i)). congruence.
Qed.

Lemma initial_simplex_vertices_distinct_witness :
  NoDup (get_initial_simplex_and_names example_options (Q2Qc (1 # 10))).1.
Proof.
  apply (initial_simplex_vertices_distinct example_options (Q2Qc (1 # 10))).
  intros Hzero. discriminate Hzero.
Defined.
